(** * Grammar processor: bounded breadth-first generation and membership

    A shallow embedding of [src/grammar_processor.py] (class
    [GrammarProcessor]) and the properties of its derivation search.

    - A Python [str] is a [list ascii], its characters read as the code
      points 0 to 255.  A character is a string of length one, so the sets
      [terminals] and [non_terminals] and the keys of [productions] hold
      strings, as the Python sets do (the left-hand side of a line may be any
      string).
    - [productions] is a [defaultdict(list)]: reading a missing key inserts it
      with an empty list.  The processor is therefore threaded through every
      operation and returned with the result.
    - [deque] is a list ([popleft] takes the head, [append] adds at the end),
      [set] is a [gset].
    - Each [while] loop is a step function on the loop's variables.  The loop
      of [_bfs_parse] is bounded by its own counter; the loops of
      [generate_words] and [_can_produce_empty] carry no bound and are run
      under a fuel, and that some fuel always suffices is proved below.
    - [max_length] and [max_words] are Python integers: [Z]. *)

From Stdlib Require Import Ascii String ZArith Lia.
From stdpp Require Import base gmap sets list strings sorting.

(** ** Data model *)

Abbreviation str := (list ascii).

(** Literals of the development are written as Rocq strings. *)
Definition py (s : string) : str := list_ascii_of_string s.

Inductive exn : Type :=
| TypeError.

(** What a call does: it returns, it raises, or the model ran out of fuel
    (the last is an artefact of the model only). *)
Inductive outcome (A : Type) : Type :=
| Returned (a : A)
| Raised (e : exn)
| OutOfFuel.

Arguments Returned {A} a.
Arguments Raised {A} e.
Arguments OutOfFuel {A}.

(** [GrammarProcessor.__init__]: the four fields of the object. *)
Record GrammarProcessor : Type := mkGrammarProcessor {
  productions : gmap str (list str);
  terminals : gset str;
  non_terminals : gset str;
  start_symbol : option str
}.

Definition __init__ : GrammarProcessor :=
  {| productions := ∅; terminals := ∅; non_terminals := ∅; start_symbol := None |}.

Definition set_productions (self : GrammarProcessor) (d : gmap str (list str))
  : GrammarProcessor :=
  {| productions := d;
     terminals := terminals self;
     non_terminals := non_terminals self;
     start_symbol := start_symbol self |}.

(** [defaultdict(list).__getitem__]: a missing key is inserted with [[]]. *)
Definition defaultdict_getitem (d : gmap str (list str)) (key : str)
  : list str * gmap str (list str) :=
  match d !! key with
  | Some v => (v, d)
  | None => ([], <[key := []]> d)
  end.

(** The productions stored for [key], in stored order; nothing stored reads as
    the empty list.  This is the view every search has of the mapping. *)
Definition rules (self : GrammarProcessor) (key : str) : list str :=
  default [] (productions self !! key).

(** ** [_is_terminal_string] *)

Definition _is_terminal_string (self : GrammarProcessor) (s : str) : bool :=
  forallb (fun char => bool_decide ([char] ∈ terminals self)
                       || bool_decide ([char] = @nil ascii)) s.

(** ** [_get_expansions] *)

(** The [for i, char in enumerate(current)] scan up to its [break]. *)
Fixpoint first_non_terminal (nts : gset str) (current : str) (i : nat)
  : option (nat * ascii) :=
  match current with
  | [] => None
  | char :: rest =>
      if bool_decide ([char] ∈ nts) then Some (i, char)
      else first_non_terminal nts rest (S i)
  end.

Definition _get_expansions (self : GrammarProcessor) (current : str)
  : list str * GrammarProcessor :=
  match first_non_terminal (non_terminals self) current 0 with
  | None => ([], self)
  | Some (i, char) =>
      let '(prods, d) := defaultdict_getitem (productions self) [char] in
      (map (fun production => take i current ++ production ++ drop (S i) current) prods,
       set_productions self d)
  end.

(** The expander as §4.2 of the specification words it: find the leftmost
    non-terminal, substitute each of its right-hand sides there, keep the
    prefix and the suffix. *)
Fixpoint expand_leftmost_spec (self : GrammarProcessor) (s : str) : list str :=
  match s with
  | [] => []
  | c :: suffix =>
      if bool_decide ([c] ∈ non_terminals self)
      then map (fun rhs => rhs ++ suffix) (rules self [c])
      else map (cons c) (expand_leftmost_spec self suffix)
  end.

(** ** Loops *)

(** One pass of a [while] body either continues with a new loop state or
    leaves the loop with the value of the enclosing function. *)
Fixpoint run {St R : Type} (fuel : nat) (step : St → St + outcome R) (st : St)
  : outcome R :=
  match fuel with
  | O => OutOfFuel
  | S fuel' =>
      match step st with
      | inl st' => run fuel' step st'
      | inr r => r
      end
  end.

(** The state after [n] passes, while the loop is still running. *)
Fixpoint passes {St R : Type} (n : nat) (step : St → St + outcome R) (st : St)
  : option St :=
  match n with
  | O => Some st
  | S n' =>
      match step st with
      | inl st' => passes n' step st'
      | inr _ => None
      end
  end.

(** The part of a search state the three searches share. *)
Record search : Type := mkSearch {
  self_of : GrammarProcessor;
  queue : list str;
  visited : gset str
}.

(** [for expansion in expansions: if expansion not in visited and keep:
    visited.add(expansion); queue.append(expansion)]. *)
Fixpoint enqueue (keep : str → bool) (expansions : list str)
    (q : list str) (v : gset str) : list str * gset str :=
  match expansions with
  | [] => (q, v)
  | expansion :: more =>
      if bool_decide (expansion ∉ v) && keep expansion
      then enqueue keep more (q ++ [expansion]) ({[expansion]} ∪ v)
      else enqueue keep more q v
  end.

(** Expanding the dequeued form [current]; [rest] is the queue after
    [popleft]. *)
Definition expand (keep : str → bool) (self : GrammarProcessor) (current : str)
    (rest : list str) (v : gset str) : search :=
  let '(expansions, self') := _get_expansions self current in
  let '(q', v') := enqueue keep expansions rest v in
  mkSearch self' q' v'.

Definition len (s : str) : Z := Z.of_nat (length s).

(** Python truth value of [self.start_symbol]: [None] and [''] are false. *)
Definition truthy (o : option str) : bool :=
  match o with
  | None | Some [] => false
  | Some (_ :: _) => true
  end.

(** ** [generate_words] *)

(** Order of [str] under [<]: lexicographic by code point. *)
Fixpoint str_leb (s t : str) : bool :=
  match s, t with
  | [], _ => true
  | _ :: _, [] => false
  | a :: s', b :: t' =>
      if (N_of_ascii a <? N_of_ascii b)%N then true
      else if (N_of_ascii a =? N_of_ascii b)%N then str_leb s' t'
      else false
  end.

Definition str_le (s t : str) : Prop := str_leb s t = true.

#[global] Instance str_le_dec s t : Decision (str_le s t).
Proof. unfold str_le. apply _. Defined.

(** [sorted(list(words))]: the ascending arrangement of a set does not depend
    on the order in which the set is listed. *)
Definition sorted (words : gset str) : list str :=
  merge_sort str_le (elements words).

Record gen_state : Type := mkGen {
  gen_search : search;
  generated_words : gset str
}.

Definition generate_step (max_length max_words : Z) (st : gen_state)
  : gen_state + outcome (list str * GrammarProcessor) :=
  let '(mkGen (mkSearch self q v) words) := st in
  match q with
  | [] => inr (Returned (sorted words, self))
  | current :: rest =>
      if (Z.of_nat (size words) <? max_words)%Z then
        if _is_terminal_string self current then
          if (len current <=? max_length)%Z && negb (bool_decide (current = []))
          then inl (mkGen (mkSearch self rest v) ({[current]} ∪ words))
          else inl (mkGen (mkSearch self rest v) words)
        else if (max_length <? len current)%Z then
          inl (mkGen (mkSearch self rest v) words)
        else
          inl (mkGen (expand (fun expansion => (len expansion <=? max_length * 2)%Z)
                             self current rest v) words)
      else inr (Returned (sorted words, self))
  end.

Definition generate_words (fuel : nat) (self : GrammarProcessor)
    (max_length max_words : Z) : outcome (list str * GrammarProcessor) :=
  match start_symbol self with
  | Some start =>
      if truthy (start_symbol self) then
        run fuel (generate_step max_length max_words)
            (mkGen (mkSearch self [start] {[start]}) ∅)
      else Returned ([], self)
  | None => Returned ([], self)
  end.

(** ** [_can_produce_empty] *)

Definition empty_step (st : search) : search + outcome (bool * GrammarProcessor) :=
  let '(mkSearch self q v) := st in
  match q with
  | [] => inr (Returned (false, self))
  | current :: rest =>
      if bool_decide (current = []) then inr (Returned (true, self))
      else if _is_terminal_string self current then inl (mkSearch self rest v)
      else inl (expand (fun exp => (len exp <? 20)%Z) self current rest v)
  end.

(** With no start symbol the queue holds [None]: the first pass dequeues it,
    [None == ''] is false, and [_is_terminal_string(None)] iterates over
    [None], which raises [TypeError]. *)
Definition _can_produce_empty (fuel : nat) (self : GrammarProcessor)
  : outcome (bool * GrammarProcessor) :=
  match start_symbol self with
  | None => Raised TypeError
  | Some start => run fuel empty_step (mkSearch self [start] {[start]})
  end.

(** ** [_bfs_parse] *)

Record bfs_state : Type := mkBfs {
  bfs_search : search;
  iterations : nat
}.

Definition bfs_step (max_iterations : nat) (target_word : str) (st : bfs_state)
  : bfs_state + outcome (bool * GrammarProcessor) :=
  let '(mkBfs (mkSearch self q v) iterations) := st in
  match q with
  | [] => inr (Returned (false, self))
  | current :: rest =>
      if (iterations <? max_iterations) then
        let iterations := S iterations in
        if bool_decide (current = target_word) then inr (Returned (true, self))
        else if _is_terminal_string self current then
          inl (mkBfs (mkSearch self rest v) iterations)
        else if (len target_word <? len current)%Z then
          inl (mkBfs (mkSearch self rest v) iterations)
        else
          inl (mkBfs (expand (fun _ => true) self current rest v) iterations)
      else inr (Returned (false, self))
  end.

(** The loop makes at most [max_iterations] passes and one more test of its
    condition, so the fuel given here is never exhausted. *)
Definition _bfs_parse_capped (max_iterations : nat) (self : GrammarProcessor)
    (target_word : str) : outcome (bool * GrammarProcessor) :=
  match start_symbol self with
  | Some start =>
      if truthy (start_symbol self) then
        run (S max_iterations) (bfs_step max_iterations target_word)
            (mkBfs (mkSearch self [start] {[start]}) 0)
      else Returned (false, self)
  | None => Returned (false, self)
  end.

#[warnings="-abstract-large-number"]
Definition max_iterations : nat := 10000.

Definition _bfs_parse : GrammarProcessor → str → outcome (bool * GrammarProcessor) :=
  _bfs_parse_capped max_iterations.

(** ** [belongs_to_grammar] *)

(** The body of [belongs_to_grammar], with the two methods it calls through
    [self] as parameters. *)
Definition belongs_to_grammar_body
    (can_produce_empty : GrammarProcessor → outcome (bool * GrammarProcessor))
    (bfs_parse : GrammarProcessor → str → outcome (bool * GrammarProcessor))
    (self : GrammarProcessor) (word : str) : outcome (bool * GrammarProcessor) :=
  if bool_decide (word = []) then can_produce_empty self
  else if negb (forallb (fun char => bool_decide ([char] ∈ terminals self)) word)
  then Returned (false, self)
  else bfs_parse self word.

Definition belongs_to_grammar (fuel : nat) (self : GrammarProcessor) (word : str)
  : outcome (bool * GrammarProcessor) :=
  belongs_to_grammar_body (_can_produce_empty fuel) _bfs_parse self word.

(** The same with the iteration cap of [_bfs_parse] as a parameter. *)
Definition belongs_to_grammar_capped (cap fuel : nat) (self : GrammarProcessor)
    (word : str) : outcome (bool * GrammarProcessor) :=
  belongs_to_grammar_body (_can_produce_empty fuel) (_bfs_parse_capped cap) self word.

(** ** [parse_grammar] *)

(** Characters are the code points 0 to 255; the three classes below are
    [str.isspace], [str.isupper] and [str.islower] on that range. *)
Definition isspace (c : ascii) : bool :=
  let n := N_of_ascii c in
  ((9 <=? n) && (n <=? 13) || (28 <=? n) && (n <=? 32) || (n =? 133) || (n =? 160))%N.

Definition isupper (c : ascii) : bool :=
  let n := N_of_ascii c in
  ((65 <=? n) && (n <=? 90) || (192 <=? n) && (n <=? 214)
   || (216 <=? n) && (n <=? 222))%N.

Definition islower (c : ascii) : bool :=
  let n := N_of_ascii c in
  ((97 <=? n) && (n <=? 122) || (n =? 170) || (n =? 181) || (n =? 186)
   || (223 <=? n) && (n <=? 246) || (248 <=? n) && (n <=? 255))%N.

Fixpoint lstrip (s : str) : str :=
  match s with
  | [] => []
  | c :: s' => if isspace c then lstrip s' else s
  end.

(** [s.strip()]. *)
Definition strip (s : str) : str := rev (lstrip (rev (lstrip s))).

(** [s.split(sep)] for a separator of one character. *)
Fixpoint split (sep : ascii) (s : str) : list str :=
  match s with
  | [] => [[]]
  | c :: s' =>
      if Ascii.eqb c sep then [] :: split sep s'
      else match split sep s' with
           | field :: fields => (c :: field) :: fields
           | [] => [[c]]
           end
  end.

(** [line.split('->', 1)] when ['->' in line], [None] otherwise. *)
Fixpoint split_arrow (line : str) : option (str * str) :=
  match line with
  | [] => None
  | c :: line' =>
      match c, line' with
      | "-"%char, ">"%char :: rhs => Some ([], rhs)
      | _, _ =>
          match split_arrow line' with
          | Some (lhs, rhs) => Some (c :: lhs, rhs)
          | None => None
          end
      end
  end.

(** The body of [for char in prod]. *)
Definition classify (self : GrammarProcessor) (char : ascii) : GrammarProcessor :=
  if isupper char then
    {| productions := productions self; terminals := terminals self;
       non_terminals := {[ [char] ]} ∪ non_terminals self;
       start_symbol := start_symbol self |}
  else if islower char then
    {| productions := productions self; terminals := {[ [char] ]} ∪ terminals self;
       non_terminals := non_terminals self;
       start_symbol := start_symbol self |}
  else self.

(** The body of [for prod in productions]:
    [self.productions[left].append(prod)], then the characters of [prod]. *)
Definition add_production (left : str) (self : GrammarProcessor) (prod : str)
  : GrammarProcessor :=
  let '(stored, d) := defaultdict_getitem (productions self) left in
  fold_left classify prod (set_productions self (<[left := stored ++ [prod]]> d)).

(** The body of [for line in lines]. *)
Definition parse_line (self : GrammarProcessor) (line : str) : GrammarProcessor :=
  match split_arrow line with
  | None => self
  | Some (lhs, rhs) =>
      let left := strip lhs in
      let self1 :=
        {| productions := productions self; terminals := terminals self;
           non_terminals := {[left]} ∪ non_terminals self;
           start_symbol := match start_symbol self with
                           | None => Some left
                           | Some start => Some start
                           end |} in
      fold_left (add_production left) (map strip (split "|" rhs)) self1
  end.

Definition parse_grammar (self : GrammarProcessor) (grammar_text : str)
  : GrammarProcessor :=
  let lines :=
    map strip
        (List.filter (fun line => negb (bool_decide (strip line = [])))
                     (split "010" (strip grammar_text))) in
  fold_left parse_line lines self.

(** ** [display_grammar] *)

(** [sep.join(l)]. *)
Fixpoint join (sep : str) (l : list str) : str :=
  match l with
  | [] => []
  | [x] => x
  | x :: l' => x ++ sep ++ join sep l'
  end.

Definition newline : str := ["010"%char].

(** The [if nt in self.productions] guard keeps this method from inserting
    keys: it reads a key only when the key is there. *)
Definition display_grammar (self : GrammarProcessor) : str :=
  py "Grammar Productions:" ++ newline
  ++ repeat "="%char 20 ++ newline
  ++ concat (map (fun nt =>
                    match productions self !! nt with
                    | Some prods => nt ++ py " -> " ++ join (py " | ") prods ++ newline
                    | None => []
                    end)
                 (sorted (non_terminals self)))
  ++ newline ++ py "Start Symbol: "
  ++ match start_symbol self with Some start => start | None => py "None" end
  ++ newline
  ++ py "Terminals: {" ++ join (py ", ") (sorted (terminals self)) ++ py "}" ++ newline
  ++ py "Non-terminals: {" ++ join (py ", ") (sorted (non_terminals self)) ++ py "}"
  ++ newline.

(** ** The grammars used below *)

Definition example_text : string := "
        S -> aB | bA
        A -> a | aS | bAA
        B -> b | bS | aBB
        ".

(** What [parse_grammar] builds from the example of [main]:
    [S -> aB | bA], [A -> a | aS | bAA], [B -> b | bS | aBB]. *)
Definition example_grammar : GrammarProcessor :=
  {| productions :=
       <[py "S" := [py "aB"; py "bA"]]>
       (<[py "A" := [py "a"; py "aS"; py "bAA"]]>
       (<[py "B" := [py "b"; py "bS"; py "aBB"]]> ∅));
     terminals := {[py "a"; py "b"]};
     non_terminals := {[py "S"; py "A"; py "B"]};
     start_symbol := Some (py "S") |}.

(** What [parse_grammar] builds from the one line [S -> aB]: [B] is a
    non-terminal with no production of its own. *)
Definition undefined_B_grammar : GrammarProcessor :=
  {| productions := {[ py "S" := [py "aB"] ]};
     terminals := {[py "a"]};
     non_terminals := {[py "S"; py "B"]};
     start_symbol := Some (py "S") |}.

(** What [parse_grammar] builds from the one line
    [SSSSSSSSSSSSSSSSSSSSS -> a], whose left-hand side has 21 characters. *)
Definition long_start_grammar : GrammarProcessor :=
  {| productions := {[ py "SSSSSSSSSSSSSSSSSSSSS" := [py "a"] ]};
     terminals := {[py "a"]};
     non_terminals := {[py "SSSSSSSSSSSSSSSSSSSSS"]};
     start_symbol := Some (py "SSSSSSSSSSSSSSSSSSSSS") |}.

Definition erasing_text : string := "S -> AB
A -> a
B ->".

(** What [parse_grammar] builds from the three lines [S -> AB], [A -> a] and
    [B ->]: the right-hand side of [B] is the empty string. *)
Definition erasing_grammar : GrammarProcessor :=
  {| productions :=
       <[py "S" := [py "AB"]]> (<[py "A" := [py "a"]]> (<[py "B" := [py ""]]> ∅));
     terminals := {[py "a"]};
     non_terminals := {[py "S"; py "A"; py "B"]};
     start_symbol := Some (py "S") |}.

(** All strings of [n] characters over [a] and [b], those that start with [a]
    first. *)
Fixpoint binary_words (n : nat) : list str :=
  match n with
  | O => [[]]
  | S n' => map (cons "a"%char) (binary_words n') ++ map (cons "b"%char) (binary_words n')
  end.

(** The processor of a grammar whose only productions are the alternatives
    [alts] of [S], strings over [a] and [b]. *)
Definition wide_grammar_of (alts : list str) : GrammarProcessor :=
  {| productions := {[ py "S" := alts ]};
     terminals := {[py "a"; py "b"]};
     non_terminals := {[py "S"]};
     start_symbol := Some (py "S") |}.

(** The one line [S -> w1 | w2 | ...] of such a grammar. *)
Definition wide_text (alts : list str) : str := py "S -> " ++ join (py " | ") alts.

(** The processor of the one-line grammar that gives [S] the 16384 strings of
    14 characters over [a] and [b] as alternatives. *)
Definition wide_grammar : GrammarProcessor := wide_grammar_of (binary_words 14).

(** * Properties *)

(** ** The expander *)

Abbreviation expansions self current := (fst (_get_expansions self current)).

(** One leftmost rewriting step of the grammar: the first character that is a
    non-terminal is replaced by one of its right-hand sides. *)
Inductive lstep (self : GrammarProcessor) : str → str → Prop :=
| lstep_intro prefix c suffix rhs :
    Forall (fun x => [x] ∉ non_terminals self) prefix →
    [c] ∈ non_terminals self →
    rhs ∈ rules self [c] →
    lstep self (prefix ++ c :: suffix) (prefix ++ rhs ++ suffix).

(** Two processors that every search reads alike: same alphabets, same start
    symbol, same productions under every key. *)
Definition same_view (g self : GrammarProcessor) : Prop :=
  terminals self = terminals g ∧
  non_terminals self = non_terminals g ∧
  start_symbol self = start_symbol g ∧
  ∀ key, rules self key = rules g key.

Lemma same_view_refl g : same_view g g.
Proof. by repeat split. Qed.

Lemma defaultdict_getitem_fst d key :
  fst (defaultdict_getitem d key) = default [] (d !! key).
Proof. unfold defaultdict_getitem. by destruct (d !! key). Qed.

Lemma defaultdict_getitem_snd d key key' :
  default [] (snd (defaultdict_getitem d key) !! key') = default [] (d !! key').
Proof.
  unfold defaultdict_getitem. destruct (d !! key) eqn:E; simpl; [done|].
  destruct (decide (key = key')) as [->|Hne].
  - by rewrite lookup_insert_eq, E.
  - by rewrite lookup_insert_ne.
Qed.

Lemma first_non_terminal_None nts s i :
  first_non_terminal nts s i = None ↔ Forall (fun x => [x] ∉ nts) s.
Proof.
  revert i. induction s as [|c s IH]; intros i; simpl.
  - split; [constructor | done].
  - case_bool_decide as Hc.
    + split; [done|]. intros H. inversion H; subst. done.
    + rewrite IH. split; [by constructor|]. intros H. by inversion H.
Qed.

Lemma first_non_terminal_at nts prefix c suffix i :
  Forall (fun x => [x] ∉ nts) prefix → [c] ∈ nts →
  first_non_terminal nts (prefix ++ c :: suffix) i = Some (i + length prefix, c).
Proof.
  revert i. induction prefix as [|a prefix IH]; intros i Hp Hc; simpl.
  - rewrite bool_decide_eq_true_2 by done. f_equal. f_equal. lia.
  - inversion Hp; subst. rewrite bool_decide_eq_false_2 by done.
    rewrite IH by done. f_equal. f_equal. lia.
Qed.

(** The list of expansions is the one of the specification's wording. *)
Lemma expansions_spec self s : expansions self s = expand_leftmost_spec self s.
Proof.
  unfold _get_expansions.
  assert (∀ s i prefix, length prefix = i →
    match first_non_terminal (non_terminals self) s i with
    | None => expand_leftmost_spec self s = []
    | Some (j, c) =>
        map (fun production => take j (prefix ++ s) ++ production ++ drop (S j) (prefix ++ s))
            (rules self [c])
        = map (app prefix) (expand_leftmost_spec self s)
    end) as Hgen.
  { clear s. induction s as [|a s IH]; intros i prefix Hi; simpl; [done|].
    case_bool_decide as Ha.
    - rewrite map_map. apply map_ext. intros rhs.
      rewrite take_app_length' by done.
      replace (prefix ++ a :: s) with ((prefix ++ [a]) ++ s)
        by (by rewrite <- (assoc_L (++))).
      by rewrite drop_app_length' by (rewrite length_app; simpl; lia).
    - specialize (IH (S i) (prefix ++ [a])).
      rewrite length_app in IH. simpl in IH. specialize (IH ltac:(lia)).
      destruct (first_non_terminal (non_terminals self) s (S i)) as [[j c]|].
      + rewrite <- (assoc_L (++)) in IH. simpl in IH. rewrite IH.
        rewrite map_map. apply map_ext. intros e. by rewrite <- (assoc_L (++)).
      + by rewrite IH. }
  specialize (Hgen s O [] eq_refl).
  destruct (first_non_terminal (non_terminals self) s 0) as [[j c]|]; simpl.
  - pose proof (defaultdict_getitem_fst (productions self) [c]) as Hf.
    destruct (defaultdict_getitem (productions self) [c]) as [prods d]. simpl in *.
    subst prods. fold (rules self [c]). rewrite Hgen.
    rewrite <- (map_id (expand_leftmost_spec self s)) at 2. by apply map_ext.
  - done.
Qed.

Lemma expand_leftmost_spec_view g self s :
  same_view g self → expand_leftmost_spec self s = expand_leftmost_spec g s.
Proof.
  intros (_ & Hn & _ & Hr). induction s as [|c s IH]; simpl; [done|].
  by rewrite Hn, Hr, IH.
Qed.

Lemma expansions_view g self s :
  same_view g self → expansions self s = expansions g s.
Proof. intros H. rewrite !expansions_spec. by apply expand_leftmost_spec_view. Qed.

Lemma get_expansions_view g self s :
  same_view g self → same_view g (snd (_get_expansions self s)).
Proof.
  intros (Ht & Hn & Hs & Hr). unfold _get_expansions.
  destruct (first_non_terminal (non_terminals self) s 0) as [[j c]|]; simpl; [|done].
  pose proof (defaultdict_getitem_snd (productions self) [c]) as Hd.
  destruct (defaultdict_getitem (productions self) [c]) as [prods d]. simpl in *.
  repeat split; try done. intros key. unfold rules at 1. simpl.
  rewrite Hd. apply Hr.
Qed.

Lemma expand_leftmost_spec_lstep self s e :
  e ∈ expand_leftmost_spec self s ↔ lstep self s e.
Proof.
  split.
  - revert e. induction s as [|c s IH]; intros e; simpl; [by intros ?%elem_of_nil|].
    case_bool_decide as Hc.
    + intros (rhs & -> & Hrhs)%list_elem_of_fmap.
      by apply (lstep_intro self [] c s rhs).
    + intros (e' & -> & He')%list_elem_of_fmap.
      destruct (IH _ He') as [prefix c' suffix rhs Hp Hc' Hrhs].
      apply (lstep_intro self (c :: prefix) c' suffix rhs); [by constructor|done..].
  - intros [prefix c suffix rhs Hp Hc Hrhs].
    induction Hp as [|a prefix Ha Hp IH]; simpl.
    + rewrite bool_decide_eq_true_2 by done.
      apply list_elem_of_fmap. by exists rhs.
    + rewrite bool_decide_eq_false_2 by done.
      apply list_elem_of_fmap. exists (prefix ++ rhs ++ suffix). by split.
Qed.

Lemma expansions_lstep self s e : e ∈ expansions self s ↔ lstep self s e.
Proof. rewrite expansions_spec. apply expand_leftmost_spec_lstep. Qed.

(** A form with no non-terminal has no expansion. *)
Lemma expansions_none self s :
  Forall (fun x => [x] ∉ non_terminals self) s → expansions self s = [].
Proof.
  intros Hs. unfold _get_expansions.
  apply (first_non_terminal_None _ s 0) in Hs. by rewrite Hs.
Qed.

(** A form whose first non-terminal is [c] expands at [c], by the right-hand
    sides stored for [c], in stored order. *)
Lemma expansions_at self prefix c suffix :
  Forall (fun x => [x] ∉ non_terminals self) prefix →
  [c] ∈ non_terminals self →
  expansions self (prefix ++ c :: suffix)
  = map (fun rhs => prefix ++ rhs ++ suffix) (rules self [c]).
Proof.
  intros Hp Hc. unfold _get_expansions.
  rewrite (first_non_terminal_at _ prefix c suffix 0) by done. simpl.
  pose proof (defaultdict_getitem_fst (productions self) [c]) as Hf.
  destruct (defaultdict_getitem (productions self) [c]) as [prods d]. simpl in *.
  subst prods. fold (rules self [c]). apply map_ext. intros rhs.
  rewrite take_app_length.
  replace (prefix ++ c :: suffix) with ((prefix ++ [c]) ++ suffix)
    by (by rewrite <- (assoc_L (++))).
  by rewrite drop_app_length' by (rewrite length_app; simpl; lia).
Qed.

(** ** Loops under fuel *)

Section Run.
Context {St R : Type} (step : St → St + outcome R).

(** A result obtained with some fuel is the result with any larger fuel. *)
Lemma run_fuel_mono fuel fuel' st :
  run fuel step st ≠ OutOfFuel → fuel ≤ fuel' →
  run fuel' step st = run fuel step st.
Proof.
  revert fuel' st. induction fuel as [|fuel IH]; intros fuel' st Hr Hle; [done|].
  destruct fuel' as [|fuel']; [lia|]. simpl in *.
  destruct (step st); [|done]. apply IH; [done | lia].
Qed.

(** Total correctness from an invariant and a measure that every pass
    decreases. *)
Lemma run_measure (Inv : St → Prop) (mu : St → nat) (Post : outcome R → Prop) :
  (∀ st, Inv st →
     match step st with inl st' => Inv st' ∧ mu st' < mu st | inr r => Post r end) →
  ∀ fuel st, Inv st → mu st < fuel → Post (run fuel step st).
Proof.
  intros Hstep. induction fuel as [|fuel IH]; intros st Hst Hmu; simpl; [lia|].
  specialize (Hstep st Hst). destruct (step st); [|done].
  destruct Hstep. apply IH; [done | lia].
Qed.

(** An invariant holds after any number of passes. *)
Lemma passes_invariant (Inv : St → Prop) :
  (∀ st st', Inv st → step st = inl st' → Inv st') →
  ∀ n st st', Inv st → passes n step st = Some st' → Inv st'.
Proof.
  intros Hstep. induction n as [|n IH]; intros st st' Hst; simpl.
  - by intros [= <-].
  - destruct (step st) eqn:E; [|done]. apply IH. by apply (Hstep st).
Qed.
(** A run that ends does so after some number of passes, in a state whose
    pass leaves the loop. *)
Lemma run_passes_end fuel st r :
  run fuel step st = r → r ≠ OutOfFuel →
  ∃ n st', passes n step st = Some st' ∧ step st' = inr r.
Proof.
  revert st. induction fuel as [|fuel IH]; intros st; simpl; [congruence|].
  destruct (step st) as [st1|r1] eqn:E.
  - intros Hr Hne. destruct (IH st1 Hr Hne) as (n & st' & Hp & Hend).
    exists (S n), st'. simpl. by rewrite E.
  - intros -> _. by exists 0, st.
Qed.
End Run.

(** [f] returns [a]: it does so with every sufficiently large fuel. *)
Definition returns {A : Type} (f : nat → outcome A) (a : A) : Prop :=
  ∃ fuel, ∀ fuel', fuel ≤ fuel' → f fuel' = Returned a.

Lemma returns_unique {A : Type} (f : nat → outcome A) a b fuel :
  returns f a → f fuel = Returned b →
  (∀ n m, f n ≠ OutOfFuel → n ≤ m → f m = f n) → a = b.
Proof.
  intros [n Hn] Hb Hmono.
  specialize (Hn (max n fuel) ltac:(lia)).
  rewrite (Hmono fuel (max n fuel)) in Hn; [congruence | congruence | lia].
Qed.

(** ** Enqueuing expansions *)

Lemma enqueue_spec keep es q v :
  ∃ new, enqueue keep es q v = (q ++ new, list_to_set new ∪ v) ∧
    NoDup new ∧
    (∀ x, x ∈ new → (x ∉ v) ∧ x ∈ es ∧ keep x = true) ∧
    (∀ e, e ∈ es → keep e = true → e ∈ list_to_set (C := gset str) new ∪ v).
Proof.
  revert q v. induction es as [|e es IH]; intros q v; simpl.
  - exists []. rewrite app_nil_r. simpl.
    split; [f_equal; set_solver|]. split; [constructor|].
    split; by intros ? ?%elem_of_nil.
  - destruct (bool_decide (e ∉ v) && keep e) eqn:E.
    + apply andb_true_iff in E as [He%bool_decide_eq_true Hk].
      destruct (IH (q ++ [e]) ({[e]} ∪ v)) as (new & -> & Hnd & Hnew & Hall).
      exists (e :: new). rewrite <- (assoc_L (++)). simpl.
      split; [f_equal; set_solver|]. split; [|split].
      * constructor; [|done]. intros Hin. destruct (Hnew _ Hin) as [Hv _]. set_solver.
      * intros x [->|Hx]%elem_of_cons; [by repeat split; [|left|]|].
        destruct (Hnew _ Hx) as (Hv & ? & ?).
        split; [set_solver|]. split; [by right | done].
      * intros e' [->|He']%elem_of_cons Hk'; [set_solver|].
        specialize (Hall _ He' Hk'). set_solver.
    + destruct (IH q v) as (new & -> & Hnd & Hnew & Hall).
      exists new. split; [done|]. split; [done|]. split.
      * intros x Hx. destruct (Hnew _ Hx) as (Hv & ? & ?).
        split; [done|]. split; [by right | done].
      * intros e' [->|He']%elem_of_cons Hk'; [|by apply Hall].
        apply andb_false_iff in E as [E|E]; [|congruence].
        apply bool_decide_eq_false in E. apply dec_stable in E. set_solver.
Qed.

(** What [expand] does to a search whose processor reads like [g]. *)
Lemma expand_spec g keep self current rest v :
  same_view g self →
  ∃ self' new,
    expand keep self current rest v = mkSearch self' (rest ++ new) (list_to_set new ∪ v) ∧
    same_view g self' ∧ NoDup new ∧
    (∀ x, x ∈ new → (x ∉ v) ∧ lstep g current x ∧ keep x = true) ∧
    (∀ e, lstep g current e → keep e = true →
          e ∈ list_to_set (C := gset str) new ∪ v).
Proof.
  intros Hview. unfold expand.
  pose proof (expansions_view g self current Hview) as He.
  pose proof (get_expansions_view g self current Hview) as Hs.
  destruct (_get_expansions self current) as [es self']. simpl in *.
  destruct (enqueue_spec keep es rest v) as (new & -> & Hnd & Hnew & Hall).
  exists self', new. split; [done|]. split; [done|]. split; [done|]. split.
  - intros x Hx. destruct (Hnew _ Hx) as (? & Hes & ?).
    split; [done|]. split; [|done]. apply expansions_lstep. by rewrite <- He.
  - intros e Hl Hk. apply Hall; [|done]. rewrite He. by apply expansions_lstep.
Qed.

(** ** Invariant of a search: what is queued has been visited, and every
    visited form satisfies [P]. *)

Definition search_inv (g : GrammarProcessor) (P : str → Prop) (s : search) : Prop :=
  same_view g (self_of s) ∧
  (∀ x, x ∈ queue s → x ∈ visited s) ∧
  (∀ x, x ∈ visited s → P x).

Lemma search_inv_init g self P start :
  same_view g self → P start → search_inv g P (mkSearch self [start] {[start]}).
Proof.
  intros Hv HP. split; [done|]. simpl. split.
  - intros x ->%list_elem_of_singleton. set_solver.
  - intros x ->%elem_of_singleton. done.
Qed.

Lemma search_inv_pop g P self current rest v :
  search_inv g P (mkSearch self (current :: rest) v) →
  search_inv g P (mkSearch self rest v).
Proof.
  intros (Hv & Hq & HP). repeat split; try apply Hv; simpl in *; [|done].
  intros x Hx. apply Hq. by right.
Qed.

Lemma search_inv_head g P self current rest v :
  search_inv g P (mkSearch self (current :: rest) v) → P current.
Proof. intros (_ & Hq & HP). apply HP, Hq. simpl. by left. Qed.

Lemma search_inv_expand g P keep self current rest v :
  search_inv g P (mkSearch self (current :: rest) v) →
  (∀ e, lstep g current e → keep e = true → P e) →
  search_inv g P (expand keep self current rest v).
Proof.
  intros (Hv & Hq & HP) Hclosed. simpl in *.
  destruct (expand_spec g keep self current rest v Hv)
    as (self' & new & -> & Hv' & _ & Hnew & _).
  split; [done|]. simpl. split.
  - intros x [Hx|Hx]%elem_of_app.
    + apply elem_of_union_r, Hq. by right.
    + apply elem_of_union_l. by apply elem_of_list_to_set.
  - intros x [Hx%elem_of_list_to_set|Hx]%elem_of_union; [|by apply HP].
    destruct (Hnew _ Hx) as (_ & ? & ?). by apply Hclosed.
Qed.

(** ** Termination measure: the forms not yet visited, plus the queue *)

Definition slack (U : gset str) (s : search) : nat :=
  size U + length (queue s) - size (visited s).

Lemma slack_pop U self current rest v :
  v ⊆ U → slack U (mkSearch self rest v) < slack U (mkSearch self (current :: rest) v).
Proof.
  intros Hsub%subseteq_size. unfold slack. simpl. lia.
Qed.

Lemma slack_expand g U keep self current rest v :
  search_inv g (fun x => x ∈ U) (mkSearch self (current :: rest) v) →
  (∀ e, lstep g current e → keep e = true → e ∈ U) →
  slack U (expand keep self current rest v)
  < slack U (mkSearch self (current :: rest) v).
Proof.
  intros Hinv Hclosed.
  pose proof (search_inv_expand _ _ keep _ _ _ _ Hinv Hclosed) as (_ & _ & HU').
  destruct Hinv as (Hv & _ & HU).
  destruct (expand_spec g keep self current rest v Hv)
    as (self' & new & Heq & _ & Hnd & Hnew & _).
  rewrite Heq in *. unfold slack. simpl in *.
  assert (list_to_set (C := gset str) new ## v) as Hdisj.
  { intros x Hx%elem_of_list_to_set Hxv. by destruct (Hnew _ Hx). }
  rewrite size_union by done. rewrite size_list_to_set by done.
  assert (size (list_to_set (C := gset str) new ∪ v) ≤ size U) as Hle.
  { apply subseteq_size. intros x Hx. by apply HU'. }
  rewrite size_union, size_list_to_set in Hle by done.
  rewrite length_app. lia.
Qed.

(** ** The finitely many forms a bounded search can meet *)

(** Every character a derivation can produce: those of the start symbol and
    of the stored right-hand sides. *)
Definition alphabet (g : GrammarProcessor) : list ascii :=
  default [] (start_symbol g) ++ concat (concat (map snd (map_to_list (productions g)))).

Fixpoint all_strings (sigma : list ascii) (n : nat) : list str :=
  match n with
  | O => [[]]
  | S n' => [] :: flat_map (fun s => map (fun c => c :: s) sigma) (all_strings sigma n')
  end.

Definition universe (g : GrammarProcessor) (n : nat) : gset str :=
  list_to_set (default [] (start_symbol g) :: all_strings (alphabet g) n).

(** A form over the grammar's alphabet that is the start symbol or has at
    most [n] characters. *)
Definition bounded (g : GrammarProcessor) (n : nat) (x : str) : Prop :=
  Forall (fun c => c ∈ alphabet g) x ∧ (start_symbol g = Some x ∨ length x ≤ n).

Lemma all_strings_complete sigma n s :
  Forall (fun c => c ∈ sigma) s → length s ≤ n → s ∈ all_strings sigma n.
Proof.
  revert s. induction n as [|n IH]; intros s Hs Hn.
  - destruct s; [|simpl in Hn; lia]. simpl. by left.
  - destruct s as [|c s]; simpl; [by left|]. right.
    inversion Hs; subst. simpl in Hn.
    apply list_elem_of_In, in_flat_map. exists s. split.
    + apply list_elem_of_In, IH; [done | lia].
    + apply list_elem_of_In, list_elem_of_fmap. by exists c.
Qed.

Lemma bounded_universe g n x : bounded g n x → x ∈ universe g n.
Proof.
  intros [Hx [Hs|Hn]]; unfold universe; apply elem_of_list_to_set.
  - rewrite Hs. simpl. by left.
  - right. by apply all_strings_complete.
Qed.

Lemma bounded_start g n start : start_symbol g = Some start → bounded g n start.
Proof.
  intros Hs. split; [|by left]. apply Forall_forall. intros c Hc.
  unfold alphabet. rewrite Hs. simpl. apply elem_of_app. by left.
Qed.

Lemma elem_of_concat {A} (x : A) (ls : list (list A)) :
  x ∈ concat ls ↔ ∃ l, x ∈ l ∧ l ∈ ls.
Proof.
  rewrite list_elem_of_In, in_concat. split.
  - intros (l & Hl & Hx). exists l. by rewrite !list_elem_of_In.
  - intros (l & Hx & Hl). exists l. by rewrite <- !list_elem_of_In.
Qed.

Lemma rules_alphabet g key rhs c :
  rhs ∈ rules g key → c ∈ rhs → c ∈ alphabet g.
Proof.
  unfold rules. destruct (productions g !! key) as [l|] eqn:E; simpl;
    [|by intros ?%elem_of_nil].
  intros Hrhs Hc. unfold alphabet. apply elem_of_app. right.
  apply elem_of_concat. exists rhs. split; [done|].
  apply elem_of_concat. exists l. split; [done|].
  apply list_elem_of_fmap. exists (key, l). split; [done|].
  by apply elem_of_map_to_list.
Qed.

Lemma length_le_concat {A} (x : list A) (l : list (list A)) :
  x ∈ l → length x ≤ length (concat l).
Proof.
  induction l as [|y l IH]; [by intros ?%elem_of_nil|].
  simpl. rewrite length_app. intros [->|Hx]%elem_of_cons; [lia|].
  specialize (IH Hx). lia.
Qed.

Lemma rules_length g key rhs : rhs ∈ rules g key → length rhs ≤ length (alphabet g).
Proof.
  unfold rules. destruct (productions g !! key) as [l|] eqn:E; simpl;
    [|by intros ?%elem_of_nil].
  intros Hrhs. unfold alphabet. rewrite length_app.
  pose proof (length_le_concat rhs _ Hrhs) as H1.
  assert (l ∈ map snd (map_to_list (productions g))) as Hl.
  { apply list_elem_of_fmap. exists (key, l). split; [done|].
    by apply elem_of_map_to_list. }
  pose proof (length_le_concat l _ Hl) as H2.
  assert (length (concat l)
          ≤ length (concat (concat (map snd (map_to_list (productions g)))))) as H3.
  { clear -Hl. induction (map snd (map_to_list (productions g))) as [|y ys IH];
      [by apply elem_of_nil in Hl|].
    simpl. rewrite concat_app, length_app.
    apply elem_of_cons in Hl as [->|Hl]; [lia|]. specialize (IH Hl). lia. }
  lia.
Qed.

Lemma lstep_alphabet g s e :
  lstep g s e → Forall (fun c => c ∈ alphabet g) s → Forall (fun c => c ∈ alphabet g) e.
Proof.
  intros [prefix c suffix rhs _ _ Hrhs] Hs.
  apply Forall_app in Hs as [Hp Hs]. inversion Hs; subst.
  apply Forall_app. split; [done|]. apply Forall_app. split; [|done].
  apply Forall_forall. intros x Hx. by eapply rules_alphabet.
Qed.

Lemma lstep_length g s e :
  lstep g s e → ∃ rhs key, rhs ∈ rules g key ∧ length e + 1 = length s + length rhs.
Proof.
  intros [prefix c suffix rhs _ _ Hrhs]. exists rhs, [c]. split; [done|].
  rewrite !length_app. simpl. lia.
Qed.

Lemma is_terminal_string_view g self s :
  same_view g self → _is_terminal_string self s = _is_terminal_string g s.
Proof. intros (Ht & _). unfold _is_terminal_string. by rewrite Ht. Qed.

Lemma is_terminal_string_spec g s :
  _is_terminal_string g s = true ↔ Forall (fun c => [c] ∈ terminals g) s.
Proof.
  unfold _is_terminal_string. rewrite forallb_forall, Forall_forall.
  split; intros H c Hc.
  - specialize (H c (proj1 (list_elem_of_In _ _) Hc)).
    apply orb_true_iff in H as [H|H]; apply bool_decide_eq_true in H; done.
  - apply orb_true_iff. left. apply bool_decide_eq_true, H. by apply list_elem_of_In.
Qed.

Lemma search_inv_mono g (P Q : str → Prop) s :
  (∀ x, P x → Q x) → search_inv g P s → search_inv g Q s.
Proof. intros HPQ (Hv & Hq & HP). repeat split; try apply Hv; auto. Qed.

(** ** The order used by [sorted] *)

Lemma str_leb_trans s t u : str_leb s t = true → str_leb t u = true → str_leb s u = true.
Proof.
  revert t u. induction s as [|a s IH]; intros [|b t] [|c u]; simpl; try done.
  destruct (N.ltb_spec (N_of_ascii a) (N_of_ascii b)),
           (N.ltb_spec (N_of_ascii b) (N_of_ascii c)),
           (N.ltb_spec (N_of_ascii a) (N_of_ascii c)),
           (N.eqb_spec (N_of_ascii a) (N_of_ascii b)),
           (N.eqb_spec (N_of_ascii b) (N_of_ascii c)),
           (N.eqb_spec (N_of_ascii a) (N_of_ascii c)); try done; try lia.
  apply IH.
Qed.

Lemma str_leb_total s t : str_leb s t = true ∨ str_leb t s = true.
Proof.
  revert t. induction s as [|a s IH]; intros [|b t]; simpl; auto.
  destruct (N.ltb_spec (N_of_ascii a) (N_of_ascii b)),
           (N.ltb_spec (N_of_ascii b) (N_of_ascii a)),
           (N.eqb_spec (N_of_ascii a) (N_of_ascii b)),
           (N.eqb_spec (N_of_ascii b) (N_of_ascii a)); auto; lia.
Qed.

#[global] Instance str_le_trans : Transitive str_le.
Proof. intros s t u. apply str_leb_trans. Qed.

#[global] Instance str_le_total : Total str_le.
Proof. intros s t. apply str_leb_total. Qed.

Lemma str_leb_antisym s t : str_leb s t = true → str_leb t s = true → s = t.
Proof.
  revert t. induction s as [|a s IH]; intros [|b t]; simpl; try done.
  destruct (N.ltb_spec (N_of_ascii a) (N_of_ascii b)),
           (N.ltb_spec (N_of_ascii b) (N_of_ascii a)),
           (N.eqb_spec (N_of_ascii a) (N_of_ascii b)),
           (N.eqb_spec (N_of_ascii b) (N_of_ascii a)); try done; try lia.
  intros Hst Hts. f_equal; [|by apply IH].
  rewrite <- (ascii_N_embedding a), <- (ascii_N_embedding b). by f_equal.
Qed.

#[global] Instance str_le_antisym : AntiSymm eq str_le.
Proof. intros s t. apply str_leb_antisym. Qed.

(** Any ascending arrangement of the elements of [words] is [sorted words]:
    the result of [sorted(list(words))] whatever order the set is listed in
    and whatever the sorting algorithm. *)
Lemma sorted_unique words ws :
  Sorted str_le ws → ws ≡ₚ elements words → ws = sorted words.
Proof.
  intros Hsorted Hperm.
  apply (Sorted_unique str_le); [done | apply Sorted_merge_sort; apply _ |].
  unfold sorted. by rewrite merge_sort_Permutation.
Qed.

Lemma sorted_elem_of words w : w ∈ sorted words ↔ w ∈ words.
Proof.
  unfold sorted. rewrite (merge_sort_Permutation str_le (elements words)).
  apply elem_of_elements.
Qed.

Lemma sorted_NoDup words : NoDup (sorted words).
Proof.
  unfold sorted. rewrite (merge_sort_Permutation str_le (elements words)).
  apply NoDup_elements.
Qed.

Lemma sorted_length words : length (sorted words) = size words.
Proof.
  unfold sorted. by rewrite (merge_sort_Permutation str_le (elements words)).
Qed.

Lemma sorted_StronglySorted words : StronglySorted str_le (sorted words).
Proof. apply StronglySorted_merge_sort; apply _. Qed.

(** ** The generator *)

Section Generate.
Context (g : GrammarProcessor) (max_length max_words : Z).

(** A property of forms that the generator's expansions preserve. *)
Definition gen_closed (P : str → Prop) : Prop :=
  ∀ s e, P s → _is_terminal_string g s = false → (len s ≤ max_length)%Z →
         lstep g s e → (len e ≤ max_length * 2)%Z → P e.

(** What the generator checks before it records a word. *)
Definition word_ok (w : str) : Prop :=
  Forall (fun c => [c] ∈ terminals g) w ∧ (len w ≤ max_length)%Z ∧ w ≠ [].

Definition gen_inv (P : str → Prop) (st : gen_state) : Prop :=
  search_inv g P (gen_search st) ∧
  (∀ w, w ∈ generated_words st → P w ∧ word_ok w) ∧
  (Z.of_nat (size (generated_words st)) ≤ Z.max 0 max_words)%Z.

Definition gen_post (P : str → Prop) (r : outcome (list str * GrammarProcessor))
  : Prop :=
  ∃ ws self', r = Returned (ws, self') ∧ same_view g self' ∧
    StronglySorted str_le ws ∧ NoDup ws ∧
    (Z.of_nat (length ws) ≤ Z.max 0 max_words)%Z ∧
    (∀ w, w ∈ ws → P w ∧ word_ok w).

Lemma gen_inv_post P self q v words :
  gen_inv P (mkGen (mkSearch self q v) words) →
  gen_post P (Returned (sorted words, self)).
Proof.
  intros ((Hv & _) & Hw & Hsz). simpl in *. exists (sorted words), self.
  split; [done|]. split; [done|]. split; [apply sorted_StronglySorted|].
  split; [apply sorted_NoDup|]. rewrite sorted_length. split; [done|].
  intros w Hin%sorted_elem_of. by apply Hw.
Qed.

Lemma generate_step_ok P U :
  gen_closed P → (∀ x, P x → x ∈ U) →
  ∀ st, gen_inv P st →
    match generate_step max_length max_words st with
    | inl st' => gen_inv P st' ∧ slack U (gen_search st') < slack U (gen_search st)
    | inr r => gen_post P r
    end.
Proof.
  intros Hclosed HU [[self q v] words] Hinv. simpl.
  destruct q as [|current rest]; [by eapply gen_inv_post|].
  destruct (Z.ltb_spec (Z.of_nat (size words)) max_words) as [Hlt|Hge];
    [|by eapply gen_inv_post].
  destruct Hinv as (Hs & Hw & Hsz). simpl in *.
  assert (v ⊆ U) as HvU. { intros x Hx. apply HU. by apply Hs. }
  pose proof (search_inv_head _ _ _ _ _ _ Hs) as Hcur.
  pose proof (search_inv_pop _ _ _ _ _ _ Hs) as Hpop.
  rewrite (is_terminal_string_view g self) by apply Hs.
  destruct (_is_terminal_string g current) eqn:Hterm.
  - destruct ((len current <=? max_length)%Z && negb (bool_decide (current = [])))
      eqn:Hrec.
    + split; [|by apply slack_pop]. split; [done|]. simpl. split.
      * apply andb_true_iff in Hrec as [Hlen%Z.leb_le Hne%negb_true_iff].
        apply bool_decide_eq_false in Hne.
        intros w [->%elem_of_singleton|Hin]%elem_of_union; [|by apply Hw].
        split; [done|]. split; [by apply is_terminal_string_spec|done].
      * pose proof (size_union_alt {[current]} words) as Hsize.
        rewrite size_singleton in Hsize.
        assert (size (words ∖ {[current]}) ≤ size words)
          by (apply subseteq_size; set_solver).
        lia.
    + split; [|by apply slack_pop]. by split.
  - destruct (Z.ltb_spec max_length (len current)) as [Hlong|Hshort].
    + split; [|by apply slack_pop]. by split.
    + assert (∀ e, lstep g current e → (len e <=? max_length * 2)%Z = true → P e)
        as Hexp.
      { intros e He Hk%Z.leb_le. by apply (Hclosed current e). }
      split.
      * split; [by apply search_inv_expand|]. by split.
      * eapply slack_expand; [by eapply search_inv_mono|]. simpl.
        intros e He Hk. by apply HU, Hexp.
Qed.

(** The forms within reach of the generator are bounded. *)
Lemma gen_closed_bounded : gen_closed (bounded g (Z.to_nat (max_length * 2))).
Proof.
  intros s e [Hs _] _ _ He Hlen. split; [by eapply lstep_alphabet|].
  right. unfold len in Hlen. lia.
Qed.

Lemma gen_closed_and P Q :
  gen_closed P → gen_closed Q → gen_closed (fun x => P x ∧ Q x).
Proof. intros HP HQ s e [? ?] ? ? ? ?. split; [by eapply HP | by eapply HQ]. Qed.

Lemma generate_words_fuel_mono self fuel fuel' :
  generate_words fuel self max_length max_words ≠ OutOfFuel → fuel ≤ fuel' →
  generate_words fuel' self max_length max_words
  = generate_words fuel self max_length max_words.
Proof.
  unfold generate_words. destruct (start_symbol self) as [start|]; [|done].
  destruct (truthy (Some start)); [|done]. apply run_fuel_mono.
Qed.

(** Total correctness of [generate_words] on a processor [self] that reads
    like [g], for any property [P] of the start symbol that the generator's
    expansions preserve. *)
Lemma generate_words_total self P :
  same_view g self →
  gen_closed P → (∀ start, start_symbol g = Some start → P start) →
  ∃ ws self',
    returns (fun fuel => generate_words fuel self max_length max_words) (ws, self') ∧
    same_view g self' ∧ StronglySorted str_le ws ∧ NoDup ws ∧
    (Z.of_nat (length ws) ≤ Z.max 0 max_words)%Z ∧
    (∀ w, w ∈ ws → P w ∧ word_ok w).
Proof.
  intros Hself Hclosed Hstart. unfold returns, generate_words.
  destruct Hself as (Ht & Hn & Hst & Hr). rewrite Hst.
  assert (same_view g self) as Hself by done.
  destruct (start_symbol g) as [start|] eqn:Hs.
  2:{ exists [], self. split; [by exists 0|]. split; [done|].
      split; [constructor|]. split; [constructor|]. split; [simpl; lia|].
      by intros w ?%elem_of_nil. }
  destruct (truthy (Some start)).
  2:{ exists [], self. split; [by exists 0|]. split; [done|].
      split; [constructor|]. split; [constructor|]. split; [simpl; lia|].
      by intros w ?%elem_of_nil. }
  set (n := Z.to_nat (max_length * 2)).
  set (Q := fun x => bounded g n x ∧ P x).
  set (U := universe g n).
  set (st0 := mkGen (mkSearch self [start] {[start]}) ∅).
  assert (gen_inv Q st0) as Hinv.
  { split; [|split].
    - apply search_inv_init; [done|].
      split; [by apply bounded_start | by apply Hstart].
    - unfold st0. simpl. intros w Hw. set_solver.
    - unfold st0. cbn [generated_words]. rewrite size_empty. lia. }
  pose proof (run_measure (generate_step max_length max_words) (gen_inv Q)
    (fun st => slack U (gen_search st)) (gen_post Q)
    (generate_step_ok Q U
       (gen_closed_and _ _ gen_closed_bounded Hclosed)
       (fun x HQ => bounded_universe g n x (proj1 HQ)))) as Hrun.
  destruct (Hrun (S (slack U (gen_search st0))) st0 Hinv ltac:(lia))
    as (ws & self' & Hres & Hv & Hsorted & Hnd & Hlen & Hws).
  exists ws, self'. split.
  - exists (S (slack U (gen_search st0))). intros fuel' Hle.
    rewrite <- Hres. apply run_fuel_mono; [by rewrite Hres | done].
  - repeat split; try done; try apply Hv; by apply Hws.
Qed.

(** The same for whatever a run of [generate_words] returned. *)
Lemma generate_words_returned self P fuel ws self' :
  same_view g self →
  gen_closed P → (∀ start, start_symbol g = Some start → P start) →
  generate_words fuel self max_length max_words = Returned (ws, self') →
  same_view g self' ∧ StronglySorted str_le ws ∧ NoDup ws ∧
  (Z.of_nat (length ws) ≤ Z.max 0 max_words)%Z ∧
  (∀ w, w ∈ ws → P w ∧ word_ok w).
Proof.
  intros Hself Hclosed Hstart Hret.
  destruct (generate_words_total self P Hself Hclosed Hstart)
    as (ws0 & self0 & Hret0 & Hprops).
  assert ((ws0, self0) = (ws, self')) as [= -> ->]; [|done].
  eapply (returns_unique _ _ _ fuel Hret0 Hret).
  intros n m. apply generate_words_fuel_mono.
Qed.
End Generate.

(** ** The empty-string reachability search *)

Section CanProduceEmpty.
Context (g : GrammarProcessor).

(** A property of forms that the expansions accepted by
    [_can_produce_empty] preserve. *)
Definition empty_closed (P : str → Prop) : Prop :=
  ∀ s e, P s → s ≠ [] → _is_terminal_string g s = false →
         lstep g s e → (len e < 20)%Z → P e.

Definition empty_post (P : str → Prop) (r : outcome (bool * GrammarProcessor))
  : Prop :=
  ∃ b self', r = Returned (b, self') ∧ same_view g self' ∧ (b = true → P []).

Lemma empty_step_ok P U :
  empty_closed P → (∀ x, P x → x ∈ U) →
  ∀ st, search_inv g P st →
    match empty_step st with
    | inl st' => search_inv g P st' ∧ slack U st' < slack U st
    | inr r => empty_post P r
    end.
Proof.
  intros Hclosed HU [self q v] Hinv. simpl.
  destruct q as [|current rest].
  { exists false, self. split; [done|]. split; [apply Hinv | done]. }
  pose proof (search_inv_head _ _ _ _ _ _ Hinv) as Hcur.
  pose proof (search_inv_pop _ _ _ _ _ _ Hinv) as Hpop.
  assert (v ⊆ U) as HvU. { intros x Hx. apply HU. by apply Hinv. }
  case_bool_decide as Hnil.
  { subst current. exists true, self. split; [done|]. split; [apply Hinv | done]. }
  rewrite (is_terminal_string_view g self) by apply Hinv.
  destruct (_is_terminal_string g current) eqn:Hterm.
  - split; [done | by apply slack_pop].
  - assert (∀ e, lstep g current e → (len e <? 20)%Z = true → P e) as Hexp.
    { intros e He Hk%Z.ltb_lt. by apply (Hclosed current e). }
    split; [by apply search_inv_expand|].
    eapply slack_expand; [by eapply search_inv_mono|]. simpl.
    intros e He Hk. by apply HU, Hexp.
Qed.

Lemma empty_closed_bounded : empty_closed (bounded g 19).
Proof.
  intros s e [Hs _] _ _ He Hlen. split; [by eapply lstep_alphabet|].
  right. unfold len in Hlen. lia.
Qed.

Lemma empty_closed_and P Q :
  empty_closed P → empty_closed Q → empty_closed (fun x => P x ∧ Q x).
Proof. intros HP HQ s e [? ?] ? ? ? ?. split; [by eapply HP | by eapply HQ]. Qed.

Lemma can_produce_empty_fuel_mono self fuel fuel' :
  _can_produce_empty fuel self ≠ OutOfFuel → fuel ≤ fuel' →
  _can_produce_empty fuel' self = _can_produce_empty fuel self.
Proof.
  unfold _can_produce_empty. destruct (start_symbol self) as [start|]; [|done].
  apply run_fuel_mono.
Qed.

(** The search returns whenever there is a start symbol; it answers [True]
    only if the empty form satisfies every property that its expansions
    preserve. *)
Lemma can_produce_empty_total self P start :
  same_view g self → start_symbol g = Some start →
  empty_closed P → P start →
  ∃ b self',
    returns (fun fuel => _can_produce_empty fuel self) (b, self') ∧
    same_view g self' ∧ (b = true → P []).
Proof.
  intros Hself Hs Hclosed Hstart. unfold returns, _can_produce_empty.
  destruct Hself as (Ht & Hn & Hst & Hr). rewrite Hst, Hs.
  assert (same_view g self) as Hself by done.
  set (Q := fun x => bounded g 19 x ∧ P x).
  set (U := universe g 19).
  set (st0 := mkSearch self [start] {[start]}).
  assert (search_inv g Q st0) as Hinv.
  { apply search_inv_init; [done|]. split; [by apply bounded_start | done]. }
  pose proof (run_measure empty_step (search_inv g Q) (slack U) (empty_post Q)
    (empty_step_ok Q U (empty_closed_and _ _ empty_closed_bounded Hclosed)
       (fun x HQ => bounded_universe g 19 x (proj1 HQ)))) as Hrun.
  destruct (Hrun (S (slack U st0)) st0 Hinv ltac:(lia))
    as (b & self' & Hres & Hv & Hb).
  exists b, self'. split; [|split; [done|]].
  - exists (S (slack U st0)). intros fuel' Hle.
    rewrite <- Hres. apply run_fuel_mono; [by rewrite Hres | done].
  - intros ->. by apply Hb.
Qed.
(** After any number of passes every queued or visited form satisfies each
    property that the search's expansions preserve. *)
Lemma empty_passes_inv self P start n st :
  same_view g self → start_symbol g = Some start →
  empty_closed P → P start →
  passes n empty_step (mkSearch self [start] {[start]}) = Some st →
  search_inv g P st.
Proof.
  intros Hself Hs Hclosed Hstart Hp.
  set (Q := fun x => bounded g 19 x ∧ P x).
  apply (search_inv_mono g Q P); [by intros x [_ ?]|].
  apply (passes_invariant empty_step (search_inv g Q)) in Hp; [done| |].
  - intros st1 st2 Hinv Hstep.
    pose proof (empty_step_ok Q (universe g 19)
                  (empty_closed_and _ _ empty_closed_bounded Hclosed)
                  (fun x HQ => bounded_universe g 19 x (proj1 HQ)) st1 Hinv) as H.
    rewrite Hstep in H. apply H.
  - apply search_inv_init; [done|]. split; [by apply bounded_start | done].
Qed.
End CanProduceEmpty.

(** ** The membership search *)

Section BfsParse.
Context (g : GrammarProcessor) (cap : nat) (target : str).

(** A property of forms that the expansions made by [_bfs_parse] preserve. *)
Definition bfs_closed (P : str → Prop) : Prop :=
  ∀ s e, P s → s ≠ target → _is_terminal_string g s = false →
         (len s ≤ len target)%Z → lstep g s e → P e.

Definition bfs_post (P : str → Prop) (r : outcome (bool * GrammarProcessor))
  : Prop :=
  ∃ b self', r = Returned (b, self') ∧ same_view g self' ∧ (b = true → P target).

Lemma bfs_step_ok P :
  bfs_closed P →
  ∀ st, search_inv g P (bfs_search st) →
    match bfs_step cap target st with
    | inl st' => search_inv g P (bfs_search st') ∧
                 iterations st < cap ∧ iterations st' = S (iterations st)
    | inr r => bfs_post P r
    end.
Proof.
  intros Hclosed [[self q v] n] Hinv. simpl in *.
  destruct q as [|current rest].
  { exists false, self. split; [done|]. split; [apply Hinv | done]. }
  pose proof (search_inv_head _ _ _ _ _ _ Hinv) as Hcur.
  pose proof (search_inv_pop _ _ _ _ _ _ Hinv) as Hpop.
  destruct (Nat.ltb_spec n cap) as [Hlt|Hge].
  2:{ exists false, self. split; [done|]. split; [apply Hinv | done]. }
  case_bool_decide as Hfound.
  { subst current. exists true, self. split; [done|]. split; [apply Hinv | done]. }
  rewrite (is_terminal_string_view g self) by apply Hinv.
  destruct (_is_terminal_string g current) eqn:Hterm; [done|].
  destruct (Z.ltb_spec (len target) (len current)) as [Hlong|Hshort]; [done|].
  split; [|done]. apply search_inv_expand; [done|].
  intros e He _. by apply (Hclosed current e).
Qed.

(** [_bfs_parse] always returns; it answers [True] only if the target
    satisfies every property that its expansions preserve. *)
Lemma bfs_parse_total self P :
  same_view g self →
  bfs_closed P → (∀ start, start_symbol g = Some start → P start) →
  bfs_post P (_bfs_parse_capped cap self target).
Proof.
  intros Hself Hclosed Hstart. unfold _bfs_parse_capped.
  destruct Hself as (Ht & Hn & Hst & Hr). rewrite Hst.
  assert (same_view g self) as Hself by done.
  destruct (start_symbol g) as [start|] eqn:Hs.
  2:{ by exists false, self. }
  destruct (truthy (Some start)).
  2:{ by exists false, self. }
  apply (run_measure (bfs_step cap target)
           (fun st => search_inv g P (bfs_search st))
           (fun st => cap - iterations st) (bfs_post P)).
  - intros st Hinv. pose proof (bfs_step_ok P Hclosed st Hinv) as Hstep.
    destruct (bfs_step cap target st); [|done].
    destruct Hstep as (? & ? & ?). split; [done | lia].
  - apply search_inv_init; [done | by apply Hstart].
  - simpl. lia.
Qed.
End BfsParse.

(** The counter of [_bfs_parse] counts the passes and never exceeds the cap. *)
Lemma passes_bfs_iterations cap target n st st' :
  passes n (bfs_step cap target) st = Some st' →
  iterations st' = iterations st + n ∧ (n = 0 ∨ iterations st' ≤ cap).
Proof.
  revert st. induction n as [|n IH]; intros st; simpl.
  - intros [= <-]. split; [lia | by left].
  - destruct (bfs_step cap target st) as [st1|] eqn:E; [|done].
    intros Hp. destruct (IH _ Hp) as [Hit Hcap].
    assert (iterations st1 = S (iterations st) ∧ iterations st < cap) as [H1 H2].
    { destruct st as [[self q v] k]. simpl in E.
      destruct q as [|current rest]; [done|].
      destruct (Nat.ltb_spec k cap); [|done].
      destruct (bool_decide (current = target)); [done|].
      destruct (_is_terminal_string self current); [by injection E as <-|].
      destruct (len target <? len current)%Z; by injection E as <-. }
    split; [lia|]. right. destruct Hcap as [->|Hcap]; lia.
Qed.

(** ** Completeness of the membership search under a large enough cap *)

Section BfsComplete.
Context (g : GrammarProcessor) (cap : nat) (target : str).

(** The forms the membership search for [target] expands, and their
    expansions. *)
Inductive mem_reach : str → Prop :=
| mem_reach_start start : start_symbol g = Some start → mem_reach start
| mem_reach_step s e :
    mem_reach s → s ≠ target → _is_terminal_string g s = false →
    (len s ≤ len target)%Z → lstep g s e → mem_reach e.

(** Every visited form is still queued, or it was dequeued, was not the
    target, and its expansions (if it had to be expanded) are visited. *)
Definition frontier_closed (s : search) : Prop :=
  ∀ x, x ∈ visited s →
    x ∈ queue s ∨
    (x ≠ target ∧
     (_is_terminal_string g x = false → (len x ≤ len target)%Z →
      ∀ e, lstep g x e → e ∈ visited s)).

(** No form the search enqueues is longer than this: a form it expands is no
    longer than the target, and a right-hand side adds less than the whole
    alphabet listing. *)
Definition bfs_bound : nat := length target + length (alphabet g).
Definition bfs_universe : gset str := universe g bfs_bound.

Definition frontier_inv (st : bfs_state) : Prop :=
  search_inv g (bounded g bfs_bound) (bfs_search st) ∧
  (∀ start, start_symbol g = Some start → start ∈ visited (bfs_search st)) ∧
  frontier_closed (bfs_search st).

Definition complete_inv (st : bfs_state) : Prop :=
  frontier_inv st ∧ iterations st + slack bfs_universe (bfs_search st) ≤ size bfs_universe.

Lemma bfs_closed_bounded : bfs_closed g target (bounded g bfs_bound).
Proof.
  intros s e [Hs _] _ _ Hlen He. split; [by eapply lstep_alphabet|].
  right. destruct (lstep_length _ _ _ He) as (rhs & key & Hrhs & Heq).
  pose proof (rules_length _ _ _ Hrhs). unfold len in Hlen. unfold bfs_bound. lia.
Qed.

Lemma frontier_closed_exhausted self v x :
  (∀ start, start_symbol g = Some start → start ∈ v) →
  frontier_closed (mkSearch self [] v) → mem_reach x → x ∈ v.
Proof.
  intros Hstart Hfc. induction 1 as [start Hs|s e _ IH Hne Hterm Hlen He].
  - by apply Hstart.
  - destruct (Hfc s IH) as [Hq|[_ Hexp]]; [by apply elem_of_nil in Hq|].
    by apply (Hexp Hterm Hlen).
Qed.

Lemma frontier_closed_pop self current rest v :
  current ≠ target →
  (_is_terminal_string g current = true ∨ (len target < len current)%Z) →
  frontier_closed (mkSearch self (current :: rest) v) →
  frontier_closed (mkSearch self rest v).
Proof.
  intros Hne Hskip Hfc x Hx. destruct (Hfc x Hx) as [Hq|Hd]; [|by right].
  simpl in *. apply elem_of_cons in Hq as [->|Hq]; [|by left].
  right. split; [done|]. intros Hterm Hlen. destruct Hskip; [congruence | lia].
Qed.

(** One pass of the search for a reachable target: it goes on, one pass closer
    to exhausting the bounded forms, or it has found the target, or the cap
    stopped it. The queue cannot run empty. *)
Lemma bfs_frontier_step :
  mem_reach target →
  ∀ st, frontier_inv st →
    match bfs_step cap target st with
    | inl st' =>
        frontier_inv st' ∧
        slack bfs_universe (bfs_search st') < slack bfs_universe (bfs_search st) ∧
        iterations st' = S (iterations st)
    | inr r =>
        (∃ self', r = Returned (true, self') ∧ same_view g self') ∨
        (cap ≤ iterations st ∧ queue (bfs_search st) ≠ [])
    end.
Proof.
  intros Hreach [[self q v] n] (Hinv & Hstart & Hfc). simpl in *.
  assert (v ⊆ bfs_universe) as HvU.
  { intros x Hx. apply bounded_universe. by apply Hinv. }
  destruct q as [|current rest].
  { exfalso.
    pose proof (frontier_closed_exhausted self v target Hstart Hfc Hreach) as Hin.
    destruct (Hfc target Hin) as [Hq|[Hne _]]; [by apply elem_of_nil in Hq | done]. }
  pose proof (search_inv_pop _ _ _ _ _ _ Hinv) as Hpop.
  pose proof (slack_pop bfs_universe self current rest v HvU) as Hslack.
  destruct (Nat.ltb_spec n cap) as [Hlt|Hge].
  2:{ right. by split. }
  case_bool_decide as Hfound.
  { left. exists self. split; [done | apply Hinv]. }
  rewrite (is_terminal_string_view g self) by apply Hinv.
  destruct (_is_terminal_string g current) eqn:Hterm.
  { split; [|done]. split; [done|]. split; [done|].
    eapply frontier_closed_pop; [done | by left | done]. }
  destruct (Z.ltb_spec (len target) (len current)) as [Hlong|Hshort].
  { split; [|done]. split; [done|]. split; [done|].
    eapply frontier_closed_pop; [done | by right | done]. }
  assert (∀ e, lstep g current e → (fun _ : str => true) e = true →
               bounded g bfs_bound e) as Hexp.
  { intros e He _. apply (bfs_closed_bounded current e); try done.
    by eapply search_inv_head. }
  pose proof (search_inv_expand _ _ _ _ _ _ _ Hinv Hexp) as Hinv'.
  assert (slack bfs_universe (expand (fun _ => true) self current rest v)
          < slack bfs_universe (mkSearch self (current :: rest) v)) as Hslack'.
  { eapply slack_expand; [eapply search_inv_mono; [|done]; apply bounded_universe|].
    intros e He Hk. by apply bounded_universe, Hexp. }
  split; [|done]. split; [done|].
  destruct (expand_spec g (fun _ => true) self current rest v (proj1 Hinv))
    as (self' & new & Heq & _ & _ & _ & Hall).
  rewrite Heq in *. simpl in *. split.
  - intros start Hs. apply elem_of_union_r. by apply Hstart.
  - intros x [Hx%elem_of_list_to_set|Hx]%elem_of_union; simpl.
    { left. apply elem_of_app. by right. }
    destruct (Hfc x Hx) as [Hq|[Hne Hd]].
    + apply elem_of_cons in Hq as [->|Hq].
      * right. split; [done|]. intros _ _ e He. by apply Hall.
      * left. apply elem_of_app. by left.
    + right. split; [done|]. intros Ht Hl e He.
      apply elem_of_union_r. by apply Hd.
Qed.

Lemma bfs_complete_step :
  mem_reach target → size bfs_universe ≤ cap →
  ∀ st, complete_inv st →
    match bfs_step cap target st with
    | inl st' => complete_inv st' ∧
                 slack bfs_universe (bfs_search st') < slack bfs_universe (bfs_search st)
    | inr r => ∃ self', r = Returned (true, self') ∧ same_view g self'
    end.
Proof.
  intros Hreach Hcap st [Hinv Hbudget].
  pose proof (bfs_frontier_step Hreach st Hinv) as Hstep.
  destruct (bfs_step cap target st) as [st'|r].
  - destruct Hstep as (Hinv' & Hslack & Hit). split; [|done]. split; [done|]. lia.
  - destruct Hstep as [Hfound|[Hge Hq]]; [done|]. exfalso.
    destruct st as [[self q v] n]. simpl in *.
    assert (size v ≤ size bfs_universe) as Hv.
    { apply subseteq_size. intros x Hx. apply bounded_universe. by apply Hinv. }
    destruct q; [done|]. unfold slack in Hbudget. simpl in Hbudget. lia.
Qed.

(** A start symbol that is the empty string derives nothing else. *)
Lemma mem_reach_empty_start x : start_symbol g = Some [] → mem_reach x → x = [].
Proof.
  intros Hs. induction 1 as [start Hs'|s e _ -> _ _ _ He]; [congruence|].
  inversion He as [prefix c suffix rhs _ _ _ Heq]. by destruct prefix.
Qed.

Lemma mem_reach_has_start x : mem_reach x → start_symbol g ≠ None.
Proof. induction 1; [congruence | done]. Qed.

(** If the search for [target] can reach it at all, it finds it whenever its
    iteration cap is at least the number of bounded forms. *)
Lemma bfs_parse_complete self :
  same_view g self → target ≠ [] → mem_reach target → size bfs_universe ≤ cap →
  ∃ self', _bfs_parse_capped cap self target = Returned (true, self') ∧
           same_view g self'.
Proof.
  intros Hself Hne Hreach Hcap. unfold _bfs_parse_capped.
  destruct Hself as (Ht & Hn & Hst & Hr). rewrite Hst.
  assert (same_view g self) as Hself by done.
  destruct (start_symbol g) as [start|] eqn:Hs.
  2:{ exfalso. by apply (mem_reach_has_start target). }
  destruct start as [|c start].
  { exfalso. by apply Hne, mem_reach_empty_start. }
  cbn [truthy].
  apply (run_measure (bfs_step cap target) complete_inv
           (fun st => slack bfs_universe (bfs_search st))
           (fun r => ∃ self', r = Returned (true, self') ∧ same_view g self')).
  - by apply bfs_complete_step.
  - split; [split; [|split]|]; cbn [bfs_search iterations].
    + apply search_inv_init; [done | by apply bounded_start].
    + intros start' Hs'. rewrite Hs in Hs'. injection Hs' as <-.
      cbn [visited]. set_solver.
    + intros x Hx. cbn [visited] in Hx. apply elem_of_singleton in Hx as ->.
      left. cbn [queue]. by left.
    + unfold slack. cbn [queue visited length]. rewrite size_singleton. lia.
  - unfold slack. cbn [bfs_search queue visited length].
    rewrite size_singleton. lia.
Qed.
(** With the cap as it is, the search for a reachable target finds it unless
    its loop makes all [cap] passes first. *)
Lemma bfs_parse_found_or_capped self :
  same_view g self → target ≠ [] → mem_reach target →
  (∃ self', _bfs_parse_capped cap self target = Returned (true, self')) ∨
  (∃ start st,
      start_symbol g = Some start ∧
      passes cap (bfs_step cap target) (mkBfs (mkSearch self [start] {[start]}) 0)
      = Some st).
Proof.
  intros Hself Hne Hreach.
  destruct (bfs_parse_total g cap target self (fun _ => True) Hself)
    as (b & self1 & Hret & _); [by intros ? | done |].
  destruct b; [left; by exists self1|]. right.
  unfold _bfs_parse_capped in Hret.
  destruct Hself as (Ht & Hn & Hst & Hr). rewrite Hst in Hret.
  assert (same_view g self) as Hself by done.
  destruct (start_symbol g) as [start|] eqn:Hs.
  2:{ exfalso. by apply (mem_reach_has_start target). }
  exists start. destruct start as [|c start].
  { exfalso. by apply Hne, mem_reach_empty_start. }
  cbn [truthy] in Hret.
  apply run_passes_end in Hret as (n & st & Hp & Hend); [|done].
  assert (frontier_inv st) as Hinv.
  { apply (passes_invariant (bfs_step cap target) frontier_inv) in Hp; [done| |].
    - intros st1 st2 Hinv Hstep.
      pose proof (bfs_frontier_step Hreach st1 Hinv) as H.
      rewrite Hstep in H. apply H.
    - split; [|split]; cbn [bfs_search].
      + apply search_inv_init; [done | by apply bounded_start].
      + intros start' Hs'. rewrite Hs in Hs'. injection Hs' as <-.
        cbn [visited]. set_solver.
      + intros x Hx. cbn [visited] in Hx. apply elem_of_singleton in Hx as ->.
        left. cbn [queue]. by left. }
  pose proof (bfs_frontier_step Hreach st Hinv) as Hstep. rewrite Hend in Hstep.
  destruct Hstep as [(self' & [= ] & _)|[Hge _]].
  destruct (passes_bfs_iterations _ _ _ _ _ Hp) as [Hit Hcap]. simpl in Hit.
  assert (n = cap) as -> by (destruct Hcap; lia).
  by exists st.
Qed.
End BfsComplete.

(** ** Derivations *)

(** [x] is derivable: a finite sequence of leftmost rewriting steps leads from
    the start symbol to [x]. *)
Definition derives (g : GrammarProcessor) (x : str) : Prop :=
  ∃ start, start_symbol g = Some start ∧ rtc (lstep g) start x.

Lemma derives_start g start : start_symbol g = Some start → derives g start.
Proof. intros Hs. by exists start. Qed.

Lemma derives_step g s e : derives g s → lstep g s e → derives g e.
Proof.
  intros (start & Hs & Hd) He. exists start. split; [done|].
  by eapply rtc_r.
Qed.

(** No stored right-hand side is the empty string. *)
Definition no_empty_rhs (g : GrammarProcessor) : bool :=
  forallb (fun kv : str * list str =>
             forallb (fun rhs => negb (bool_decide (rhs = []))) kv.2)
          (map_to_list (productions g)).

Lemma no_empty_rhs_rules g key rhs :
  no_empty_rhs g = true → rhs ∈ rules g key → rhs ≠ [].
Proof.
  unfold no_empty_rhs, rules. rewrite forallb_forall. intros Hall.
  destruct (productions g !! key) as [l|] eqn:E; simpl; [|by intros ?%elem_of_nil].
  intros Hrhs. specialize (Hall (key, l)). simpl in Hall.
  rewrite forallb_forall in Hall.
  specialize (Hall (proj1 (list_elem_of_In _ _) (proj2 (elem_of_map_to_list _ _ _) E))
                   rhs (proj1 (list_elem_of_In _ _) Hrhs)).
  apply negb_true_iff in Hall. by apply bool_decide_eq_false in Hall.
Qed.

Lemma lstep_nonempty g s e : no_empty_rhs g = true → lstep g s e → e ≠ [].
Proof.
  intros Hne [prefix c suffix rhs _ _ Hrhs] Heq.
  apply app_eq_nil in Heq as [_ Heq]. apply app_eq_nil in Heq as [Heq _].
  by apply (no_empty_rhs_rules g [c] rhs).
Qed.

Lemma lstep_grows g s e :
  no_empty_rhs g = true → lstep g s e → (len s ≤ len e)%Z.
Proof.
  intros Hne [prefix c suffix rhs _ _ Hrhs].
  pose proof (no_empty_rhs_rules g [c] rhs Hne Hrhs).
  unfold len. rewrite !length_app. simpl.
  destruct rhs; [done|]. simpl. lia.
Qed.

(** ** [belongs_to_grammar] *)

Lemma terminal_check_spec self word :
  forallb (fun char => bool_decide ([char] ∈ terminals self)) word = true
  ↔ Forall (fun c => [c] ∈ terminals self) word.
Proof.
  rewrite forallb_forall, Forall_forall. split; intros H c Hc.
  - specialize (H c (proj1 (list_elem_of_In _ _) Hc)).
    by apply bool_decide_eq_true in H.
  - apply bool_decide_eq_true_2, H. by apply list_elem_of_In.
Qed.

Lemma belongs_to_grammar_nonempty cap fuel self word :
  word ≠ [] → Forall (fun c => [c] ∈ terminals self) word →
  belongs_to_grammar_capped cap fuel self word = _bfs_parse_capped cap self word.
Proof.
  intros Hne Hterm. unfold belongs_to_grammar_capped, belongs_to_grammar_body.
  rewrite bool_decide_eq_false_2 by done.
  apply terminal_check_spec in Hterm. by rewrite Hterm.
Qed.

Lemma belongs_to_grammar_true_inv cap fuel self word self' :
  word ≠ [] →
  belongs_to_grammar_capped cap fuel self word = Returned (true, self') →
  _bfs_parse_capped cap self word = Returned (true, self').
Proof.
  intros Hne. unfold belongs_to_grammar_capped, belongs_to_grammar_body.
  rewrite bool_decide_eq_false_2 by done.
  by destruct (forallb _ word).
Qed.

(** ** The grammars of the claims, as [parse_grammar] builds them *)

Lemma parse_example_grammar :
  parse_grammar __init__ (py example_text) = example_grammar.
Proof. by vm_compute. Qed.

Lemma parse_undefined_B_grammar :
  parse_grammar __init__ (py "S -> aB") = undefined_B_grammar.
Proof. by vm_compute. Qed.

Lemma parse_long_start_grammar :
  parse_grammar __init__ (py "SSSSSSSSSSSSSSSSSSSSS -> a") = long_start_grammar.
Proof. by vm_compute. Qed.

Lemma parse_erasing_grammar :
  parse_grammar __init__ (py erasing_text) = erasing_grammar.
Proof. by vm_compute. Qed.

(** The construction of [wide_grammar], on the 8 strings of 3 characters. *)
Lemma parse_wide_grammar_3 :
  parse_grammar __init__ (wide_text (binary_words 3)) = wide_grammar_of (binary_words 3).
Proof. by vm_compute. Qed.

(** ** The searches on the example grammar *)

Example example_expansions :
  _get_expansions example_grammar (py "abAS")
  = ([py "abaS"; py "abaSS"; py "abbAAS"], example_grammar).
Proof. by vm_compute. Qed.

Example example_generate_words :
  generate_words 100 example_grammar 4 50
  = Returned ([py "aabb"; py "ab"; py "abab"; py "abba";
               py "ba"; py "baab"; py "baba"; py "bbaa"], example_grammar).
Proof. by vm_compute. Qed.

Example example_generate_words_limit :
  generate_words 100 example_grammar 4 3
  = Returned ([py "ab"; py "abab"; py "ba"], example_grammar).
Proof. by vm_compute. Qed.

Example example_belongs :
  belongs_to_grammar 0 example_grammar (py "abba") = Returned (true, example_grammar) ∧
  belongs_to_grammar 0 example_grammar (py "abb") = Returned (false, example_grammar) ∧
  belongs_to_grammar 0 example_grammar (py "z") = Returned (false, example_grammar).
Proof. repeat split; by vm_compute. Qed.

(** What every search leaves untouched: the two alphabets, the start symbol,
    and the productions read under every key. *)
Lemma searches_preserve_view g max_length max_words fuel ws b word self' :
  (generate_words fuel g max_length max_words = Returned (ws, self') →
   same_view g self') ∧
  (belongs_to_grammar fuel g word = Returned (b, self') → same_view g self').
Proof.
  split.
  - intros Hret.
    apply (generate_words_returned g max_length max_words g (fun _ => True)
             fuel ws self'); [apply same_view_refl | by intros ? | done | done].
  - unfold belongs_to_grammar, belongs_to_grammar_body.
    case_bool_decide as Hnil.
    + unfold _can_produce_empty. destruct (start_symbol g) as [start|] eqn:Hs; [|done].
      intros Hret.
      destruct (can_produce_empty_total g g (fun _ => True) start
                  (same_view_refl g) Hs) as (b0 & self0 & Hret0 & Hv & _);
        [by intros ? | done |].
      assert ((b0, self0) = (b, self')) as [= -> ->]; [|done].
      eapply (returns_unique _ _ _ fuel Hret0).
      * unfold _can_produce_empty. by rewrite Hs.
      * intros n m. apply can_produce_empty_fuel_mono.
    + destruct (forallb _ word); simpl.
      * intros Hret.
        destruct (bfs_parse_total g max_iterations word g (fun _ => True)
                    (same_view_refl g)) as (b0 & self0 & Hret0 & Hv & _);
          [by intros ? | done |].
        unfold _bfs_parse in Hret. rewrite Hret in Hret0.
        by injection Hret0 as <- <-.
      * intros [= <- <-]. apply same_view_refl.
Qed.

(** [word.count(c)]. *)
Fixpoint count (c : ascii) (s : str) : nat :=
  match s with
  | [] => 0
  | x :: s' => (if Ascii.eqb x c then 1 else 0) + count c s'
  end.

Lemma count_app c s t : count c (s ++ t) = count c s + count c t.
Proof. induction s as [|x s IH]; simpl; [done|]. rewrite IH. lia. Qed.

(** In every form derived in the example grammar, the [a]s and [A]s are as
    many as the [b]s and [B]s. *)
Definition balanced (s : str) : Prop :=
  count "a" s + count "A" s = count "b" s + count "B" s.

Lemma example_lstep_balanced s e :
  lstep example_grammar s e → balanced s → balanced e.
Proof.
  intros [prefix c suffix rhs _ Hc Hrhs]. unfold balanced.
  rewrite !count_app. simpl.
  assert (rules example_grammar ["S"%char] = [py "aB"; py "bA"]) as HS
    by by vm_compute.
  assert (rules example_grammar ["A"%char] = [py "a"; py "aS"; py "bAA"]) as HA
    by by vm_compute.
  assert (rules example_grammar ["B"%char] = [py "b"; py "bS"; py "aBB"]) as HB
    by by vm_compute.
  assert (c = "S" ∨ c = "A" ∨ c = "B")%char as Hcases.
  { simpl in Hc. apply elem_of_union in Hc as [Hc|Hc];
      [apply elem_of_union in Hc as [Hc|Hc]|];
      apply elem_of_singleton in Hc; injection Hc as ->; auto. }
  destruct Hcases as [->| [->| ->]];
    [rewrite HS in Hrhs | rewrite HA in Hrhs | rewrite HB in Hrhs];
    repeat (apply elem_of_cons in Hrhs as [->|Hrhs]);
    try (by apply elem_of_nil in Hrhs); simpl; lia.
Qed.

Lemma example_terminal_count w :
  Forall (fun c => [c] ∈ terminals example_grammar) w →
  count "A" w = 0 ∧ count "B" w = 0.
Proof.
  induction 1 as [|c w Hc _ [IHA IHB]]; simpl; [done|].
  rewrite IHA, IHB.
  assert (c = "a" ∨ c = "b")%char as [->| ->]; [|done..].
  simpl in Hc. apply elem_of_union in Hc as [Hc|Hc];
    apply elem_of_singleton in Hc; injection Hc as ->; auto.
Qed.

(** [x] is explored by [_can_produce_empty]: some pass of its loop finds [x]
    at the head of the queue and dequeues it. *)
Definition explored_by_empty_search (g : GrammarProcessor) (start x : str) : Prop :=
  ∃ n st rest,
    passes n empty_step (mkSearch g [start] {[start]}) = Some st ∧
    queue st = x :: rest.

(** The strings explored are the start symbol and expansions that passed the
    length guard. *)
Lemma explored_by_empty_search_bound g start x :
  start_symbol g = Some start →
  explored_by_empty_search g start x → x = start ∨ (len x < 20)%Z.
Proof.
  intros Hs (n & st & rest & Hp & Hq).
  assert (empty_closed g (fun x => x = start ∨ (len x < 20)%Z)) as Hclosed.
  { intros s e _ _ _ _ Hlen. by right. }
  destruct (empty_passes_inv g g _ start n st (same_view_refl g) Hs Hclosed
              ltac:(by left) Hp) as (_ & Hqv & Hv).
  apply Hv, Hqv. rewrite Hq. by left.
Qed.

(** With a start symbol of at most 20 characters, a single symbol in
    particular, no explored string is longer than 20. *)
Lemma explored_by_empty_search_short_start g start x :
  start_symbol g = Some start → (len start ≤ 20)%Z →
  explored_by_empty_search g start x → (len x ≤ 20)%Z.
Proof.
  intros Hs Hlen Hx.
  destruct (explored_by_empty_search_bound g start x Hs Hx) as [->|Hlt]; lia.
Qed.

(** ** The iteration cap alone can reject a generated word *)

Lemma enqueue_fresh keep es q v :
  NoDup es → (∀ e, e ∈ es → (e ∉ v) ∧ keep e = true) →
  enqueue keep es q v = (q ++ es, list_to_set es ∪ v).
Proof.
  revert q v. induction es as [|e es IH]; intros q v Hnd Hes; simpl.
  - rewrite app_nil_r. f_equal. set_solver.
  - inversion Hnd as [|? ? Hnotin Hnd']; subst.
    destruct (Hes e ltac:(left)) as [Hv Hk].
    rewrite bool_decide_eq_true_2, Hk by done. simpl.
    rewrite IH; [|done|].
    + rewrite <- (assoc_L (++)). simpl. f_equal. set_solver.
    + intros e' He'. destruct (Hes e' ltac:(by right)) as [Hv' Hk'].
      split; [|done]. intros [->%elem_of_singleton|?]%elem_of_union; done.
Qed.

(** Expanding a non-terminal that has stored productions leaves the processor
    as it is. *)
Lemma get_expansions_stored self prefix c suffix stored :
  Forall (fun x => [x] ∉ non_terminals self) prefix →
  [c] ∈ non_terminals self →
  productions self !! [c] = Some stored →
  _get_expansions self (prefix ++ c :: suffix)
  = (map (fun rhs => prefix ++ rhs ++ suffix) stored, self).
Proof.
  intros Hp Hc Hstored.
  pose proof (expansions_at self prefix c suffix Hp Hc) as Hfst.
  unfold rules, _get_expansions in *.
  rewrite (first_non_terminal_at _ prefix c suffix 0) in * by done.
  unfold defaultdict_getitem in *. rewrite Hstored in *. simpl in *.
  rewrite Hfst. f_equal. by destruct self.
Qed.

(** A queue that begins with terminal strings other than the target: the
    membership search discards them one pass each, and gives up when the cap
    is reached with the queue not yet empty. *)
Lemma bfs_run_discards cap target self q1 :
  ∀ q2 v n fuel,
    Forall (fun x => _is_terminal_string self x = true ∧ x ≠ target) q1 →
    n + length q1 = cap → q2 ≠ [] → length q1 < fuel →
    run fuel (bfs_step cap target) (mkBfs (mkSearch self (q1 ++ q2) v) n)
    = Returned (false, self).
Proof.
  induction q1 as [|x q1 IH]; intros q2 v n fuel Hq1 Hn Hq2 Hfuel;
    (destruct fuel as [|fuel]; [simpl in Hfuel; lia|]); simpl in *.
  - destruct q2 as [|y q2]; [done|].
    by rewrite (proj2 (Nat.ltb_ge n cap)) by lia.
  - inversion Hq1 as [|? ? [Hterm Hne] Hq1']; subst.
    rewrite (proj2 (Nat.ltb_lt n (n + S (length q1)))) by lia.
    rewrite bool_decide_eq_false_2, Hterm by done.
    apply IH; [done | lia | done | lia].
Qed.

(** A queue of words that the generator records: it records them all, as long
    as the word limit is not reached. *)
Lemma gen_run_records max_length max_words self q :
  ∀ v words fuel,
    Forall (fun x => _is_terminal_string self x = true ∧
                     (len x ≤ max_length)%Z ∧ x ≠ []) q →
    (Z.of_nat (size words + length q) ≤ max_words)%Z → length q < fuel →
    run fuel (generate_step max_length max_words) (mkGen (mkSearch self q v) words)
    = Returned (sorted (list_to_set q ∪ words), self).
Proof.
  induction q as [|x q IH]; intros v words fuel Hq Hsize Hfuel;
    (destruct fuel as [|fuel]; [simpl in Hfuel; lia|]); simpl in *.
  - do 3 f_equal. set_solver.
  - inversion Hq as [|? ? (Hterm & Hlen & Hne) Hq']; subst.
    rewrite (proj2 (Z.ltb_lt _ _)) by lia. rewrite Hterm.
    rewrite (proj2 (Z.leb_le _ _)) by done.
    rewrite bool_decide_eq_false_2 by done. simpl.
    rewrite IH; [|done| |lia].
    + do 3 f_equal. set_solver.
    + pose proof (size_union_alt {[x]} words) as Hu.
      rewrite size_singleton in Hu.
      assert (size (words ∖ {[x]}) ≤ size words) by (apply subseteq_size; set_solver).
      lia.
Qed.

Lemma binary_words_spec n w :
  w ∈ binary_words n →
  length w = n ∧ Forall (fun c => c = "a"%char ∨ c = "b"%char) w.
Proof.
  revert w. induction n as [|n IH]; intros w; simpl.
  - intros ->%list_elem_of_singleton. by split.
  - intros [Hw|Hw]%elem_of_app; apply list_elem_of_fmap in Hw as (w' & -> & Hw');
      destruct (IH _ Hw') as [Hl Hc]; simpl; (split; [lia|]); constructor; auto.
Qed.

Lemma binary_words_NoDup n : NoDup (binary_words n).
Proof.
  induction n as [|n IH]; simpl.
  - apply NoDup_singleton.
  - apply NoDup_app. split; [|split].
    + apply NoDup_fmap_2; [|done]. by intros ? ? [= ].
    + intros w (w1 & -> & _)%list_elem_of_fmap (w2 & [= ] & _)%list_elem_of_fmap.
    + apply NoDup_fmap_2; [|done]. by intros ? ? [= ].
Qed.

Lemma binary_words_last n :
  ∃ front, binary_words n = front ++ [repeat "b"%char n].
Proof.
  induction n as [|n [front IH]]; simpl.
  - by exists [].
  - exists (map (cons "a"%char) (binary_words n) ++ map (cons "b"%char) front).
    rewrite IH at 2. rewrite map_app. simpl. by rewrite <- (assoc_L (++)).
Qed.

Lemma elem_of_take_list {A} (x : A) (n : nat) (l : list A) : x ∈ take n l → x ∈ l.
Proof. intros (i & Hi & _)%elem_of_take. apply list_elem_of_lookup. by exists i. Qed.

(** The pass of each loop that expands the dequeued form. *)
Lemma generate_step_expand max_length max_words self current rest v words :
  (Z.of_nat (size words) < max_words)%Z →
  _is_terminal_string self current = false → (len current ≤ max_length)%Z →
  generate_step max_length max_words (mkGen (mkSearch self (current :: rest) v) words)
  = inl (mkGen (expand (fun expansion => (len expansion <=? max_length * 2)%Z)
                       self current rest v) words).
Proof.
  intros Hsize Hterm Hlen. simpl.
  rewrite (proj2 (Z.ltb_lt _ _)) by done. rewrite Hterm.
  by rewrite (proj2 (Z.ltb_ge _ _)) by done.
Qed.

Lemma bfs_step_expand cap target self current rest v n :
  n < cap → current ≠ target →
  _is_terminal_string self current = false → (len current ≤ len target)%Z →
  bfs_step cap target (mkBfs (mkSearch self (current :: rest) v) n)
  = inl (mkBfs (expand (fun _ => true) self current rest v) (S n)).
Proof.
  intros Hn Hne Hterm Hlen. simpl.
  rewrite (proj2 (Nat.ltb_lt _ _)) by done.
  rewrite bool_decide_eq_false_2 by done. rewrite Hterm.
  by rewrite (proj2 (Z.ltb_ge _ _)) by done.
Qed.

Section Wide.
Context (alts : list str).
Hypothesis alts_NoDup : NoDup alts.
Hypothesis alts_chars :
  ∀ w, w ∈ alts → Forall (fun c => c = "a"%char ∨ c = "b"%char) w ∧ w ≠ [].

Lemma wide_terminal w : w ∈ alts → _is_terminal_string (wide_grammar_of alts) w = true.
Proof.
  intros Hw. apply is_terminal_string_spec.
  eapply Forall_impl; [by apply alts_chars|].
  intros c [->| ->]; simpl; set_solver.
Qed.

Lemma wide_not_start w : w ∈ alts → w ∉ ({[py "S"]} : gset str).
Proof.
  intros Hw ->%elem_of_singleton. destruct (alts_chars _ Hw) as [Hc _].
  inversion Hc as [|? ? [?|?]]; done.
Qed.

Lemma wide_expand keep rest :
  (∀ w, w ∈ alts → keep w = true) →
  expand keep (wide_grammar_of alts) (py "S") rest {[py "S"]}
  = mkSearch (wide_grammar_of alts) (rest ++ alts) (list_to_set alts ∪ {[py "S"]}).
Proof.
  intros Hkeep. unfold expand.
  change (py "S") with ([] ++ "S"%char :: @nil ascii) at 1.
  rewrite (get_expansions_stored (wide_grammar_of alts) [] "S" [] alts).
  - replace (map (fun rhs => [] ++ rhs ++ []) alts) with alts.
    + rewrite enqueue_fresh; [done | done |].
      intros e He. split; [by apply wide_not_start | by apply Hkeep].
    + transitivity (map id alts); [by rewrite map_id|].
      apply map_ext. intros rhs. simpl. by rewrite app_nil_r.
  - constructor.
  - simpl. set_solver.
  - apply (lookup_singleton_eq (M := gmap str)).
Qed.

(** The generator records every alternative that is short enough. *)
Lemma wide_generate max_length max_words fuel :
  (∀ w, w ∈ alts → (len w ≤ max_length)%Z) →
  (1 ≤ max_length)%Z → (Z.of_nat (length alts) ≤ max_words)%Z → (0 < max_words)%Z →
  S (length alts) < fuel →
  generate_words fuel (wide_grammar_of alts) max_length max_words
  = Returned (sorted (list_to_set alts ∪ ∅), wide_grammar_of alts).
Proof.
  intros Hlen Hml Hmw Hpos Hfuel. unfold generate_words.
  destruct fuel as [|fuel]; [lia|].
  cbn [start_symbol wide_grammar_of truthy py list_ascii_of_string run].
  change ["S"%char] with (py "S").
  rewrite generate_step_expand;
    [|by rewrite size_empty | done | unfold len; simpl; lia].
  rewrite wide_expand.
  - apply gen_run_records.
    + apply Forall_forall. intros w Hw. split; [by apply wide_terminal|].
      split; [by apply Hlen | by apply alts_chars].
    + rewrite size_empty. simpl. lia.
    + simpl. lia.
  - intros w Hw. apply Z.leb_le. specialize (Hlen w Hw). lia.
Qed.

(** The membership search stops at its cap before it reaches an alternative
    that has at least [cap - 1] others before it. *)
Lemma wide_rejects cap front target back :
  alts = front ++ target :: back → 0 < cap → cap ≤ S (length front) →
  _bfs_parse_capped cap (wide_grammar_of alts) target
  = Returned (false, wide_grammar_of alts).
Proof.
  intros Halts Hcap Hfront.
  assert (target ∈ alts) as Hin. { rewrite Halts. apply elem_of_app. right. by left. }
  pose proof (wide_not_start _ Hin) as Hns. rewrite not_elem_of_singleton in Hns.
  destruct (alts_chars _ Hin) as [_ Hne].
  unfold _bfs_parse_capped.
  cbn [start_symbol wide_grammar_of truthy py list_ascii_of_string run].
  change ["S"%char] with (py "S").
  rewrite bfs_step_expand;
    [|done | done | done | destruct target; [done | unfold len; simpl; lia]].
  rewrite wide_expand by done. simpl app.
  rewrite <- (take_drop (cap - 1) alts).
  assert (length alts = length front + S (length back)) as Hlen.
  { rewrite Halts, length_app. done. }
  apply bfs_run_discards.
  - apply Forall_forall. intros w Hw.
    split; [apply wide_terminal; by eapply elem_of_take_list|].
    intros ->. rewrite Halts in Hw. rewrite take_app_le in Hw by lia.
    pose proof alts_NoDup as Hnd. rewrite Halts in Hnd.
    apply NoDup_app in Hnd as (_ & Hdisj & _).
    apply (Hdisj target); [by eapply elem_of_take_list | by left].
  - rewrite length_take. lia.
  - intros Hdrop. apply (f_equal length) in Hdrop.
    rewrite length_drop in Hdrop. simpl in Hdrop. lia.
  - rewrite length_take. lia.
Qed.
End Wide.

Lemma binary_words_length n : length (binary_words n) = 2 ^ n.
Proof.
  induction n as [|n IH]; [done|].
  cbn [binary_words]. rewrite length_app, !length_map.
  rewrite IH, Nat.pow_succ_r'. lia.
Qed.



(** * The claims *)

(** C1 as stated fails. With the grammar [S -> AB], [A -> a], [B ->] (an empty
    right-hand side) [generate_words(10, 100)] returns [['a']], reached through
    the longer form [AB], and [belongs_to_grammar('a')] returns [False]: the
    membership search discards [AB] for being longer than the target. *)
Lemma generated_word_rejected :
  parse_grammar __init__ (py erasing_text) = erasing_grammar ∧
  generate_words 10 erasing_grammar 10 100 = Returned ([py "a"], erasing_grammar) ∧
  belongs_to_grammar 0 erasing_grammar (py "a") = Returned (false, erasing_grammar).
Proof. split; [apply parse_erasing_grammar|]. split; by vm_compute. Qed.

(** The second way in which C1 as stated fails, with no empty right-hand side:
    the generator returns [bbbbbbbbbbbbbb], the last of 16384 alternatives,
    and the membership search stops at its 10,000th pass before it gets to
    it. *)
Lemma generated_word_rejected_by_cap :
  no_empty_rhs wide_grammar = true ∧
  ∃ fuel ws,
    generate_words fuel wide_grammar 14 20000 = Returned (ws, wide_grammar) ∧
    repeat "b"%char 14 ∈ ws ∧
    belongs_to_grammar 0 wide_grammar (repeat "b"%char 14)
    = Returned (false, wide_grammar).
Proof.
  pose proof (binary_words_length 14) as Hlen.
  destruct (binary_words_last 14) as [front Hfront].
  pose proof (binary_words_NoDup 14) as Hnd.
  assert (∀ w, w ∈ binary_words 14 →
            Forall (fun c => c = "a"%char ∨ c = "b"%char) w ∧ w ≠ []) as Hchars.
  { intros w Hw. destruct (binary_words_spec 14 w Hw) as [Hl Hc].
    split; [done|]. by intros ->. }
  assert (length front = 2 ^ 14 - 1) as Hfl.
  { rewrite Hfront, length_app in Hlen. cbn [length] in Hlen. lia. }
  assert (2 ^ 14 = 16384) as Hpow by by vm_compute.
  split; [by vm_compute|].
  - exists (S (S (S (length (binary_words 14))))),
           (sorted (list_to_set (binary_words 14) ∪ ∅)).
    split; [|split].
    + apply (wide_generate (binary_words 14) Hnd Hchars 14 20000).
      * intros w Hw. destruct (binary_words_spec 14 w Hw) as [Hl _].
        unfold len. lia.
      * lia.
      * rewrite Hlen, Hpow. apply Z.leb_le. by vm_compute.
      * lia.
      * lia.
    + apply sorted_elem_of. apply elem_of_union_l, elem_of_list_to_set.
      rewrite Hfront. apply elem_of_app. right. by left.
    + assert (repeat "b"%char 14 ∈ binary_words 14) as Hin.
      { rewrite Hfront. apply elem_of_app. right. by left. }
      unfold belongs_to_grammar, belongs_to_grammar_body.
      rewrite bool_decide_eq_false_2 by (by apply Hchars).
      assert (forallb (fun char => bool_decide ([char] ∈ terminals wide_grammar))
                      (repeat "b"%char 14) = true) as -> by by vm_compute.
      cbv iota beta. change (negb true) with false. cbv iota.
      apply (wide_rejects (binary_words 14) Hnd Hchars max_iterations front
               (repeat "b"%char 14) []); [done| |].
      * unfold max_iterations. apply Nat.ltb_lt. by vm_compute.
      * rewrite Hfl, Hpow. apply Nat.leb_le. by vm_compute.
Qed.

(** C1, amended. When no right-hand side is empty, every word [w] that
    [generate_words] returned is accepted by the membership search, run on the
    processor as the generator left it, unless the search exhausts its
    iteration cap first: [belongs_to_grammar(w)] returns [True] or the loop of
    [_bfs_parse] makes all its 10,000 passes; and with every cap from some
    [N] on it returns [True]. *)
Theorem generated_words_belong g max_length max_words fuel ws self' w :
  no_empty_rhs g = true →
  generate_words fuel g max_length max_words = Returned (ws, self') →
  w ∈ ws →
  (∀ fuel',
      (∃ self'', belongs_to_grammar fuel' self' w = Returned (true, self'')) ∨
      (∃ start st,
          start_symbol self' = Some start ∧
          passes max_iterations (bfs_step max_iterations w)
                 (mkBfs (mkSearch self' [start] {[start]}) 0) = Some st)) ∧
  (∃ N, ∀ cap fuel', N ≤ cap →
      ∃ self'', belongs_to_grammar_capped cap fuel' self' w = Returned (true, self'')).
Proof.
  intros Hne Hret Hw.
  set (P := fun s => ∀ t, (len s ≤ len t)%Z → mem_reach g t s ∨ mem_reach g t t).
  assert (gen_closed g max_length P) as Hclosed.
  { intros s e Hs Hterm _ He _ t Hlen.
    pose proof (lstep_grows g s e Hne He) as Hgrow.
    destruct (Hs t ltac:(lia)) as [Hreach|Hreach]; [|by right].
    destruct (decide (s = t)) as [->|Hst]; [by right|].
    left. apply (mem_reach_step g t s e); try done. lia. }
  assert (∀ start, start_symbol g = Some start → P start) as Hstart.
  { intros start Hs t _. left. by apply mem_reach_start. }
  destruct (generate_words_returned g max_length max_words g P fuel ws self'
              (same_view_refl g) Hclosed Hstart Hret) as (Hview & _ & _ & _ & Hws).
  destruct (Hws w Hw) as (HP & Hterm & _ & Hnil).
  assert (mem_reach g w w) as Hreach by (by destruct (HP w ltac:(lia))).
  assert (Forall (fun c => [c] ∈ terminals self') w) as Hterm'.
  { destruct Hview as (-> & _). done. }
  split.
  - intros fuel'.
    change (belongs_to_grammar fuel' self' w)
      with (belongs_to_grammar_capped max_iterations fuel' self' w).
    rewrite belongs_to_grammar_nonempty by done.
    destruct (bfs_parse_found_or_capped g max_iterations w self' Hview Hnil Hreach)
      as [Hfound|(start & st & Hs & Hp)]; [by left|].
    right. exists start, st. split; [|done].
    destruct Hview as (_ & _ & -> & _). done.
  - exists (size (bfs_universe g w)). intros cap fuel' Hcap.
    rewrite belongs_to_grammar_nonempty by done.
    destruct (bfs_parse_complete g cap w self' Hview Hnil Hreach Hcap)
      as (self'' & Hres & _).
    by exists self''.
Qed.

Lemma generated_words_belong_witness :
  (∀ fuel',
      (∃ self'', belongs_to_grammar fuel' example_grammar (py "ab")
                 = Returned (true, self'')) ∨
      (∃ start st,
          start_symbol example_grammar = Some start ∧
          passes max_iterations (bfs_step max_iterations (py "ab"))
                 (mkBfs (mkSearch example_grammar [start] {[start]}) 0) = Some st)) ∧
  (∃ N, ∀ cap fuel', N ≤ cap →
      ∃ self'', belongs_to_grammar_capped cap fuel' example_grammar (py "ab")
                = Returned (true, self'')).
Proof.
  apply (generated_words_belong example_grammar 2 50 100 [py "ab"; py "ba"]
           example_grammar (py "ab")).
  - by vm_compute.
  - by vm_compute.
  - left.
Defined.

(** C2 (the code departs from it). Expanding a non-terminal that has no
    production reads [self.productions[char]] on a [defaultdict], which
    inserts the key: after [generate_words(3, 10)], and after
    [belongs_to_grammar("aa")], on the grammar [S -> aB] the mapping holds the
    new key [B], and [display_grammar] prints one more line, [B -> ]. *)
Theorem searches_insert_missing_key :
  let after :=
    set_productions undefined_B_grammar
      (<[py "B" := []]> (productions undefined_B_grammar)) in
  parse_grammar __init__ (py "S -> aB") = undefined_B_grammar ∧
  generate_words 5 undefined_B_grammar 3 10 = Returned ([], after) ∧
  belongs_to_grammar 0 undefined_B_grammar (py "aa") = Returned (false, after) ∧
  productions undefined_B_grammar !! py "B" = None ∧
  productions after !! py "B" = Some [] ∧
  productions after ≠ productions undefined_B_grammar ∧
  display_grammar undefined_B_grammar ≠ display_grammar after.
Proof.
  split; [apply parse_undefined_B_grammar|].
  split; [by vm_compute|]. split; [by vm_compute|]. split; [by vm_compute|].
  split; [by vm_compute|]. split.
  - intros H. apply (f_equal (fun d => d !! py "B")) in H. by vm_compute in H.
  - intros H. by vm_compute in H.
Qed.

(** Nothing else raises: [generate_words] never does, and
    [belongs_to_grammar] only for the empty word on a processor without a
    start symbol. *)
Lemma searches_raise_only_without_start g :
  (∀ fuel max_length max_words e,
      generate_words fuel g max_length max_words ≠ Raised e) ∧
  (∀ fuel word e,
      belongs_to_grammar fuel g word = Raised e → word = [] ∧ start_symbol g = None).
Proof.
  split.
  - intros fuel max_length max_words e Hraise.
    destruct (generate_words_total g max_length max_words g (fun _ => True)
                (same_view_refl g)) as (ws & self' & [n Hret] & _);
      [by intros ? | done |].
    specialize (Hret (max n fuel) ltac:(lia)).
    rewrite (generate_words_fuel_mono max_length max_words g fuel (max n fuel)) in Hret;
      [congruence | congruence | lia].
  - intros fuel word e. unfold belongs_to_grammar, belongs_to_grammar_body.
    case_bool_decide as Hnil.
    + destruct (start_symbol g) as [start|] eqn:Hs; [|done].
      intros Hraise. exfalso.
      destruct (can_produce_empty_total g g (fun _ => True) start
                  (same_view_refl g) Hs) as (b & self' & [n Hret] & _);
        [by intros ? | done |].
      specialize (Hret (max n fuel) ltac:(lia)).
      rewrite (can_produce_empty_fuel_mono g fuel (max n fuel)) in Hret;
        [congruence | congruence | lia].
    + destruct (forallb _ word); simpl; [|done].
      destruct (bfs_parse_total g max_iterations word g (fun _ => True)
                  (same_view_refl g)) as (b & self' & Hret & _);
        [by intros ? | done |].
      unfold _bfs_parse. by rewrite Hret.
Qed.

(** C3 (the code departs from it). On a processor that parsed no grammar
    (none was given, or none of its lines had an arrow),
    [belongs_to_grammar("")] does not return a boolean: [_can_produce_empty]
    queues the absent start symbol and [_is_terminal_string(None)] raises
    [TypeError]. *)
Theorem belongs_empty_word_without_grammar_raises fuel :
  parse_grammar __init__ (py "no production here") = __init__ ∧
  belongs_to_grammar fuel __init__ [] = Raised TypeError.
Proof. split; [by vm_compute | reflexivity]. Qed.

(** C4. For positive bounds [generate_words] returns a list that is sorted in
    lexicographic order, has no repeated word and at most [max_words]
    elements; every word in it is nonempty, has at most [max_length]
    characters, and all its characters are in the terminal set. *)
Theorem generate_words_sorted_distinct_bounded g max_length max_words :
  (0 < max_length)%Z → (0 < max_words)%Z →
  ∃ ws self',
    returns (fun fuel => generate_words fuel g max_length max_words) (ws, self') ∧
    StronglySorted str_le ws ∧ NoDup ws ∧
    (Z.of_nat (length ws) ≤ max_words)%Z ∧
    Forall (fun w => w ≠ [] ∧ (len w ≤ max_length)%Z ∧
                     Forall (fun c => [c] ∈ terminals g) w) ws.
Proof.
  intros Hml Hmw.
  destruct (generate_words_total g max_length max_words g (fun _ => True)
              (same_view_refl g)) as (ws & self' & Hret & _ & Hs & Hnd & Hlen & Hws);
    [by intros ? | done |].
  exists ws, self'. split; [done|]. split; [done|]. split; [done|].
  split; [lia|]. apply Forall_forall. intros w Hw.
  destruct (Hws w Hw) as (_ & Hterm & Hl & Hne). done.
Qed.

Lemma generate_words_sorted_distinct_bounded_witness :
  ∃ ws self',
    returns (fun fuel => generate_words fuel example_grammar 4 50) (ws, self') ∧
    StronglySorted str_le ws ∧ NoDup ws ∧
    (Z.of_nat (length ws) ≤ 50)%Z ∧
    Forall (fun w => w ≠ [] ∧ (len w ≤ 4)%Z ∧
                     Forall (fun c => [c] ∈ terminals example_grammar) w) ws.
Proof.
  apply (generate_words_sorted_distinct_bounded example_grammar 4 50); lia.
Defined.

(** C5. [_get_expansions] returns exactly the expansions of the leftmost
    non-terminal: it agrees with the specification's wording on every form;
    a form with no non-terminal has no expansion; and a form
    [prefix ++ c :: suffix] whose first non-terminal is [c] expands to
    [prefix ++ rhs ++ suffix] for the right-hand sides [rhs] stored for [c],
    in stored order. *)
Theorem get_expansions_leftmost self :
  (∀ s, expansions self s = expand_leftmost_spec self s) ∧
  (∀ s, Forall (fun x => [x] ∉ non_terminals self) s → expansions self s = []) ∧
  (∀ prefix c suffix,
      Forall (fun x => [x] ∉ non_terminals self) prefix →
      [c] ∈ non_terminals self →
      expansions self (prefix ++ c :: suffix)
      = map (fun rhs => prefix ++ rhs ++ suffix) (rules self [c])).
Proof.
  split; [apply expansions_spec|]. split; [apply expansions_none|].
  apply expansions_at.
Qed.

(** C6 as stated fails. The length guard of [_can_produce_empty] is applied to
    expansions only: with the grammar [SSSSSSSSSSSSSSSSSSSSS -> a] the start
    symbol has 21 characters, and the first pass of the loop dequeues it. *)
Lemma empty_search_explores_long_start :
  parse_grammar __init__ (py "SSSSSSSSSSSSSSSSSSSSS -> a") = long_start_grammar ∧
  start_symbol long_start_grammar = Some (py "SSSSSSSSSSSSSSSSSSSSS") ∧
  explored_by_empty_search long_start_grammar
    (py "SSSSSSSSSSSSSSSSSSSSS") (py "SSSSSSSSSSSSSSSSSSSSS") ∧
  (20 < len (py "SSSSSSSSSSSSSSSSSSSSS"))%Z.
Proof.
  split; [apply parse_long_start_grammar|]. split; [done|]. split; [|done].
  by exists 0, (mkSearch long_start_grammar [py "SSSSSSSSSSSSSSSSSSSSS"]
                  {[py "SSSSSSSSSSSSSSSSSSSSS"]}), [].
Qed.

(** C6, amended. Every call to [belongs_to_grammar] terminates; the loop of
    [_bfs_parse] makes at most 10,000 passes; and [_can_produce_empty], given a
    start symbol, returns after exploring, besides the start symbol itself,
    only strings of fewer than 20 characters, all of them among the finitely
    many forms of [universe g 19]. *)
Theorem belongs_to_grammar_terminates g word :
  (∃ fuel, ∀ fuel', fuel ≤ fuel' → belongs_to_grammar fuel' g word ≠ OutOfFuel) ∧
  (∀ start n st,
      start_symbol g = Some start →
      passes n (bfs_step max_iterations word) (mkBfs (mkSearch g [start] {[start]}) 0)
      = Some st →
      n ≤ max_iterations) ∧
  (∀ start, start_symbol g = Some start →
      (∃ b self', returns (fun fuel => _can_produce_empty fuel g) (b, self')) ∧
      (∀ x, explored_by_empty_search g start x → x = start ∨ (len x < 20)%Z) ∧
      (∀ n st, passes n empty_step (mkSearch g [start] {[start]}) = Some st →
               visited st ⊆ universe g 19)).
Proof.
  assert (∀ start, start_symbol g = Some start →
            ∃ b self', returns (fun fuel => _can_produce_empty fuel g) (b, self'))
    as Hempty.
  { intros start Hs.
    destruct (can_produce_empty_total g g (fun _ => True) start (same_view_refl g) Hs)
      as (b & self' & Hret & _); [by intros ? | done |].
    by exists b, self'. }
  split; [|split].
  - unfold belongs_to_grammar, belongs_to_grammar_body.
    case_bool_decide as Hnil.
    + destruct (start_symbol g) as [start|] eqn:Hs.
      * destruct (Hempty start eq_refl) as (b & self' & fuel & Hret).
        exists fuel. intros fuel' Hle. by rewrite Hret.
      * exists 0. intros fuel' _. unfold _can_produce_empty. by rewrite Hs.
    + exists 0. intros fuel' _. destruct (forallb _ word); simpl; [|done].
      destruct (bfs_parse_total g max_iterations word g (fun _ => True)
                  (same_view_refl g)) as (b & self' & Hret & _);
        [by intros ? | done |].
      unfold _bfs_parse. by rewrite Hret.
  - intros start n st Hs Hp.
    destruct (passes_bfs_iterations _ _ _ _ _ Hp) as [Hit [->|Hcap]]; [lia|].
    simpl in Hit. lia.
  - intros start Hs. split; [by apply (Hempty start)|]. split.
    + intros x Hx. by apply (explored_by_empty_search_bound g).
    + intros n st Hp x Hx. apply bounded_universe.
      destruct (empty_passes_inv g g _ start n st (same_view_refl g) Hs
                  (empty_closed_bounded g) (bounded_start g 19 start Hs) Hp)
        as (_ & _ & Hv).
      by apply Hv.
Qed.

Lemma belongs_to_grammar_terminates_witness :
  py "aB" = py "S" ∨ (len (py "aB") < 20)%Z.
Proof.
  apply (proj1 (proj2 (proj2 (proj2 (belongs_to_grammar_terminates example_grammar []))
                         (py "S") eq_refl))).
  eexists 1, _, _. split; [by vm_compute|]. by vm_compute.
Defined.

(** C7. A nonempty word with a character outside the terminal set is rejected
    at once: [belongs_to_grammar] returns [False] and leaves the processor as
    it was, whatever the two searches it could call would do, so neither
    is invoked; in particular with no fuel at all. *)
Theorem belongs_rejects_foreign_character self word c :
  word ≠ [] → c ∈ word → [c] ∉ terminals self →
  (∀ can_produce_empty bfs_parse,
      belongs_to_grammar_body can_produce_empty bfs_parse self word
      = Returned (false, self)) ∧
  (∀ fuel, belongs_to_grammar fuel self word = Returned (false, self)).
Proof.
  intros Hne Hc Hnt.
  assert (∀ cpe bfs, belongs_to_grammar_body cpe bfs self word = Returned (false, self))
    as Hbody.
  { intros cpe bfs. unfold belongs_to_grammar_body.
    rewrite bool_decide_eq_false_2 by done.
    destruct (forallb _ word) eqn:E; [|done].
    apply terminal_check_spec in E. rewrite Forall_forall in E.
    destruct Hnt. by apply E. }
  split; [done|]. intros fuel. apply Hbody.
Qed.

Lemma belongs_rejects_foreign_character_witness :
  belongs_to_grammar 0 example_grammar (py "az") = Returned (false, example_grammar).
Proof.
  apply (belongs_rejects_foreign_character example_grammar (py "az") "z"%char).
  - done.
  - right. left.
  - intros H. apply (bool_decide_pack _) in H. vm_compute in H. exact H.
Defined.

(** C8. In [_bfs_parse], after any number of passes of the loop every string
    in the queue or in the visited set is derivable from the start symbol by
    leftmost rewriting steps; hence a nonempty word for which
    [belongs_to_grammar] returns [True] is derivable. *)
Theorem bfs_parse_sound g word :
  (∀ start n st x,
      start_symbol g = Some start →
      passes n (bfs_step max_iterations word) (mkBfs (mkSearch g [start] {[start]}) 0)
      = Some st →
      x ∈ queue (bfs_search st) ∨ x ∈ visited (bfs_search st) → derives g x) ∧
  (∀ fuel self',
      word ≠ [] → belongs_to_grammar fuel g word = Returned (true, self') →
      derives g word).
Proof.
  assert (bfs_closed g word (derives g)) as Hclosed.
  { intros s e Hs _ _ _ He. by eapply derives_step. }
  split.
  - intros start n st x Hs Hp Hx.
    assert (search_inv g (derives g) (bfs_search st)) as (_ & Hq & Hv).
    { apply (passes_invariant (bfs_step max_iterations word)
               (fun st => search_inv g (derives g) (bfs_search st))) in Hp; [done| |].
      - intros st1 st2 Hinv Hstep.
        pose proof (bfs_step_ok g max_iterations word (derives g) Hclosed st1 Hinv) as H.
        rewrite Hstep in H. apply H.
      - apply search_inv_init; [apply same_view_refl | by apply derives_start]. }
    destruct Hx as [Hx|Hx]; [by apply Hv, Hq | by apply Hv].
  - intros fuel self' Hne Hret.
    apply (belongs_to_grammar_true_inv max_iterations) in Hret; [|done].
    destruct (bfs_parse_total g max_iterations word g (derives g) (same_view_refl g)
                Hclosed (derives_start g)) as (b & self0 & Hret0 & _ & Hb).
    rewrite Hret in Hret0. injection Hret0 as <- <-. by apply Hb.
Qed.

Lemma bfs_parse_sound_witness : derives example_grammar (py "abab").
Proof.
  apply (proj2 (bfs_parse_sound example_grammar (py "abab")) 0 example_grammar).
  - done.
  - by vm_compute.
Defined.

(** C9. On the example grammar, for positive bounds, [generate_words] returns,
    and every word of the returned list has as many [a]s as [b]s. *)
Theorem example_words_equal_counts max_length max_words :
  (0 < max_length)%Z → (0 < max_words)%Z →
  (∃ ws self',
     returns (fun fuel => generate_words fuel example_grammar max_length max_words)
             (ws, self')) ∧
  (∀ fuel ws self' w,
     generate_words fuel example_grammar max_length max_words = Returned (ws, self') →
     w ∈ ws → count "a" w = count "b" w).
Proof.
  intros _ _.
  assert (gen_closed example_grammar max_length balanced) as Hclosed.
  { intros s e Hs _ _ He _. by eapply example_lstep_balanced. }
  assert (∀ start, start_symbol example_grammar = Some start → balanced start) as Hstart.
  { intros start [= <-]. by vm_compute. }
  split.
  - destruct (generate_words_total example_grammar max_length max_words example_grammar
                balanced (same_view_refl _) Hclosed Hstart) as (ws & self' & Hret & _).
    by exists ws, self'.
  - intros fuel ws self' w Hret Hw.
    destruct (generate_words_returned example_grammar max_length max_words
                example_grammar balanced fuel ws self' (same_view_refl _)
                Hclosed Hstart Hret) as (_ & _ & _ & _ & Hws).
    destruct (Hws w Hw) as (Hbal & Hterm & _).
    destruct (example_terminal_count w Hterm) as [HA HB].
    unfold balanced in Hbal. lia.
Qed.

Lemma example_words_equal_counts_witness :
  count "a" (py "abba") = count "b" (py "abba").
Proof.
  apply (proj2 (example_words_equal_counts 4 50 ltac:(lia) ltac:(lia)) 100
           [py "aabb"; py "ab"; py "abab"; py "abba";
            py "ba"; py "baab"; py "baba"; py "bbaa"] example_grammar).
  - by vm_compute.
  - do 3 right. left.
Defined.

(** C10. On the example grammar [belongs_to_grammar("")] returns [False], and
    the search behind it never meets the empty form: no pass of its loop has
    it in the queue or in the visited set. *)
Theorem belongs_empty_word_example :
  (∃ self', returns (fun fuel => belongs_to_grammar fuel example_grammar [])
                    (false, self')) ∧
  (∀ n st,
     passes n empty_step (mkSearch example_grammar [py "S"] {[py "S"]}) = Some st →
     ([] ∉ queue st) ∧ ([] ∉ visited st)).
Proof.
  assert (empty_closed example_grammar (fun x => x ≠ [])) as Hclosed.
  { intros s e _ _ _ He _. by apply (lstep_nonempty example_grammar s e). }
  split.
  - destruct (can_produce_empty_total example_grammar example_grammar
                (fun x => x ≠ []) (py "S") (same_view_refl _) eq_refl Hclosed)
      as (b & self' & Hret & _ & Hb); [done|].
    destruct b; [by destruct Hb|]. by exists self'.
  - intros n st Hp.
    destruct (empty_passes_inv example_grammar example_grammar (fun x => x ≠ [])
                (py "S") n st (same_view_refl _) eq_refl Hclosed ltac:(done) Hp)
      as (_ & Hq & Hv).
    split; intros Hin; [by apply (Hv [] (Hq [] Hin)) | by apply (Hv [] Hin)].
Qed.

(** * Parsing, and what the searches reach *)

(** ** [str.split] and [str.join] *)

Lemma split_not_nil sep s : split sep s ≠ [].
Proof.
  destruct s as [|c s]; simpl; [done|].
  destruct (Ascii.eqb c sep); [done|]. by destruct (split sep s).
Qed.

Lemma join_cons_cons sep x y l : join sep (x :: y :: l) = x ++ sep ++ join sep (y :: l).
Proof. done. Qed.

Lemma join_split sep s : join [sep] (split sep s) = s.
Proof.
  induction s as [|c s IH]; [done|]. cbn [split].
  pose proof (split_not_nil sep s) as Hnil.
  destruct (Ascii.eqb_spec c sep) as [->|Hne];
    destruct (split sep s) as [|field fields]; try done.
  - by rewrite join_cons_cons, IH.
  - destruct fields as [|field' fields].
    + cbn [join] in *. by rewrite IH.
    + rewrite join_cons_cons in *. rewrite <- IH. done.
Qed.

Lemma split_fields sep s : Forall (fun field => sep ∉ field) (split sep s).
Proof.
  induction s as [|c s IH]; simpl.
  - constructor; [by intros ?%elem_of_nil | constructor].
  - destruct (Ascii.eqb_spec c sep) as [->|Hne].
    + constructor; [by intros ?%elem_of_nil | done].
    + destruct (split sep s) as [|field fields]; inversion IH; subst.
      * constructor; [|constructor]. by intros ->%list_elem_of_singleton.
      * constructor; [|done]. intros [->|?]%elem_of_cons; done.
Qed.

Lemma split_length sep s : length (split sep s) = S (count sep s).
Proof.
  induction s as [|c s IH]; simpl; [done|].
  destruct (Ascii.eqb c sep); simpl; [by rewrite IH|].
  pose proof (split_not_nil sep s) as Hnil.
  destruct (split sep s) as [|field fields]; [done|]. simpl in *. lia.
Qed.

Lemma split_no_sep sep s : sep ∉ s → split sep s = [s].
Proof.
  induction s as [|c s IH]; simpl; [done|]. intros Hs.
  destruct (Ascii.eqb_spec c sep) as [->|Hne]; [destruct Hs; by left|].
  rewrite IH; [done|]. intros ?. apply Hs. by right.
Qed.

Lemma split_app_sep sep s t :
  sep ∉ s → split sep (s ++ sep :: t) = s :: split sep t.
Proof.
  induction s as [|c s IH]; simpl; intros Hs.
  - by rewrite Ascii.eqb_refl.
  - destruct (Ascii.eqb_spec c sep) as [->|Hne]; [destruct Hs; by left|].
    rewrite IH; [done|]. intros ?. apply Hs. by right.
Qed.

Lemma split_head sep s first fields :
  split sep s = first :: fields → ∃ after, s = first ++ after.
Proof.
  revert first fields. induction s as [|c s IH]; intros first fields; simpl.
  - intros [= <- <-]. by exists [].
  - destruct (Ascii.eqb_spec c sep) as [->|Hne].
    + intros [= <- <-]. by exists (sep :: s).
    + destruct (split sep s) as [|first' fields'] eqn:E; intros [= <- <-].
      * by exists s.
      * destruct (IH _ _ eq_refl) as [after ->]. by exists after.
Qed.

(** Every field of [s.split(sep)] is a contiguous part of [s]. *)
Lemma split_infix sep s field :
  field ∈ split sep s → ∃ before after, s = before ++ field ++ after.
Proof.
  revert field. induction s as [|c s IH]; intros field; simpl.
  - intros ->%list_elem_of_singleton. by exists [], [].
  - destruct (Ascii.eqb_spec c sep) as [->|Hne].
    + intros [->|Hin]%elem_of_cons.
      * by exists [], (sep :: s).
      * destruct (IH _ Hin) as (before & after & ->). by exists (sep :: before), after.
    + pose proof (split_not_nil sep s) as Hnil.
      destruct (split sep s) as [|first fields] eqn:E; [done|].
      intros [->|Hin]%elem_of_cons.
      * destruct (split_head sep s first fields E) as [after ->].
        by exists [], after.
      * destruct (IH field ltac:(by right)) as (before & after & ->).
        by exists (c :: before), after.
Qed.

Lemma split_join sep l :
  l ≠ [] → Forall (fun field => sep ∉ field) l → split sep (join [sep] l) = l.
Proof.
  induction l as [|x l IH]; [done|]. intros _ Hl.
  inversion Hl as [|? ? Hx Hl']; subst.
  destruct l as [|y l]; [by apply split_no_sep|].
  rewrite join_cons_cons. cbn [app]. rewrite split_app_sep by done.
  by rewrite IH.
Qed.

(** ** [str.strip] *)

(** A string with no whitespace at either end. *)
Definition stripped (t : str) : Prop :=
  (∀ c t', t = c :: t' → isspace c = false) ∧
  (∀ c t', t = t' ++ [c] → isspace c = false).

Lemma lstrip_spec s :
  ∃ l, s = l ++ lstrip s ∧ Forall (fun c => isspace c = true) l ∧
       (∀ c t, lstrip s = c :: t → isspace c = false).
Proof.
  induction s as [|c s (l & Hs & Hl & Hhead)]; simpl.
  - exists []. by repeat split.
  - destruct (isspace c) eqn:E.
    + exists (c :: l). simpl. rewrite <- Hs. split; [done|]. split; [by constructor|done].
    + exists []. split; [done|]. split; [constructor|]. by intros ? ? [= <- <-].
Qed.

Lemma lstrip_fixed t : (∀ c t', t = c :: t' → isspace c = false) → lstrip t = t.
Proof. destruct t as [|c t]; [done|]. intros H. simpl. by rewrite (H c t). Qed.

(** [s.strip()] is [s] without a run of whitespace at each end. *)
Lemma strip_spec s :
  ∃ l r, s = l ++ strip s ++ r ∧
    Forall (fun c => isspace c = true) l ∧ Forall (fun c => isspace c = true) r ∧
    stripped (strip s).
Proof.
  unfold strip.
  destruct (lstrip_spec s) as (l & Hs & Hl & Hhead).
  destruct (lstrip_spec (rev (lstrip s))) as (r' & Hu & Hr' & Hhead').
  set (u := lstrip s) in *. set (v := lstrip (rev u)) in *.
  assert (u = rev v ++ rev r') as Hu'.
  { rewrite <- (rev_involutive u), Hu, rev_app_distr. done. }
  exists l, (rev r'). split; [by rewrite <- Hu'|]. split; [done|].
  split; [by apply Forall_rev|]. split.
  - intros c t' Heq. apply (Hhead c (t' ++ rev r')).
    rewrite Hu', Heq. done.
  - intros c t' Heq. apply (Hhead' c (rev t')).
    rewrite <- (rev_involutive v), Heq, rev_app_distr. done.
Qed.

Lemma strip_fixed t : stripped t → strip t = t.
Proof.
  intros [Hhead Hlast]. unfold strip. rewrite (lstrip_fixed t) by done.
  rewrite lstrip_fixed; [apply rev_involutive|].
  intros c t' Heq. apply (Hlast c (rev t')).
  rewrite <- (rev_involutive t), Heq. done.
Qed.

Lemma strip_nil_iff s : strip s = [] ↔ Forall (fun c => isspace c = true) s.
Proof.
  destruct (strip_spec s) as (l & r & Hs & Hl & Hr & Hhead & _). split.
  - intros Hnil. rewrite Hnil in Hs. rewrite Hs. simpl. by apply Forall_app.
  - intros Hall. destruct (strip s) as [|c t] eqn:E; [done|].
    rewrite Hs in Hall. apply Forall_app in Hall as [_ Hall].
    inversion Hall as [|? ? Hc _]; subst. by rewrite (Hhead c t) in Hc.
Qed.

(** ** The first [->] of a line *)

Definition has_arrow (line : str) : Prop :=
  ∃ l r, line = l ++ "-"%char :: ">"%char :: r.

Lemma split_arrow_cons c line :
  split_arrow (c :: line)
  = match line with
    | d :: rhs =>
        if Ascii.eqb c "-" && Ascii.eqb d ">" then Some ([], rhs)
        else match split_arrow line with
             | Some (lhs, rhs) => Some (c :: lhs, rhs)
             | None => None
             end
    | [] => match split_arrow line with
            | Some (lhs, rhs) => Some (c :: lhs, rhs)
            | None => None
            end
    end.
Proof.
  destruct line as [|d rhs].
  - by destruct c as [[] [] [] [] [] [] [] []].
  - destruct (Ascii.eqb_spec c "-") as [->|Hc].
    + destruct (Ascii.eqb_spec d ">") as [->|Hd]; [done|].
      cbn [andb]. by destruct d as [[] [] [] [] [] [] [] []].
    + cbn [andb]. by destruct c as [[] [] [] [] [] [] [] []].
Qed.

Lemma split_arrow_Some line lhs rhs :
  split_arrow line = Some (lhs, rhs) →
  line = lhs ++ "-"%char :: ">"%char :: rhs ∧ ¬ has_arrow (lhs ++ ["-"%char]).
Proof.
  revert lhs rhs. induction line as [|c line IH]; intros lhs rhs; [done|].
  rewrite split_arrow_cons.
  assert ((∀ d line', line = d :: line' → Ascii.eqb c "-" && Ascii.eqb d ">" = false) →
          match split_arrow line with
          | Some (lhs0, rhs0) => Some (c :: lhs0, rhs0)
          | None => None
          end = Some (lhs, rhs) →
          c :: line = lhs ++ "-"%char :: ">"%char :: rhs ∧
          ¬ has_arrow (lhs ++ ["-"%char])) as Hrec.
  { intros Hcond H.
    destruct (split_arrow line) as [[lhs0 rhs0]|]; [|done].
    injection H as <- <-. destruct (IH _ _ eq_refl) as [Hline Hno].
    split; [by rewrite Hline|]. intros (l & r & Heq).
    destruct l as [|a l]; simpl in Heq.
    - injection Heq as -> Heq.
      destruct lhs0 as [|b lhs0]; simpl in Heq; [done|].
      injection Heq as -> _. simpl in Hline.
      by specialize (Hcond _ _ Hline).
    - injection Heq as _ Heq. apply Hno. by exists l, r. }
  destruct line as [|d line']; [by apply Hrec|].
  destruct (Ascii.eqb c "-" && Ascii.eqb d ">") eqn:E.
  - apply andb_true_iff in E as [->%Ascii.eqb_eq ->%Ascii.eqb_eq].
    intros [= <- <-]. split; [done|]. intros (l & r & Heq).
    by destruct l as [|? [|? ?]].
  - apply Hrec. by intros ? ? [= <- <-].
Qed.

Lemma split_arrow_None line : split_arrow line = None ↔ ¬ has_arrow line.
Proof.
  split.
  - induction line as [|c line IH]; [intros _ (l & r & Heq); by destruct l|].
    rewrite split_arrow_cons. intros H (l & r & Heq).
    destruct l as [|a l]; simpl in Heq.
    + injection Heq as -> ->. simpl in H. done.
    + injection Heq as -> ->.
      assert (split_arrow (l ++ "-"%char :: ">"%char :: r) = None) as Hnone.
      { destruct (l ++ "-"%char :: ">"%char :: r) as [|d rest]; [done|].
        destruct (Ascii.eqb a "-" && Ascii.eqb d ">"); [done|].
        by destruct (split_arrow (d :: rest)) as [[? ?]|]. }
      apply (IH Hnone). by exists l, r.
  - intros Hno. destruct (split_arrow line) as [[lhs rhs]|] eqn:E; [|done].
    destruct (split_arrow_Some _ _ _ E) as [-> _]. destruct Hno. by eexists _, _.
Qed.

Lemma has_arrow_infix before line after :
  has_arrow line → has_arrow (before ++ line ++ after).
Proof.
  intros (l & r & ->). exists (before ++ l), (r ++ after).
  by rewrite <- !(assoc_L (++)).
Qed.

(** ** [parse_grammar]: what a text changes *)

(** The lines [parse_grammar] works on. *)
Definition grammar_lines (grammar_text : str) : list str :=
  map strip
      (List.filter (fun line => negb (bool_decide (strip line = [])))
                   (split "010" (strip grammar_text))).

Lemma parse_grammar_lines self grammar_text :
  parse_grammar self grammar_text = fold_left parse_line (grammar_lines grammar_text) self.
Proof. done. Qed.

Lemma fold_left_rel {A B} (R : A → A → Prop) (f : A → B → A) (l : list B) (a : A) :
  (∀ x, R x x) → (∀ x y z, R x y → R y z → R x z) → (∀ x b, R x (f x b)) →
  R a (fold_left f l a).
Proof.
  intros Hrefl Htrans Hstep. revert a.
  induction l as [|b l IH]; intros a; simpl; [apply Hrefl|].
  eapply Htrans; [apply Hstep | apply IH].
Qed.

Lemma fold_left_inv {A B} (P : A → Prop) (f : A → B → A) (l : list B) (a : A) :
  (∀ x b, P x → P (f x b)) → P a → P (fold_left f l a).
Proof.
  intros Hstep. revert a. induction l as [|b l IH]; intros a Ha; simpl; [done|].
  by apply IH, Hstep.
Qed.

Lemma has_arrow_app x y :
  has_arrow (x ++ y) →
  has_arrow x ∨ has_arrow y ∨ (∃ x' y', x = x' ++ ["-"%char] ∧ y = ">"%char :: y').
Proof.
  revert y. induction x as [|c x IH]; intros y; [by right; left|].
  intros (l & r & Heq). destruct l as [|a l]; simpl in Heq.
  - injection Heq as -> Heq. destruct x as [|d x]; simpl in Heq.
    + right. right. exists [], r. done.
    + injection Heq as -> <-. left. by exists [], x.
  - injection Heq as -> Heq.
    destruct (IH y ltac:(by exists l, r)) as [(l' & r' & ->)|[Hy|(x' & y' & -> & ->)]].
    + left. by exists (a :: l'), r'.
    + by right; left.
    + right. right. by exists (a :: x'), y'.
Qed.

Lemma has_arrow_not_space s : has_arrow s → ¬ Forall (fun c => isspace c = true) s.
Proof.
  intros (l & r & ->) Hall. apply Forall_app in Hall as [_ Hall].
  by inversion Hall.
Qed.

(** Whitespace around a string neither hides nor makes an arrow. *)
Lemma has_arrow_strip s : has_arrow (strip s) ↔ has_arrow s.
Proof.
  destruct (strip_spec s) as (l & r & Hs & Hl & Hr & _). split.
  - intros H. rewrite Hs. by apply has_arrow_infix.
  - rewrite Hs at 1. intros H.
    apply has_arrow_app in H as [H|[H|(x' & y' & -> & _)]].
    + by apply has_arrow_not_space in H.
    + apply has_arrow_app in H as [H|[H|(x' & y' & _ & ->)]]; [done| |].
      * by apply has_arrow_not_space in H.
      * by inversion Hr.
    + apply Forall_app in Hl as [_ Hl]. by inversion Hl.
Qed.

Lemma has_arrow_join sep fields :
  sep ≠ "-"%char → sep ≠ ">"%char →
  has_arrow (join [sep] fields) → ∃ field, field ∈ fields ∧ has_arrow field.
Proof.
  intros Hs1 Hs2. induction fields as [|x fields IH]; simpl.
  - intros (l & r & Heq). by destruct l.
  - destruct fields as [|y fields]; [intros H; exists x; split; [left|done]|].
    intros H. apply has_arrow_app in H as [H|[H|(x' & y' & _ & Heq)]].
    + exists x. split; [left|done].
    + apply (has_arrow_app [sep]) in H as [(l & r & Heq)|[H|(x' & y' & Heq & _)]].
      * by destruct l as [|? [|? ?]].
      * destruct (IH H) as (field & Hin & Hf). exists field. split; [by right|done].
      * destruct x' as [|? [|? ?]]; by simplify_eq/=.
    + by simplify_eq/=.
Qed.

(** A text has a line with an arrow exactly when it has an arrow. *)
Lemma grammar_lines_arrow grammar_text :
  (∃ line, line ∈ grammar_lines grammar_text ∧ has_arrow line) ↔ has_arrow grammar_text.
Proof.
  unfold grammar_lines. split.
  - intros (line & Hin & Harrow).
    apply list_elem_of_fmap in Hin as (field & -> & Hin).
    apply list_elem_of_In, filter_In in Hin as [Hin%list_elem_of_In _].
    apply split_infix in Hin as (before & after & Heq).
    apply has_arrow_strip. rewrite Heq. apply has_arrow_infix.
    by apply has_arrow_strip.
  - intros Harrow%has_arrow_strip.
    rewrite <- (join_split "010" (strip grammar_text)) in Harrow.
    apply has_arrow_join in Harrow as (field & Hin & Hf); [|done..].
    exists (strip field). split; [|by apply has_arrow_strip].
    apply list_elem_of_fmap. exists field. split; [done|].
    apply list_elem_of_In, filter_In. split; [by apply list_elem_of_In|].
    apply negb_true_iff, bool_decide_eq_false. intros Hnil%strip_nil_iff.
    by apply has_arrow_not_space in Hf.
Qed.

(** [self'] holds everything [self] holds: the same alphabets or larger, the
    same start symbol if [self] has one, the same keys or more, and under each
    key of [self] its right-hand sides followed by new ones. *)
Definition grows (self self' : GrammarProcessor) : Prop :=
  terminals self ⊆ terminals self' ∧
  non_terminals self ⊆ non_terminals self' ∧
  (∀ start, start_symbol self = Some start → start_symbol self' = Some start) ∧
  (∀ key stored, productions self !! key = Some stored →
     ∃ added, productions self' !! key = Some (stored ++ added)).

Lemma grows_refl self : grows self self.
Proof.
  repeat split; try done. intros key stored H. exists []. by rewrite app_nil_r.
Qed.

Lemma grows_trans x y z : grows x y → grows y z → grows x z.
Proof.
  intros (Ht & Hn & Hs & Hp) (Ht' & Hn' & Hs' & Hp').
  split; [set_solver|]. split; [set_solver|]. split; [auto|].
  intros key stored H. destruct (Hp _ _ H) as [added H1].
  destruct (Hp' _ _ H1) as [added' H2]. exists (added ++ added').
  by rewrite (assoc_L (++)).
Qed.

Lemma classify_grows self char : grows self (classify self char).
Proof.
  unfold classify. destruct (isupper char); [|destruct (islower char)];
    [| |apply grows_refl]; (split; [simpl; set_solver|]);
    (split; [simpl; set_solver|]); (split; [done|]); simpl;
    intros key stored H; exists []; by rewrite app_nil_r.
Qed.

Lemma fold_classify_grows self prod : grows self (fold_left classify prod self).
Proof.
  apply (fold_left_rel grows); [apply grows_refl | apply grows_trans | apply classify_grows].
Qed.

Lemma fold_classify_productions self prod :
  productions (fold_left classify prod self) = productions self.
Proof.
  apply (fold_left_rel (fun x y => productions y = productions x));
    [done | congruence |].
  intros x c. unfold classify. by destruct (isupper c), (islower c).
Qed.

(** [self.productions[left].append(prod)]: the new right-hand side goes after
    those stored under [left]; no other key changes. *)
Lemma add_production_lookup left self prod key :
  productions (add_production left self prod) !! key
  = if decide (key = left) then Some (rules self left ++ [prod])
    else productions self !! key.
Proof.
  unfold add_production, defaultdict_getitem, rules.
  destruct (productions self !! left) as [stored|] eqn:E;
    rewrite fold_classify_productions; simpl;
    (destruct (decide (key = left)) as [->|Hne];
     [by rewrite lookup_insert_eq | rewrite !lookup_insert_ne by done; done]).
Qed.

Lemma fold_classify_indep prod x y :
  terminals x = terminals y → non_terminals x = non_terminals y →
  start_symbol x = start_symbol y →
  terminals (fold_left classify prod x) = terminals (fold_left classify prod y) ∧
  non_terminals (fold_left classify prod x) = non_terminals (fold_left classify prod y) ∧
  start_symbol (fold_left classify prod x) = start_symbol (fold_left classify prod y).
Proof.
  revert x y. induction prod as [|c prod IH]; intros x y Ht Hn Hs; simpl; [done|].
  apply IH; unfold classify; destruct (isupper c), (islower c); simpl;
    rewrite ?Ht, ?Hn, ?Hs; done.
Qed.

Lemma add_production_grows left self prod : grows self (add_production left self prod).
Proof.
  pose proof (fold_classify_grows self prod) as (Ht & Hn & Hs & _).
  assert (terminals (add_production left self prod) = terminals (fold_left classify prod self) ∧
          non_terminals (add_production left self prod)
          = non_terminals (fold_left classify prod self) ∧
          start_symbol (add_production left self prod)
          = start_symbol (fold_left classify prod self)) as (Et' & En' & Es').
  { unfold add_production. destruct (defaultdict_getitem _ _) as [stored d].
    by apply fold_classify_indep. }
  split; [by rewrite Et'|]. split; [by rewrite En'|].
  split; [intros start Hstart; rewrite Es'; auto|].
  intros key stored H. rewrite add_production_lookup.
  destruct (decide (key = left)) as [->|Hne].
  - unfold rules. rewrite H. by exists [prod].
  - exists []. by rewrite app_nil_r.
Qed.

Lemma parse_line_grows self line : grows self (parse_line self line).
Proof.
  unfold parse_line. destruct (split_arrow line) as [[lhs rhs]|]; [|apply grows_refl].
  eapply grows_trans;
    [|apply (fold_left_rel grows);
       [apply grows_refl | apply grows_trans | apply add_production_grows]].
  split; [done|]. split; [simpl; set_solver|]. split.
  - simpl. by intros start ->.
  - simpl. intros key stored H. exists []. by rewrite app_nil_r.
Qed.

Lemma parse_grammar_grows_aux self grammar_text : grows self (parse_grammar self grammar_text).
Proof.
  rewrite parse_grammar_lines.
  apply (fold_left_rel grows); [apply grows_refl | apply grows_trans | apply parse_line_grows].
Qed.

Lemma parse_line_no_arrow self line : ¬ has_arrow line → parse_line self line = self.
Proof. intros H%split_arrow_None. unfold parse_line. by rewrite H. Qed.

Lemma parse_grammar_no_arrow self grammar_text :
  ¬ has_arrow grammar_text → parse_grammar self grammar_text = self.
Proof.
  intros Hno. rewrite parse_grammar_lines.
  assert (Forall (fun line => ¬ has_arrow line) (grammar_lines grammar_text)) as Hall.
  { apply Forall_forall. intros line Hin Harrow. apply Hno, grammar_lines_arrow. eauto. }
  induction Hall as [|line lines Hline _ IH]; simpl; [done|].
  by rewrite parse_line_no_arrow.
Qed.

Lemma grows_rules_length x y key : grows x y → length (rules x key) ≤ length (rules y key).
Proof.
  intros (_ & _ & _ & Hp). unfold rules.
  destruct (productions x !! key) as [stored|] eqn:E; simpl; [|lia].
  destruct (Hp _ _ E) as [added ->]. simpl. rewrite length_app. lia.
Qed.

Lemma fold_add_production_rules left prods self :
  rules (fold_left (add_production left) prods self) left = rules self left ++ prods.
Proof.
  revert self. induction prods as [|p prods IH]; intros self; simpl.
  - by rewrite app_nil_r.
  - rewrite IH. unfold rules at 1. rewrite add_production_lookup, decide_True by done.
    simpl. by rewrite <- (assoc_L (++)).
Qed.

(** A line with an arrow stores at least one more right-hand side under its
    left-hand side. *)
Lemma parse_line_arrow self line :
  has_arrow line →
  ∃ left, length (rules self left) < length (rules (parse_line self line) left) ∧
          is_Some (start_symbol (parse_line self line)).
Proof.
  intros Harrow. unfold parse_line.
  destruct (split_arrow line) as [[lhs rhs]|] eqn:E;
    [|by apply split_arrow_None in E].
  exists (strip lhs). split.
  - rewrite fold_add_production_rules. unfold rules at 2. simpl.
    fold (rules self (strip lhs)). rewrite length_app, length_map.
    pose proof (split_not_nil "|" rhs). destruct (split "|" rhs); [done|]. simpl. lia.
  - match goal with |- is_Some (start_symbol (fold_left _ _ ?s)) =>
      pose proof (fold_left_rel grows (add_production (strip lhs))
                    (map strip (split "|" rhs)) s grows_refl grows_trans
                    (add_production_grows (strip lhs))) as (_ & _ & Hs & _)
    end.
    simpl in Hs. destruct (start_symbol self) as [start|]; erewrite Hs; done.
Qed.

Lemma fold_parse_line_arrow lines self :
  (∃ line, line ∈ lines ∧ has_arrow line) →
  (∃ left, length (rules self left) < length (rules (fold_left parse_line lines self) left)) ∧
  is_Some (start_symbol (fold_left parse_line lines self)).
Proof.
  revert self. induction lines as [|line lines IH]; intros self (l & Hin & Harrow).
  - by apply elem_of_nil in Hin.
  - simpl.
    pose proof (fold_left_rel grows parse_line lines (parse_line self line)
                  grows_refl grows_trans parse_line_grows) as Hrest.
    pose proof (parse_line_grows self line) as Hfirst.
    apply elem_of_cons in Hin as [->|Hin].
    + destruct (parse_line_arrow self line Harrow) as (left & Hlen & [start Hstart]).
      split.
      * exists left. pose proof (grows_rules_length _ _ left Hrest). lia.
      * destruct Hrest as (_ & _ & Hs & _). rewrite (Hs _ Hstart). done.
    + destruct (IH (parse_line self line) ltac:(eauto)) as [(left & Hlen) Hstart].
      split; [|done]. exists left.
      pose proof (grows_rules_length _ _ left Hfirst). lia.
Qed.

(** ** What [parse_grammar] stores *)

Lemma isupper_islower c : isupper c = true → islower c = false.
Proof.
  unfold isupper, islower. generalize (N_of_ascii c). intros n.
  rewrite !orb_true_iff, !andb_true_iff, !N.leb_le. intros H.
  rewrite !orb_false_iff, !andb_false_iff, !N.leb_gt, !N.eqb_neq. lia.
Qed.

Lemma fold_classify_start self prod :
  start_symbol (fold_left classify prod self) = start_symbol self.
Proof.
  apply (fold_left_rel (fun x y => start_symbol y = start_symbol x));
    [done | congruence |].
  intros x c. unfold classify. by destruct (isupper c), (islower c).
Qed.

Lemma fold_classify_non_terminals prod self n :
  n ∈ non_terminals (fold_left classify prod self) ↔
  n ∈ non_terminals self ∨ ∃ c, c ∈ prod ∧ n = [c] ∧ isupper c = true.
Proof.
  revert self. induction prod as [|c prod IH]; intros self; simpl.
  - split; [by left|]. intros [?|(c & Hc%elem_of_nil & _)]; done.
  - rewrite IH. unfold classify.
    destruct (isupper c) eqn:Eu; [|destruct (islower c) eqn:El]; simpl.
    + rewrite elem_of_union, elem_of_singleton. split.
      * intros [[->|?]|(c' & ? & ? & ?)]; [right; exists c; split; [left|done] | by left |].
        right. exists c'. split; [by right|done].
      * intros [?|(c' & [->|?]%elem_of_cons & -> & ?)]; [by left; right | by left; left |].
        right. by exists c'.
    + split.
      * intros [?|(c' & ? & ? & ?)]; [by left|]. right. exists c'. split; [by right|done].
      * intros [?|(c' & [->|?]%elem_of_cons & -> & ?)]; [by left | congruence |].
        right. by exists c'.
    + split.
      * intros [?|(c' & ? & ? & ?)]; [by left|]. right. exists c'. split; [by right|done].
      * intros [?|(c' & [->|?]%elem_of_cons & -> & ?)]; [by left | congruence |].
        right. by exists c'.
Qed.

Lemma fold_classify_terminals prod self t :
  t ∈ terminals (fold_left classify prod self) ↔
  t ∈ terminals self ∨ ∃ c, c ∈ prod ∧ t = [c] ∧ islower c = true.
Proof.
  revert self. induction prod as [|c prod IH]; intros self; simpl.
  - split; [by left|]. intros [?|(c & Hc%elem_of_nil & _)]; done.
  - rewrite IH. unfold classify.
    destruct (isupper c) eqn:Eu; [|destruct (islower c) eqn:El]; simpl.
    + apply isupper_islower in Eu. split.
      * intros [?|(c' & ? & ? & ?)]; [by left|]. right. exists c'. split; [by right|done].
      * intros [?|(c' & [->|?]%elem_of_cons & -> & ?)]; [by left | congruence |].
        right. by exists c'.
    + rewrite elem_of_union, elem_of_singleton. split.
      * intros [[->|?]|(c' & ? & ? & ?)]; [right; exists c; split; [left|done] | by left |].
        right. exists c'. split; [by right|done].
      * intros [?|(c' & [->|?]%elem_of_cons & -> & ?)]; [by left; right | by left; left |].
        right. by exists c'.
    + split.
      * intros [?|(c' & ? & ? & ?)]; [by left|]. right. exists c'. split; [by right|done].
      * intros [?|(c' & [->|?]%elem_of_cons & -> & ?)]; [by left | congruence |].
        right. by exists c'.
Qed.

Lemma add_production_sets left self prod :
  terminals (add_production left self prod) = terminals (fold_left classify prod self) ∧
  non_terminals (add_production left self prod)
  = non_terminals (fold_left classify prod self) ∧
  start_symbol (add_production left self prod) = start_symbol self.
Proof.
  rewrite <- (fold_classify_start self prod).
  unfold add_production. destruct (defaultdict_getitem _ _) as [stored d].
  by apply fold_classify_indep.
Qed.

(** The shape [parse_grammar] gives a processor. *)
Definition well_formed (self : GrammarProcessor) : Prop :=
  (∀ key, is_Some (productions self !! key) → key ∈ non_terminals self) ∧
  (∀ key, productions self !! key ≠ Some []) ∧
  (∀ start, start_symbol self = Some start → is_Some (productions self !! start)) ∧
  (∀ n, n ∈ non_terminals self →
     is_Some (productions self !! n) ∨ ∃ c, n = [c] ∧ isupper c = true) ∧
  (∀ t, t ∈ terminals self → ∃ c, t = [c] ∧ islower c = true) ∧
  (∀ key stored rhs c,
     productions self !! key = Some stored → rhs ∈ stored → c ∈ rhs →
     (isupper c = true → [c] ∈ non_terminals self) ∧
     (islower c = true → [c] ∈ terminals self)).

(** The same while the productions of [left] are being stored: [left] is
    declared, and may have no production yet. *)
Definition storing (left : str) (self : GrammarProcessor) : Prop :=
  left ∈ non_terminals self ∧
  (∀ key, is_Some (productions self !! key) → key ∈ non_terminals self) ∧
  (∀ key, productions self !! key ≠ Some []) ∧
  (∀ start, start_symbol self = Some start →
     start = left ∨ is_Some (productions self !! start)) ∧
  (∀ n, n ∈ non_terminals self →
     n = left ∨ is_Some (productions self !! n) ∨ ∃ c, n = [c] ∧ isupper c = true) ∧
  (∀ t, t ∈ terminals self → ∃ c, t = [c] ∧ islower c = true) ∧
  (∀ key stored rhs c,
     productions self !! key = Some stored → rhs ∈ stored → c ∈ rhs →
     (isupper c = true → [c] ∈ non_terminals self) ∧
     (islower c = true → [c] ∈ terminals self)).

Lemma well_formed_init : well_formed __init__.
Proof.
  unfold well_formed, __init__. simpl.
  split; [by intros key [? H]|]. split; [done|]. split; [done|].
  split; [by intros n ?%elem_of_empty|]. split; [by intros t ?%elem_of_empty|].
  by intros key stored rhs c.
Qed.

Lemma add_production_storing left self prod :
  storing left self →
  storing left (add_production left self prod) ∧
  is_Some (productions (add_production left self prod) !! left).
Proof.
  intros (Hleft & Hkeys & Hne & Hstart & Hnts & Hts & Hrhs).
  destruct (add_production_sets left self prod) as (Et & En & Es).
  assert (∀ key, is_Some (productions self !! key) →
                 is_Some (productions (add_production left self prod) !! key)) as Hkept.
  { intros key H. rewrite add_production_lookup. by destruct (decide (key = left)). }
  split; [|by rewrite add_production_lookup, decide_True].
  split; [rewrite En; apply fold_classify_non_terminals; by left|].
  split.
  { intros key. rewrite add_production_lookup, En, fold_classify_non_terminals.
    destruct (decide (key = left)) as [->|_]; intros H; left; auto. }
  split.
  { intros key. rewrite add_production_lookup.
    destruct (decide (key = left)) as [->|_]; [|done].
    intros [= H]. by destruct (rules self left). }
  split.
  { intros start. rewrite Es. intros [->|H]%Hstart; [by left | right; auto]. }
  split.
  { intros n. rewrite En, fold_classify_non_terminals.
    intros [[->|[H|H]]%Hnts|(c & _ & -> & Hc)]; [by left | right; left; auto | |].
    - right. by right.
    - right. right. by exists c. }
  split.
  { intros t. rewrite Et, fold_classify_terminals.
    intros [H|(c & _ & -> & Hc)]; [auto | by exists c]. }
  intros key stored rhs c. rewrite add_production_lookup, En, Et,
    fold_classify_non_terminals, fold_classify_terminals.
  assert (rhs ∈ rules self left →
          (isupper c = true → [c] ∈ non_terminals self) ∧
          (islower c = true → [c] ∈ terminals self) ∨ c ∉ rhs) as Hold.
  { unfold rules. destruct (productions self !! left) as [l|] eqn:E; simpl.
    - intros Hin. destruct (decide (c ∈ rhs)); [left; by eapply Hrhs | by right].
    - by intros ?%elem_of_nil. }
  destruct (decide (key = left)) as [->|_].
  - intros [= <-] [Hin|Heq%list_elem_of_singleton]%elem_of_app Hc; [|subst rhs].
    + destruct (Hold Hin) as [[Hu Hl]|]; [|done]. split; intros; left; auto.
    + split; intros; right; by exists c.
  - intros Hkey Hin Hc. destruct (Hrhs _ _ _ _ Hkey Hin Hc) as [Hu Hl].
    split; intros; left; auto.
Qed.

Lemma parse_line_well_formed self line : well_formed self → well_formed (parse_line self line).
Proof.
  intros (Hkeys & Hne & Hstart & Hnts & Hts & Hrhs). unfold parse_line.
  destruct (split_arrow line) as [[lhs rhs]|]; [|done].
  set (left := strip lhs).
  set (self1 := {| productions := productions self; terminals := terminals self;
                   non_terminals := {[left]} ∪ non_terminals self;
                   start_symbol := match start_symbol self with
                                   | None => Some left
                                   | Some start => Some start
                                   end |}).
  assert (storing left self1) as Hself1.
  { unfold storing, self1; simpl.
    split; [set_solver|]. split; [intros key H; apply elem_of_union; auto|].
    split; [done|]. split.
    { intros start. destruct (start_symbol self) as [s|] eqn:E; intros [= <-];
        [right; auto | by left]. }
    split.
    { intros n [->%elem_of_singleton|H]%elem_of_union; [by left | right; auto]. }
    split; [done|].
    intros key stored r c Hkey Hin Hc. destruct (Hrhs _ _ _ _ Hkey Hin Hc).
    split; [|done]. intros. apply elem_of_union. auto. }
  pose proof (split_not_nil "|" rhs) as Hnil.
  destruct (split "|" rhs) as [|p ps]; [done|]. cbn [map fold_left].
  apply add_production_storing with (prod := strip p) in Hself1.
  assert (storing left (fold_left (add_production left) (map strip ps)
                          (add_production left self1 (strip p))) ∧
          is_Some (productions (fold_left (add_production left) (map strip ps)
                                  (add_production left self1 (strip p))) !! left))
    as [(Hl & Hk & Hn & Hs & Hd & Ht & Hr) Hsome].
  { apply (fold_left_inv (fun x => storing left x ∧ is_Some (productions x !! left)));
      [|done]. intros x prod [Hx _]. by apply add_production_storing. }
  split; [done|]. split; [done|]. split.
  { intros start [->|H]%Hs; done. }
  split; [|done].
  intros n [->|H]%Hd; [by left | done].
Qed.

Lemma parse_grammar_well_formed_aux self grammar_text :
  well_formed self → well_formed (parse_grammar self grammar_text).
Proof.
  rewrite parse_grammar_lines. apply fold_left_inv. intros x line. apply parse_line_well_formed.
Qed.

(** ** What [parse_grammar] stores is stripped and split *)

Lemma fold_left_inv_in {A B} (P : A → Prop) (f : A → B → A) (l : list B) (a : A) :
  (∀ x b, b ∈ l → P x → P (f x b)) → P a → P (fold_left f l a).
Proof.
  revert a. induction l as [|b l IH]; intros a Hstep Ha; simpl; [done|].
  apply IH.
  - intros x b' Hin. apply Hstep. by right.
  - apply Hstep; [by left | done].
Qed.

Lemma not_elem_of_infix {A} (c : A) (before s after : list A) :
  c ∉ before ++ s ++ after → c ∉ s.
Proof. intros H Hin. apply H. apply elem_of_app. right. apply elem_of_app. by left. Qed.

Lemma not_elem_of_strip c s : c ∉ s → c ∉ strip s.
Proof.
  destruct (strip_spec s) as (l & r & Hs & _). rewrite Hs at 1.
  apply not_elem_of_infix.
Qed.

(** A stored left-hand side: stripped, on one line, and without an arrow. *)
Definition tidy_key (key : str) : Prop :=
  stripped key ∧ ¬ has_arrow key ∧ ("010"%char ∉ key).

(** A stored right-hand side: stripped, on one line, and without a bar. *)
Definition tidy_rhs (rhs : str) : Prop :=
  stripped rhs ∧ ("|"%char ∉ rhs) ∧ ("010"%char ∉ rhs).

Definition tidy (self : GrammarProcessor) : Prop :=
  ∀ key stored, productions self !! key = Some stored →
    tidy_key key ∧ Forall tidy_rhs stored.

Lemma add_production_tidy left self prod :
  tidy_key left → tidy_rhs prod → tidy self → tidy (add_production left self prod).
Proof.
  intros Hleft Hprod Htidy key stored. rewrite add_production_lookup.
  destruct (decide (key = left)) as [->|_]; [|apply Htidy].
  intros [= <-]. split; [done|]. apply Forall_app. split; [|by constructor].
  unfold rules. destruct (productions self !! left) as [l|] eqn:E; simpl; [|constructor].
  by apply (Htidy left).
Qed.

Lemma parse_line_tidy self line :
  ("010"%char ∉ line) → tidy self → tidy (parse_line self line).
Proof.
  intros Hnl Htidy. unfold parse_line.
  destruct (split_arrow line) as [[lhs rhs]|] eqn:E; [|done].
  destruct (split_arrow_Some _ _ _ E) as [Hline Hno].
  assert (("010"%char ∉ lhs) ∧ ("010"%char ∉ rhs)) as [Hl Hr].
  { rewrite Hline in Hnl. split; intros Hin; apply Hnl; apply elem_of_app;
      [by left | right; by do 2 right]. }
  assert (tidy_key (strip lhs)) as Hkey.
  { destruct (strip_spec lhs) as (l & r & Hs & _ & _ & Hstripped).
    split; [done|]. split; [|by apply not_elem_of_strip].
    intros Harrow. apply (proj1 (has_arrow_strip lhs)) in Harrow. apply Hno.
    destruct Harrow as (a & b & Heq). exists a, (b ++ ["-"%char]).
    rewrite Heq. by rewrite <- (assoc_L (++)). }
  apply fold_left_inv_in; [|done].
  intros x prod Hin Hx. apply add_production_tidy; [done| |done].
  apply list_elem_of_fmap in Hin as (field & -> & Hin).
  destruct (strip_spec field) as (l & r & Hs & _ & _ & Hstripped).
  split; [done|]. split.
  - apply not_elem_of_strip.
    by apply (proj1 (Forall_forall _ _) (split_fields "|" rhs)).
  - apply not_elem_of_strip. apply split_infix in Hin as (before & after & Heq).
    rewrite Heq in Hr. by apply not_elem_of_infix in Hr.
Qed.

Lemma grammar_lines_one_line grammar_text line :
  line ∈ grammar_lines grammar_text → ("010"%char ∉ line) ∧ stripped line ∧ line ≠ [].
Proof.
  unfold grammar_lines. intros Hin.
  apply list_elem_of_fmap in Hin as (field & -> & Hin).
  apply list_elem_of_In, filter_In in Hin as [Hin%list_elem_of_In Hne].
  apply negb_true_iff, bool_decide_eq_false in Hne.
  split; [|split; [|done]].
  - apply not_elem_of_strip.
    by apply (proj1 (Forall_forall _ _) (split_fields "010" (strip grammar_text))).
  - by destruct (strip_spec field) as (l & r & _ & _ & _ & Hstripped).
Qed.


(** ** What a search leaves in the processor *)

(** Partial correctness from an invariant alone. *)
Lemma run_invariant {St R : Type} (step : St → St + outcome R)
    (Inv : St → Prop) (Post : outcome R → Prop) :
  (∀ st, Inv st → match step st with inl st' => Inv st' | inr r => Post r end) →
  ∀ fuel st, Inv st → run fuel step st ≠ OutOfFuel → Post (run fuel step st).
Proof.
  intros Hstep. induction fuel as [|fuel IH]; intros st Hst; simpl; [done|].
  specialize (Hstep st Hst). destruct (step st); [by apply IH | done].
Qed.

(** [self] is [g] with, at most, some non-terminals that had no entry in
    [productions] now bound to the empty list. *)
Definition adds_empty_keys (g self : GrammarProcessor) : Prop :=
  terminals self = terminals g ∧
  non_terminals self = non_terminals g ∧
  start_symbol self = start_symbol g ∧
  ∀ key, productions self !! key = productions g !! key ∨
         (productions g !! key = None ∧ productions self !! key = Some [] ∧
          key ∈ non_terminals g).

Lemma adds_empty_keys_refl g : adds_empty_keys g g.
Proof. repeat split. intros key. by left. Qed.

Lemma first_non_terminal_Some nts s i j c :
  first_non_terminal nts s i = Some (j, c) → [c] ∈ nts.
Proof.
  revert i. induction s as [|a s IH]; intros i; simpl; [done|].
  case_bool_decide as Ha; [by intros [= <- <-] | apply IH].
Qed.

Lemma get_expansions_adds g self s :
  adds_empty_keys g self → adds_empty_keys g (_get_expansions self s).2.
Proof.
  intros (Ht & Hn & Hs & Hp). unfold _get_expansions.
  destruct (first_non_terminal _ _ _) as [[i c]|] eqn:E; [|done].
  apply first_non_terminal_Some in E. unfold defaultdict_getitem.
  destruct (productions self !! [c]) as [stored|] eqn:Ec; simpl; [done|].
  split; [done|]. split; [done|]. split; [done|]. simpl. intros key.
  destruct (decide (key = [c])) as [->|Hne].
  - rewrite lookup_insert_eq. right.
    split; [|split; [done | by rewrite <- Hn]].
    destruct (Hp [c]) as [H|(_ & H & _)]; congruence.
  - rewrite lookup_insert_ne by done. apply Hp.
Qed.

Lemma expand_adds g keep self current rest v :
  adds_empty_keys g self →
  adds_empty_keys g (self_of (expand keep self current rest v)).
Proof.
  intros H. unfold expand.
  pose proof (get_expansions_adds g self current H) as H'.
  destruct (_get_expansions self current) as [es self'].
  by destruct (enqueue keep es rest v).
Qed.

Lemma generate_words_adds g max_length max_words fuel ws self' :
  generate_words fuel g max_length max_words = Returned (ws, self') →
  adds_empty_keys g self'.
Proof.
  unfold generate_words.
  destruct (start_symbol g) as [start|];
    [|intros [= _ <-]; apply adds_empty_keys_refl].
  destruct (truthy (Some start)); [|intros [= _ <-]; apply adds_empty_keys_refl].
  intros Hret.
  apply (run_invariant (generate_step max_length max_words)
           (fun st => adds_empty_keys g (self_of (gen_search st)))
           (fun r => ∀ ws self', r = Returned (ws, self') → adds_empty_keys g self')
           ) with (fuel := fuel) (st := mkGen (mkSearch g [start] {[start]}) ∅)
                  (ws := ws); [|apply adds_empty_keys_refl|by rewrite Hret|done].
  intros [[self q v] words] Hinv. simpl in Hinv. simpl.
  destruct q as [|current rest]; [by intros ? ? [= _ <-]|].
  destruct (_ <? _)%Z; [|by intros ? ? [= _ <-]].
  destruct (_is_terminal_string self current).
  - by destruct (_ && _).
  - destruct (_ <? _)%Z; [done|]. by apply expand_adds.
Qed.

Lemma can_produce_empty_adds g fuel b self' :
  _can_produce_empty fuel g = Returned (b, self') → adds_empty_keys g self'.
Proof.
  unfold _can_produce_empty. destruct (start_symbol g) as [start|]; [|done].
  intros Hret.
  apply (run_invariant empty_step
           (fun st => adds_empty_keys g (self_of st))
           (fun r => ∀ b self', r = Returned (b, self') → adds_empty_keys g self')
           ) with (fuel := fuel) (st := mkSearch g [start] {[start]}) (b := b);
    [|apply adds_empty_keys_refl|by rewrite Hret|done].
  intros [self q v] Hinv. simpl in Hinv. simpl.
  destruct q as [|current rest]; [by intros ? ? [= _ <-]|].
  case_bool_decide; [by intros ? ? [= _ <-]|].
  destruct (_is_terminal_string self current); [done|]. by apply expand_adds.
Qed.

Lemma bfs_parse_adds g cap word b self' :
  _bfs_parse_capped cap g word = Returned (b, self') → adds_empty_keys g self'.
Proof.
  unfold _bfs_parse_capped.
  destruct (start_symbol g) as [start|];
    [|intros [= _ <-]; apply adds_empty_keys_refl].
  destruct (truthy (Some start)); [|intros [= _ <-]; apply adds_empty_keys_refl].
  intros Hret.
  apply (run_invariant (bfs_step cap word)
           (fun st => adds_empty_keys g (self_of (bfs_search st)))
           (fun r => ∀ b self', r = Returned (b, self') → adds_empty_keys g self')
           ) with (fuel := S cap) (st := mkBfs (mkSearch g [start] {[start]}) 0)
                  (b := b); [|apply adds_empty_keys_refl|by rewrite Hret|done].
  intros [[self q v] n] Hinv. simpl in Hinv. simpl.
  destruct q as [|current rest]; [by intros ? ? [= _ <-]|].
  destruct (n <? cap); [|by intros ? ? [= _ <-]].
  case_bool_decide; [by intros ? ? [= _ <-]|].
  destruct (_is_terminal_string self current); [done|].
  destruct (_ <? _)%Z; [done|]. by apply expand_adds.
Qed.

Lemma belongs_to_grammar_adds g cap fuel word b self' :
  belongs_to_grammar_capped cap fuel g word = Returned (b, self') →
  adds_empty_keys g self'.
Proof.
  unfold belongs_to_grammar_capped, belongs_to_grammar_body.
  case_bool_decide; [apply can_produce_empty_adds|].
  destruct (negb _); [intros [= _ <-]; apply adds_empty_keys_refl|].
  apply bfs_parse_adds.
Qed.

(** Every non-terminal has an entry in [productions]. *)
Definition all_defined (g : GrammarProcessor) : Prop :=
  ∀ n, n ∈ non_terminals g → is_Some (productions g !! n).

Lemma adds_empty_keys_defined g self : all_defined g → adds_empty_keys g self → self = g.
Proof.
  unfold all_defined. intros Hdef (Ht & Hn & Hs & Hp). destruct self, g. simpl in *. subst.
  f_equal. apply map_eq. intros key.
  destruct (Hp key) as [H|(Hnone & _ & Hin)]; [done|].
  destruct (Hdef key Hin) as [x Hx]. congruence.
Qed.

(** ** What a search has seen when its queue runs empty *)

Section Frontier.
Context (g : GrammarProcessor) (expandable : str → Prop) (keep : str → bool).

(** The forms a breadth-first search reaches when it expands the forms in
    [expandable] and enqueues the expansions that [keep] accepts. *)
Inductive reach : str → Prop :=
| reach_start start : start_symbol g = Some start → reach start
| reach_step s e :
    reach s → expandable s → lstep g s e → keep e = true → reach e.

(** Every visited form is still queued, or it was dequeued: then [D] holds of
    it, and if it had to be expanded its accepted expansions are visited. *)
Definition frontier (D : str → Prop) (s : search) : Prop :=
  ∀ x, x ∈ visited s →
    x ∈ queue s ∨
    (D x ∧ (expandable x → ∀ e, lstep g x e → keep e = true → e ∈ visited s)).

Lemma frontier_init D self start : frontier D (mkSearch self [start] {[start]}).
Proof. intros x Hx. simpl in Hx. apply elem_of_singleton in Hx as ->. left. simpl. by left. Qed.

Lemma frontier_mono (D D' : str → Prop) s :
  (∀ x, D x → D' x) → frontier D s → frontier D' s.
Proof.
  intros HD Hf x Hx. destruct (Hf x Hx) as [?|[? ?]]; [by left|].
  right. split; [by apply HD | done].
Qed.

Lemma frontier_pop D self current rest v :
  D current → ¬ expandable current →
  frontier D (mkSearch self (current :: rest) v) → frontier D (mkSearch self rest v).
Proof.
  intros HD Hno Hf x Hx. destruct (Hf x Hx) as [Hq|?]; [|by right].
  simpl in *. apply elem_of_cons in Hq as [->|Hq]; [|by left].
  right. split; [done|]. by intros ?.
Qed.

Lemma frontier_expand D self current rest v :
  same_view g self → D current →
  frontier D (mkSearch self (current :: rest) v) →
  frontier D (expand keep self current rest v).
Proof.
  intros Hview HD Hf.
  destruct (expand_spec g keep self current rest v Hview)
    as (self' & new & -> & _ & _ & _ & Hall).
  simpl. intros x [Hx%elem_of_list_to_set|Hx]%elem_of_union; simpl.
  { left. apply elem_of_app. by right. }
  destruct (Hf x Hx) as [Hq|[HDx Hd]]; simpl in *.
  - apply elem_of_cons in Hq as [->|Hq].
    + right. split; [done|]. intros _ e He Hk. by apply Hall.
    + left. apply elem_of_app. by left.
  - right. split; [done|]. intros Hexp e He Hk. apply elem_of_union_r. by apply Hd.
Qed.

Lemma frontier_exhausted D self v x :
  (∀ start, start_symbol g = Some start → start ∈ v) →
  frontier D (mkSearch self [] v) → reach x → x ∈ v ∧ D x.
Proof.
  intros Hstart Hf Hreach.
  assert (x ∈ v) as Hx.
  { induction Hreach as [start Hs|s e _ IH Hexp He Hk]; [by apply Hstart|].
    destruct (Hf s IH) as [Hq|[_ Hd]]; [by apply elem_of_nil in Hq|].
    by apply Hd. }
  split; [done|]. destruct (Hf x Hx) as [Hq|[HD _]]; [by apply elem_of_nil in Hq | done].
Qed.

Lemma reach_has_start x : reach x → start_symbol g ≠ None.
Proof. induction 1; [congruence | done]. Qed.

Lemma reach_empty_start x : start_symbol g = Some [] → reach x → x = [].
Proof.
  intros Hs. induction 1 as [start Hs'|s e _ -> _ He _]; [congruence|].
  inversion He as [prefix c suffix rhs _ _ _ Heq]. by destruct prefix.
Qed.

(** A derivation whose every step the search makes is a way the search
    reaches its last form. *)
Lemma rtc_reach start w :
  start_symbol g = Some start → rtc (lstep g) start w →
  (∀ s e, rtc (lstep g) start s → lstep g s e → rtc (lstep g) e w →
          expandable s ∧ keep e = true) →
  reach w.
Proof.
  intros Hs Hd Hsteps.
  assert (∀ x, rtc (lstep g) start x → rtc (lstep g) x w → reach x) as Hall.
  { apply (rtc_ind_r (fun x => rtc (lstep g) x w → reach x)).
    - intros _. by apply reach_start.
    - intros s e Hss He IH Hew. destruct (Hsteps s e Hss He Hew) as [Hexp Hk].
      apply (reach_step s e); try done. apply IH. by eapply rtc_l. }
  by apply Hall.
Qed.

Lemma reach_derives x : reach x → derives g x.
Proof.
  induction 1 as [start Hs|s e _ IH _ He _]; [by apply derives_start|].
  by eapply derives_step.
Qed.
End Frontier.

(** ** The generator records every form it reaches *)

Section GenerateComplete.
Context (g : GrammarProcessor) (max_length max_words : Z).

(** The forms [generate_words] expands when it dequeues them, and the
    expansions it enqueues. *)
Definition gen_expandable (s : str) : Prop :=
  _is_terminal_string g s = false ∧ (len s ≤ max_length)%Z.

Definition gen_keep (expansion : str) : bool := (len expansion <=? max_length * 2)%Z.

Definition gen_reach : str → Prop := reach g gen_expandable gen_keep.

(** A dequeued form that passes the generator's tests is among the words. *)
Definition recorded (words : gset str) (x : str) : Prop :=
  _is_terminal_string g x = true → (len x ≤ max_length)%Z → x ≠ [] → x ∈ words.

Definition gen_frontier (st : gen_state) : Prop :=
  same_view g (self_of (gen_search st)) ∧
  (∀ start, start_symbol g = Some start → start ∈ visited (gen_search st)) ∧
  frontier g gen_expandable gen_keep (recorded (generated_words st)) (gen_search st).

(** The loop ends with [max_words] words, or with every reachable word. *)
Definition gen_complete_post (r : outcome (list str * GrammarProcessor)) : Prop :=
  ∀ ws self', r = Returned (ws, self') →
    (max_words ≤ Z.of_nat (length ws))%Z ∨
    (∀ x, gen_reach x → _is_terminal_string g x = true →
          (len x ≤ max_length)%Z → x ≠ [] → x ∈ ws).

Lemma generate_frontier_step st :
  gen_frontier st →
  match generate_step max_length max_words st with
  | inl st' => gen_frontier st'
  | inr r => gen_complete_post r
  end.
Proof.
  destruct st as [[self q v] words]. intros (Hview & Hstart & Hf).
  cbn [gen_search generated_words self_of visited] in Hview, Hstart, Hf.
  cbn [generate_step].
  destruct q as [|current rest].
  { intros ws self' [= <- <-]. right. intros x Hx Ht Hl Hne.
    apply sorted_elem_of.
    destruct (frontier_exhausted g gen_expandable gen_keep (recorded words)
                self v x Hstart Hf Hx) as [_ HD].
    by apply HD. }
  destruct (Z.ltb_spec (Z.of_nat (size words)) max_words) as [Hlt|Hge].
  2:{ intros ws self' [= <- <-]. left. rewrite sorted_length. lia. }
  rewrite (is_terminal_string_view g self) by done.
  destruct (_is_terminal_string g current) eqn:Hterm.
  - destruct ((len current <=? max_length)%Z && negb (bool_decide (current = [])))
      eqn:Hrec.
    + split; [done|]. split; [done|]. cbn [gen_search generated_words].
      apply (frontier_pop g gen_expandable gen_keep _ self current).
      * intros _ _ _. apply elem_of_union_l. by apply elem_of_singleton.
      * intros [H _]. congruence.
      * eapply frontier_mono; [|done].
        intros x HD ? ? ?. apply elem_of_union_r. by apply HD.
    + split; [done|]. split; [done|]. cbn [gen_search generated_words].
      apply (frontier_pop g gen_expandable gen_keep _ self current);
        [|intros [H _]; congruence|done].
      intros _ Hl Hne.
      apply andb_false_iff in Hrec as [H%Z.leb_gt|H%negb_false_iff]; [lia|].
      by apply bool_decide_eq_true in H.
  - destruct (Z.ltb_spec max_length (len current)) as [Hlong|Hshort].
    + split; [done|]. split; [done|]. cbn [gen_search generated_words].
      apply (frontier_pop g gen_expandable gen_keep _ self current);
        [|intros [_ H]; lia|done].
      intros H. congruence.
    + change (fun expansion : str => (len expansion <=? max_length * 2)%Z) with gen_keep.
      pose proof (frontier_expand g gen_expandable gen_keep (recorded words)
                    self current rest v Hview ltac:(intros H; congruence) Hf) as Hf'.
      destruct (expand_spec g gen_keep self current rest v Hview)
        as (self' & new & Heq & Hview' & _).
      rewrite Heq in *. cbn [gen_search generated_words self_of visited].
      split; [done|]. split; [|done].
      intros start Hs. apply elem_of_union_r. by apply Hstart.
Qed.

Lemma generate_words_reach_complete fuel ws self' x :
  generate_words fuel g max_length max_words = Returned (ws, self') →
  gen_reach x → _is_terminal_string g x = true → (len x ≤ max_length)%Z → x ≠ [] →
  x ∈ ws ∨ (max_words ≤ Z.of_nat (length ws))%Z.
Proof.
  unfold generate_words. intros Hret Hx Hterm Hlen Hne.
  destruct (start_symbol g) as [start|] eqn:Hs.
  2:{ by apply reach_has_start in Hx. }
  destruct start as [|c start].
  { by apply reach_empty_start in Hx. }
  cbn [truthy] in Hret.
  destruct (run_invariant (generate_step max_length max_words) gen_frontier
              gen_complete_post generate_frontier_step fuel
              (mkGen (mkSearch g [c :: start] {[c :: start]}) ∅)) with ws self'
    as [Hfull|Hall]; try done.
  - split; [apply same_view_refl|]. split.
    + intros start' Hs'. rewrite Hs in Hs'. injection Hs' as <-.
      cbn. by apply elem_of_singleton.
    + apply frontier_init.
  - by rewrite Hret.
  - by right.
  - left. by apply Hall.
Qed.

Lemma generate_words_reach_sound fuel ws self' w :
  generate_words fuel g max_length max_words = Returned (ws, self') →
  w ∈ ws → gen_reach w ∧ word_ok g max_length w.
Proof.
  intros Hret Hw.
  destruct (generate_words_returned g max_length max_words g gen_reach fuel ws self'
              (same_view_refl g)) as (_ & _ & _ & _ & Hws); try done.
  - intros s e Hs Hterm Hlen He Hk. apply (reach_step g _ _ s e); try done.
    by apply Z.leb_le.
  - intros start Hs. by apply reach_start.
  - by apply Hws.
Qed.
End GenerateComplete.

(** ** Derivations of a grammar without empty right-hand sides *)

Lemma rtc_lstep_grows g s e :
  no_empty_rhs g = true → rtc (lstep g) s e → (len s ≤ len e)%Z.
Proof.
  intros Hne. induction 1 as [|s m e Hsm _ IH]; [lia|].
  pose proof (lstep_grows g s m Hne Hsm). lia.
Qed.

(** Where no symbol is both a terminal and a non-terminal, a form that can be
    rewritten is not a terminal string. *)
Lemma lstep_not_terminal g s e :
  terminals g ## non_terminals g → lstep g s e → _is_terminal_string g s = false.
Proof.
  intros Hdisj [prefix c suffix rhs _ Hc _].
  destruct (_is_terminal_string g (prefix ++ c :: suffix)) eqn:E; [|done].
  apply is_terminal_string_spec, Forall_app in E as [_ E].
  inversion E as [|? ? Hc' _]; subst. by destruct (Hdisj [c]).
Qed.

Lemma derives_nonempty g w :
  derives g w → w ≠ [] → ∃ start, start_symbol g = Some start ∧ start ≠ [].
Proof.
  intros (start & Hs & Hd) Hne. exists start. split; [done|]. intros ->.
  inversion Hd as [|? m ? He _]; subst; [done|].
  inversion He as [prefix c suffix rhs _ _ _ Heq]. by destruct prefix.
Qed.

Lemma derives_gen_reach g max_length w :
  no_empty_rhs g = true → terminals g ## non_terminals g →
  derives g w → (len w ≤ max_length)%Z → gen_reach g max_length w.
Proof.
  intros Hne Hdisj (start & Hs & Hd) Hlen.
  apply (rtc_reach g _ _ start w Hs Hd). intros s e Hss He Hew.
  pose proof (lstep_grows g s e Hne He).
  pose proof (rtc_lstep_grows g e w Hne Hew).
  assert (0 ≤ len s)%Z by (unfold len; lia).
  split; [split; [by eapply lstep_not_terminal | lia]|].
  apply Z.leb_le. lia.
Qed.

Lemma derives_mem_reach g w :
  no_empty_rhs g = true → terminals g ## non_terminals g →
  derives g w → _is_terminal_string g w = true → mem_reach g w w.
Proof.
  intros Hne Hdisj (start & Hs & Hd) Hterm.
  assert (∀ x, rtc (lstep g) start x → rtc (lstep g) x w → mem_reach g w x) as Hall;
    [|by apply Hall].
  apply (rtc_ind_r (fun x => rtc (lstep g) x w → mem_reach g w x)).
  - intros _. by apply mem_reach_start.
  - intros s e Hss He IH Hew.
    pose proof (lstep_not_terminal g s e Hdisj He) as Hs_nt.
    apply (mem_reach_step g w s e); try done.
    + apply IH. by eapply rtc_l.
    + intros ->. congruence.
    + pose proof (lstep_grows g s e Hne He).
      pose proof (rtc_lstep_grows g e w Hne Hew). lia.
Qed.

(** ** The empty-word search answers exactly *)

Section EmptyExact.
Context (g : GrammarProcessor).

(** The forms [_can_produce_empty] expands when it dequeues them, and the
    expansions it enqueues. *)
Definition empty_expandable (s : str) : Prop :=
  s ≠ [] ∧ _is_terminal_string g s = false.

Definition empty_keep (exp : str) : bool := (len exp <? 20)%Z.

Definition empty_reach : str → Prop := reach g empty_expandable empty_keep.

Definition empty_frontier (st : search) : Prop :=
  same_view g (self_of st) ∧
  (∀ start, start_symbol g = Some start → start ∈ visited st) ∧
  frontier g empty_expandable empty_keep (fun x => x ≠ []) st.

Lemma empty_frontier_step st :
  empty_frontier st →
  match empty_step st with
  | inl st' => empty_frontier st'
  | inr r => ∀ self', r = Returned (false, self') → ¬ empty_reach []
  end.
Proof.
  destruct st as [self q v]. intros (Hview & Hstart & Hf).
  cbn [self_of visited] in Hview, Hstart. cbn [empty_step].
  destruct q as [|current rest].
  { intros self' _ Hreach.
    by destruct (frontier_exhausted g empty_expandable empty_keep _ self v []
                   Hstart Hf Hreach) as [_ HD]. }
  case_bool_decide as Hnil; [done|].
  rewrite (is_terminal_string_view g self) by done.
  destruct (_is_terminal_string g current) eqn:Hterm.
  - split; [done|]. split; [done|].
    apply (frontier_pop g empty_expandable empty_keep _ self current);
      [done | intros [_ H]; congruence | done].
  - change (fun exp : str => (len exp <? 20)%Z) with empty_keep.
    pose proof (frontier_expand g empty_expandable empty_keep (fun x => x ≠ [])
                  self current rest v Hview Hnil Hf) as Hf'.
    destruct (expand_spec g empty_keep self current rest v Hview)
      as (self' & new & Heq & Hview' & _).
    rewrite Heq in *. cbn [self_of visited].
    split; [done|]. split; [|done].
    intros start Hs. apply elem_of_union_r. by apply Hstart.
Qed.

Lemma can_produce_empty_exact fuel b self' :
  _can_produce_empty fuel g = Returned (b, self') → b = true ↔ empty_reach [].
Proof.
  intros Hret. assert (_can_produce_empty fuel g = Returned (b, self')) as Hret0 by done.
  unfold _can_produce_empty in Hret.
  destruct (start_symbol g) as [start|] eqn:Hs; [|done]. split.
  - intros ->.
    destruct (can_produce_empty_total g g empty_reach start (same_view_refl g) Hs)
      as (b0 & self0 & Hret1 & _ & Hb).
    + intros s e Hse Hne Hterm He Hk.
      apply (reach_step g _ _ s e); [done | by split | done | by apply Z.ltb_lt].
    + by apply reach_start.
    + assert ((b0, self0) = (true, self')) as [= -> ->]; [|by apply Hb].
      eapply (returns_unique _ _ _ fuel Hret1 Hret0).
      intros n m. apply can_produce_empty_fuel_mono.
  - intros Hreach. destruct b; [done|]. exfalso.
    apply (run_invariant empty_step empty_frontier
             (fun r => ∀ self', r = Returned (false, self') → ¬ empty_reach [])
             empty_frontier_step fuel (mkSearch g [start] {[start]})) with self';
      try done.
    + split; [apply same_view_refl|]. split; [|apply frontier_init].
      intros start' Hs'. rewrite Hs in Hs'. injection Hs' as <-.
      cbn. by apply elem_of_singleton.
    + by rewrite Hret.
Qed.
End EmptyExact.

(** ** Parsing into a processor that already holds a grammar *)

(** [x] holds what [self] holds followed by what [y] holds. *)
Definition merged (self x y : GrammarProcessor) : Prop :=
  terminals x = terminals self ∪ terminals y ∧
  non_terminals x = non_terminals self ∪ non_terminals y ∧
  start_symbol x = match start_symbol self with
                   | Some start => Some start
                   | None => start_symbol y
                   end ∧
  (∀ key, rules x key = rules self key ++ rules y key) ∧
  (∀ key, is_Some (productions x !! key)
          ↔ is_Some (productions self !! key) ∨ is_Some (productions y !! key)).

Lemma fold_left_rel2 {A B} (R : A → A → Prop) (f : A → B → A) (l : list B) (a a' : A) :
  (∀ x y b, R x y → R (f x b) (f y b)) → R a a' →
  R (fold_left f l a) (fold_left f l a').
Proof.
  intros Hstep. revert a a'. induction l as [|b l IH]; intros a a' Ha; simpl; [done|].
  by apply IH, Hstep.
Qed.

Lemma merged_init self : merged self self __init__.
Proof.
  split; [simpl; by rewrite (right_id_L ∅ (∪))|].
  split; [simpl; by rewrite (right_id_L ∅ (∪))|].
  split; [simpl; by destruct (start_symbol self)|]. split.
  - intros key. unfold rules at 3. simpl. rewrite lookup_empty. simpl.
    by rewrite app_nil_r.
  - intros key. simpl. rewrite lookup_empty. split; [by left|].
    intros [?|[? ?]]; done.
Qed.

Lemma classify_merged self x y char :
  merged self x y → merged self (classify x char) (classify y char).
Proof.
  intros (Ht & Hn & Hs & Hr & Hk). unfold classify.
  destruct (isupper char); [|destruct (islower char)]; [| |done].
  - split; [done|]. split; [simpl; rewrite Hn; set_solver|]. done.
  - split; [simpl; rewrite Ht; set_solver|]. done.
Qed.

Lemma add_production_merged self x y left prod :
  merged self x y →
  merged self (add_production left x prod) (add_production left y prod).
Proof.
  intros (Ht & Hn & Hs & Hr & Hk).
  destruct (add_production_sets left x prod) as (Etx & Enx & Esx).
  destruct (add_production_sets left y prod) as (Ety & Eny & Esy).
  split.
  { rewrite Etx, Ety. apply set_eq. intros t.
    rewrite elem_of_union, !fold_classify_terminals, Ht, elem_of_union. tauto. }
  split.
  { rewrite Enx, Eny. apply set_eq. intros n.
    rewrite elem_of_union, !fold_classify_non_terminals, Hn, elem_of_union. tauto. }
  split; [by rewrite Esx, Esy|]. split.
  - intros key. unfold rules at 1 3. rewrite !add_production_lookup.
    destruct (decide (key = left)) as [->|_]; simpl.
    + by rewrite Hr, (assoc_L (++)).
    + apply Hr.
  - intros key. rewrite !add_production_lookup.
    destruct (decide (key = left)) as [->|_]; [|apply Hk].
    split; [by right | done].
Qed.

Lemma parse_line_merged self x y line :
  merged self x y → merged self (parse_line x line) (parse_line y line).
Proof.
  intros (Ht & Hn & Hs & Hr & Hk). unfold parse_line.
  destruct (split_arrow line) as [[lhs rhs]|]; [|done].
  apply fold_left_rel2; [intros; by apply add_production_merged|].
  split; [done|]. split; [simpl; rewrite Hn; set_solver|].
  split; [|done]. simpl. rewrite Hs.
  by destruct (start_symbol self), (start_symbol y).
Qed.

Lemma parse_grammar_merged_aux self grammar_text :
  merged self (parse_grammar self grammar_text) (parse_grammar __init__ grammar_text).
Proof.
  rewrite !parse_grammar_lines.
  apply fold_left_rel2; [intros; by apply parse_line_merged | apply merged_init].
Qed.

(** ** No form is queued twice *)

Definition queued_once (s : search) : Prop :=
  NoDup (queue s) ∧ ∀ x, x ∈ queue s → x ∈ visited s.

Lemma queued_once_init self start : queued_once (mkSearch self [start] {[start]}).
Proof.
  split; simpl.
  - apply NoDup_singleton.
  - intros x ->%list_elem_of_singleton. by apply elem_of_singleton.
Qed.

Lemma queued_once_pop self current rest v :
  queued_once (mkSearch self (current :: rest) v) → queued_once (mkSearch self rest v).
Proof.
  intros [Hnd Hq]. simpl in *. split; [by inversion Hnd|].
  intros x Hx. apply Hq. by right.
Qed.

Lemma queued_once_expand keep self current rest v :
  queued_once (mkSearch self (current :: rest) v) →
  queued_once (expand keep self current rest v).
Proof.
  intros [Hnd Hq]. simpl in *. unfold expand.
  destruct (_get_expansions self current) as [es self'].
  destruct (enqueue_spec keep es rest v) as (new & -> & Hnew & Hfresh & _).
  split; simpl.
  - apply NoDup_app. split; [by inversion Hnd|]. split; [|done].
    intros x Hx Hx'. destruct (Hfresh x Hx') as [Hv _]. apply Hv, Hq. by right.
  - intros x [Hx|Hx]%elem_of_app.
    + apply elem_of_union_r, Hq. by right.
    + apply elem_of_union_l. by apply elem_of_list_to_set.
Qed.

Lemma generate_step_queued_once max_length max_words st st' :
  queued_once (gen_search st) →
  generate_step max_length max_words st = inl st' → queued_once (gen_search st').
Proof.
  destruct st as [[self q v] words]. cbn [gen_search generate_step]. intros Hq.
  destruct q as [|current rest]; [done|].
  destruct (_ <? _)%Z; [|done].
  destruct (_is_terminal_string self current).
  - destruct (_ && _); intros [= <-]; by eapply queued_once_pop.
  - destruct (_ <? _)%Z; intros [= <-];
      [by eapply queued_once_pop | by apply queued_once_expand].
Qed.

Lemma empty_step_queued_once st st' :
  queued_once st → empty_step st = inl st' → queued_once st'.
Proof.
  destruct st as [self q v]. cbn [empty_step]. intros Hq.
  destruct q as [|current rest]; [done|].
  case_bool_decide; [done|].
  destruct (_is_terminal_string self current); intros [= <-];
    [by eapply queued_once_pop | by apply queued_once_expand].
Qed.

Lemma bfs_step_queued_once cap target st st' :
  queued_once (bfs_search st) →
  bfs_step cap target st = inl st' → queued_once (bfs_search st').
Proof.
  destruct st as [[self q v] n]. cbn [bfs_search bfs_step]. intros Hq.
  destruct q as [|current rest]; [done|].
  destruct (n <? cap); [|done].
  case_bool_decide; [done|].
  destruct (_is_terminal_string self current); [intros [= <-]; by eapply queued_once_pop|].
  destruct (_ <? _)%Z; intros [= <-];
    [by eapply queued_once_pop | by apply queued_once_expand].
Qed.

(** ** A larger [max_words] *)

Lemma generate_step_words max_length max_words st st' :
  generate_step max_length max_words st = inl st' →
  generated_words st ⊆ generated_words st'.
Proof.
  destruct st as [[self q v] words]. cbn [generated_words generate_step].
  destruct q as [|current rest]; [done|].
  destruct (_ <? _)%Z; [|done].
  destruct (_is_terminal_string self current).
  - destruct (_ && _); intros [= <-]; cbn; set_solver.
  - destruct (_ <? _)%Z; intros [= <-]; cbn [generated_words]; done.
Qed.

Lemma generate_run_words max_length max_words fuel st ws self' :
  run fuel (generate_step max_length max_words) st = Returned (ws, self') →
  ∀ w, w ∈ generated_words st → w ∈ ws.
Proof.
  revert st. induction fuel as [|fuel IH]; intros st; simpl; [done|].
  destruct (generate_step max_length max_words st) as [st1|r] eqn:E.
  - intros Hrun w Hw. apply (IH st1 Hrun).
    by apply (generate_step_words _ _ _ _ E).
  - intros -> w Hw. destruct st as [[self q v] words]. simpl in *.
    destruct q as [|current rest].
    { injection E as <- <-. by apply sorted_elem_of. }
    destruct (_ <? _)%Z.
    + destruct (_is_terminal_string self current);
        [by destruct (_ && _) | by destruct (_ <? _)%Z].
    + injection E as <- <-. by apply sorted_elem_of.
Qed.

Lemma generate_run_monotone max_length max_words max_words' fuel fuel' st
    ws ws' self1 self2 :
  (max_words ≤ max_words')%Z →
  run fuel (generate_step max_length max_words) st = Returned (ws, self1) →
  run fuel' (generate_step max_length max_words') st = Returned (ws', self2) →
  ∀ w, w ∈ ws → w ∈ ws'.
Proof.
  intros Hle. revert fuel' st.
  induction fuel as [|fuel IH]; intros fuel' st; simpl; [done|].
  destruct (generate_step max_length max_words st) as [st1|r] eqn:E.
  - intros Hrun Hrun'. destruct fuel' as [|fuel']; [done|]. simpl in Hrun'.
    assert (generate_step max_length max_words' st = inl st1) as E'.
    { destruct st as [[self q v] words]. simpl in *.
      destruct q as [|current rest]; [done|].
      destruct (Z.ltb_spec (Z.of_nat (size words)) max_words); [|done].
      destruct (Z.ltb_spec (Z.of_nat (size words)) max_words'); [done | lia]. }
    rewrite E' in Hrun'. by apply (IH fuel' st1).
  - intros -> Hrun' w Hw.
    apply (generate_run_words _ _ _ _ _ _ Hrun').
    destruct st as [[self q v] words]. simpl in *.
    destruct q as [|current rest].
    { injection E as <- <-. by apply sorted_elem_of. }
    destruct (_ <? _)%Z.
    + destruct (_is_terminal_string self current);
        [by destruct (_ && _) | by destruct (_ <? _)%Z].
    + injection E as <- <-. by apply sorted_elem_of.
Qed.

(** ** [display_grammar] shows what is stored *)




(** * Further properties *)

(** ** [parse_grammar] *)

(** X1. [parse_grammar] leaves the processor exactly as it was if and only if
    the text holds no [->]: a line without an arrow is skipped, and a line
    with one appends at least one right-hand side to [productions]. *)
Theorem parse_grammar_unchanged_iff_no_arrow self grammar_text :
  parse_grammar self grammar_text = self ↔ ¬ has_arrow grammar_text.
Proof.
  split; [|apply parse_grammar_no_arrow].
  intros Heq Harrow. apply grammar_lines_arrow in Harrow.
  destruct (fold_parse_line_arrow (grammar_lines grammar_text) self Harrow)
    as [(left & Hlen) _].
  rewrite <- parse_grammar_lines, Heq in Hlen. lia.
Qed.

(** X2. The start symbol is set once: after [parse_grammar] it is still
    [None] exactly when it was [None] and the text holds no [->], and a start
    symbol that was set before the call is the start symbol after it. *)
Theorem parse_grammar_start_symbol self grammar_text :
  (start_symbol (parse_grammar self grammar_text) = None
   ↔ start_symbol self = None ∧ ¬ has_arrow grammar_text) ∧
  (∀ start, start_symbol self = Some start →
            start_symbol (parse_grammar self grammar_text) = Some start).
Proof.
  pose proof (parse_grammar_grows_aux self grammar_text) as (_ & _ & Hs & _).
  split; [|done]. split.
  - intros Hnone. split.
    + destruct (start_symbol self) as [start|] eqn:E; [|done].
      by rewrite (Hs start) in Hnone.
    + intros Harrow. apply grammar_lines_arrow in Harrow.
      destruct (fold_parse_line_arrow _ self Harrow) as [_ [start Hstart]].
      rewrite <- parse_grammar_lines in Hstart. congruence.
  - intros [Hnone Hno]. by rewrite parse_grammar_no_arrow.
Qed.

(** X3. [parse_grammar] never resets the processor: what it leaves is what the
    processor held, followed by what the same text gives a fresh processor
    (alphabets united, right-hand sides appended under each key, the old start
    symbol kept). Parsing a text a second time therefore stores every
    right-hand side twice. *)
Theorem parse_grammar_merges self grammar_text :
  merged self (parse_grammar self grammar_text) (parse_grammar __init__ grammar_text) ∧
  (∀ key,
     rules (parse_grammar (parse_grammar __init__ grammar_text) grammar_text) key
     = rules (parse_grammar __init__ grammar_text) key
       ++ rules (parse_grammar __init__ grammar_text) key).
Proof.
  split; [apply parse_grammar_merged_aux|]. intros key.
  by destruct (parse_grammar_merged_aux (parse_grammar __init__ grammar_text)
                 grammar_text) as (_ & _ & _ & Hr & _).
Qed.

(** X4. [parse_grammar] keeps a processor well formed: every key of
    [productions] is a non-terminal and has at least one right-hand side; the
    start symbol is a key; a non-terminal is a key or a single uppercase
    character; a terminal is a single lowercase character; and every
    uppercase or lowercase character of a stored right-hand side is in the
    matching alphabet. *)
Theorem parse_grammar_well_formed self grammar_text :
  well_formed self → well_formed (parse_grammar self grammar_text).
Proof. apply parse_grammar_well_formed_aux. Qed.

Lemma parse_grammar_well_formed_witness :
  well_formed (parse_grammar __init__ (py example_text)).
Proof.
  apply (parse_grammar_well_formed __init__ (py example_text)).
  unfold well_formed, __init__. simpl.
  split; [by intros key [? H]|]. split; [done|]. split; [done|].
  split; [by intros n ?%elem_of_empty|]. split; [by intros t ?%elem_of_empty|].
  by intros key stored rhs c.
Defined.

(** X5. What [parse_grammar] stores is stripped and split: a key has no
    whitespace at either end, no [->] and no newline; a right-hand side has no
    whitespace at either end, no [|] and no newline. *)
Theorem parse_grammar_tidy self grammar_text :
  tidy self → tidy (parse_grammar self grammar_text).
Proof.
  rewrite parse_grammar_lines. apply fold_left_inv_in.
  intros x line Hin. apply parse_line_tidy.
  by destruct (grammar_lines_one_line _ _ Hin).
Qed.

Lemma parse_grammar_tidy_witness : tidy (parse_grammar __init__ (py example_text)).
Proof.
  apply (parse_grammar_tidy __init__ (py example_text)).
  intros key stored H. simpl in H. by rewrite lookup_empty in H.
Defined.

(** ** [_is_terminal_string] and [_get_expansions] *)

(** X6. The disjunct [char == ''] of [_is_terminal_string] never decides: the
    method is the test [all(char in self.terminals for char in word)] that
    [belongs_to_grammar] makes itself. *)
Theorem terminal_checks_agree self s :
  _is_terminal_string self s
  = forallb (fun char => bool_decide ([char] ∈ terminals self)) s.
Proof.
  unfold _is_terminal_string. induction s as [|c s IH]; cbn [forallb]; [done|].
  rewrite IH, (bool_decide_eq_false_2 ([c] = [])) by done.
  by rewrite orb_false_r.
Qed.

(** X7. When no stored right-hand side is empty, an expansion is never
    shorter than the form it expands, and never empty. *)
Theorem get_expansions_never_shorter self s e :
  no_empty_rhs self = true → e ∈ expansions self s → (len s ≤ len e)%Z ∧ e ≠ [].
Proof.
  intros Hne He%expansions_lstep.
  split; [by apply (lstep_grows self) | by apply (lstep_nonempty self s)].
Qed.

Lemma get_expansions_never_shorter_witness :
  (len (py "abAS") ≤ len (py "abbAAS"))%Z ∧ py "abbAAS" ≠ [].
Proof.
  apply (get_expansions_never_shorter example_grammar (py "abAS") (py "abbAAS")).
  - by vm_compute.
  - vm_compute. right. right. left.
Defined.

(** X8. [_get_expansions] changes the processor in one way only: it may bind
    a non-terminal that had no entry in [productions] to the empty list. A
    form without a non-terminal, and a processor where every non-terminal has
    an entry, leave the processor as it was. *)
Theorem get_expansions_adds_empty_key self s :
  adds_empty_keys self (_get_expansions self s).2 ∧
  (Forall (fun x => [x] ∉ non_terminals self) s → (_get_expansions self s).2 = self) ∧
  (all_defined self → (_get_expansions self s).2 = self).
Proof.
  pose proof (get_expansions_adds self self s (adds_empty_keys_refl self)) as Hadds.
  split; [done|]. split.
  - intros Hs%(first_non_terminal_None _ _ 0). unfold _get_expansions. by rewrite Hs.
  - intros Hdef. by apply adds_empty_keys_defined.
Qed.

(** ** The searches and the processor *)

(** X9. [generate_words] and [belongs_to_grammar] never remove or alter what
    the processor holds: the processor they leave has the same alphabets and
    start symbol, and the same entry under every key, except that a
    non-terminal without an entry may now be bound to the empty list. *)
Theorem searches_add_only_empty_keys g max_length max_words fuel ws b word self' :
  (generate_words fuel g max_length max_words = Returned (ws, self') →
   adds_empty_keys g self') ∧
  (belongs_to_grammar fuel g word = Returned (b, self') → adds_empty_keys g self').
Proof.
  split; [apply generate_words_adds|].
  apply (belongs_to_grammar_adds g max_iterations).
Qed.

(** X10. On a processor where every non-terminal has an entry in
    [productions], [generate_words] and [belongs_to_grammar] return the
    processor exactly as it was. *)
Theorem searches_keep_defined_processor g :
  all_defined g →
  (∀ fuel max_length max_words ws self',
      generate_words fuel g max_length max_words = Returned (ws, self') → self' = g) ∧
  (∀ fuel word b self',
      belongs_to_grammar fuel g word = Returned (b, self') → self' = g).
Proof.
  intros Hdef. split.
  - intros fuel max_length max_words ws self' Hret.
    apply adds_empty_keys_defined; [done|]. by eapply generate_words_adds.
  - intros fuel word b self' Hret.
    apply adds_empty_keys_defined; [done|].
    by apply (belongs_to_grammar_adds g max_iterations fuel word b).
Qed.

Lemma searches_keep_defined_processor_witness :
  (∀ fuel max_length max_words ws self',
      generate_words fuel example_grammar max_length max_words = Returned (ws, self') →
      self' = example_grammar) ∧
  (∀ fuel word b self',
      belongs_to_grammar fuel example_grammar word = Returned (b, self') →
      self' = example_grammar).
Proof.
  apply (searches_keep_defined_processor example_grammar).
  intros n Hn. unfold example_grammar in Hn. simpl in Hn.
  rewrite !elem_of_union, !elem_of_singleton in Hn.
  destruct Hn as [[->| ->]| ->]; vm_compute; by eexists.
Defined.

(** X11. Without a usable start symbol ([None], or the empty string that a
    line such as [-> a] sets) [generate_words] returns the empty list and
    [belongs_to_grammar] rejects every nonempty word, both at once and with
    the processor untouched; when the start symbol is the empty string,
    [belongs_to_grammar("")] returns [True]. *)
Theorem searches_without_start_symbol g :
  truthy (start_symbol g) = false →
  (∀ fuel max_length max_words,
      generate_words fuel g max_length max_words = Returned ([], g)) ∧
  (∀ fuel word, word ≠ [] → belongs_to_grammar fuel g word = Returned (false, g)) ∧
  (start_symbol g = Some [] →
   ∀ fuel, belongs_to_grammar (S fuel) g [] = Returned (true, g)).
Proof.
  intros Htruthy. split; [|split].
  - intros fuel max_length max_words. unfold generate_words.
    revert Htruthy. destruct (start_symbol g) as [start|]; [|done]. by intros ->.
  - intros fuel word Hne. unfold belongs_to_grammar, belongs_to_grammar_body.
    rewrite bool_decide_eq_false_2 by done.
    destruct (forallb _ word); [|done]. cbn [negb].
    unfold _bfs_parse, _bfs_parse_capped.
    revert Htruthy. destruct (start_symbol g) as [start|]; [|done]. by intros ->.
  - intros Hs fuel. unfold belongs_to_grammar, belongs_to_grammar_body.
    rewrite bool_decide_eq_true_2 by done. unfold _can_produce_empty. rewrite Hs.
    cbn [run empty_step]. by rewrite bool_decide_eq_true_2.
Qed.

Lemma searches_without_start_symbol_witness :
  (∀ fuel max_length max_words,
      generate_words fuel (parse_grammar __init__ (py "-> a")) max_length max_words
      = Returned ([], parse_grammar __init__ (py "-> a"))) ∧
  (∀ fuel word, word ≠ [] →
      belongs_to_grammar fuel (parse_grammar __init__ (py "-> a")) word
      = Returned (false, parse_grammar __init__ (py "-> a"))) ∧
  (start_symbol (parse_grammar __init__ (py "-> a")) = Some [] →
   ∀ fuel, belongs_to_grammar (S fuel) (parse_grammar __init__ (py "-> a")) []
           = Returned (true, parse_grammar __init__ (py "-> a"))).
Proof.
  apply (searches_without_start_symbol (parse_grammar __init__ (py "-> a"))).
  by vm_compute.
Defined.

(** X12. In each of the three searches no form is in the queue twice, after
    any number of passes of the loop. *)
Theorem searches_queue_each_form_once g start n :
  (∀ max_length max_words st,
      passes n (generate_step max_length max_words)
             (mkGen (mkSearch g [start] {[start]}) ∅) = Some st →
      NoDup (queue (gen_search st))) ∧
  (∀ st, passes n empty_step (mkSearch g [start] {[start]}) = Some st →
         NoDup (queue st)) ∧
  (∀ cap target st,
      passes n (bfs_step cap target) (mkBfs (mkSearch g [start] {[start]}) 0) = Some st →
      NoDup (queue (bfs_search st))).
Proof.
  split; [|split].
  - intros max_length max_words st Hp.
    apply (passes_invariant (generate_step max_length max_words)
             (fun st => queued_once (gen_search st))) in Hp; [apply Hp| |].
    + intros st1 st2. apply generate_step_queued_once.
    + apply queued_once_init.
  - intros st Hp.
    apply (passes_invariant empty_step queued_once) in Hp; [apply Hp| |].
    + intros st1 st2. apply empty_step_queued_once.
    + apply queued_once_init.
  - intros cap target st Hp.
    apply (passes_invariant (bfs_step cap target)
             (fun st => queued_once (bfs_search st))) in Hp; [apply Hp| |].
    + intros st1 st2. apply bfs_step_queued_once.
    + apply queued_once_init.
Qed.

(** ** [generate_words] *)

(** X13. Every word [generate_words] returns is derivable from the start
    symbol by leftmost rewriting steps. *)
Theorem generate_words_derivable g max_length max_words fuel ws self' :
  generate_words fuel g max_length max_words = Returned (ws, self') →
  Forall (derives g) ws.
Proof.
  intros Hret. apply Forall_forall. intros w Hw.
  destruct (generate_words_reach_sound g max_length max_words fuel ws self' w Hret Hw)
    as [Hreach _].
  by eapply reach_derives.
Qed.

Lemma generate_words_derivable_witness :
  Forall (derives example_grammar) [py "ab"; py "ba"].
Proof.
  apply (generate_words_derivable example_grammar 2 10 20 _ example_grammar).
  by vm_compute.
Defined.

(** X14. What [generate_words] returns, for any grammar: every returned word
    is a nonempty terminal string of at most [max_length] characters that the
    search reaches (by expanding forms of at most [max_length] characters
    that are not terminal strings, and keeping expansions of at most
    [2 * max_length] characters); and every such form is returned, unless
    the list has [max_words] words. *)
Theorem generate_words_exact g max_length max_words fuel ws self' :
  generate_words fuel g max_length max_words = Returned (ws, self') →
  (∀ w, w ∈ ws → gen_reach g max_length w ∧ word_ok g max_length w) ∧
  (∀ w, gen_reach g max_length w → word_ok g max_length w →
        w ∈ ws ∨ (max_words ≤ Z.of_nat (length ws))%Z).
Proof.
  intros Hret. split.
  - intros w Hw.
    by apply (generate_words_reach_sound g max_length max_words fuel ws self').
  - intros w Hreach (Hterm & Hlen & Hne).
    apply (generate_words_reach_complete g max_length max_words fuel ws self');
      try done.
    by apply is_terminal_string_spec.
Qed.

Lemma generate_words_exact_witness :
  (∀ w, w ∈ [py "ab"; py "ba"] → gen_reach example_grammar 2 w ∧ word_ok example_grammar 2 w) ∧
  (∀ w, gen_reach example_grammar 2 w → word_ok example_grammar 2 w →
        w ∈ [py "ab"; py "ba"] ∨ (10 ≤ Z.of_nat (length [py "ab"; py "ba"]))%Z).
Proof.
  apply (generate_words_exact example_grammar 2 10 20 _ example_grammar).
  by vm_compute.
Defined.

(** X15. For a grammar with no empty right-hand side and no symbol that is
    both a terminal and a non-terminal, [generate_words] is complete: every
    derivable nonempty terminal string of at most [max_length] characters is
    in the list it returns, unless the list has [max_words] words. *)
Theorem generate_words_complete g max_length max_words :
  no_empty_rhs g = true → terminals g ## non_terminals g →
  ∀ fuel ws self',
    generate_words fuel g max_length max_words = Returned (ws, self') →
    ∀ w, derives g w → word_ok g max_length w →
         w ∈ ws ∨ (max_words ≤ Z.of_nat (length ws))%Z.
Proof.
  intros Hne Hdisj fuel ws self' Hret w Hd (Hterm & Hlen & Hnil).
  apply (generate_words_reach_complete g max_length max_words fuel ws self');
    try done.
  - by apply derives_gen_reach.
  - by apply is_terminal_string_spec.
Qed.

Lemma generate_words_complete_witness :
  no_empty_rhs example_grammar = true ∧
  terminals example_grammar ## non_terminals example_grammar ∧
  ∀ fuel ws self',
    generate_words fuel example_grammar 4 50 = Returned (ws, self') →
    ∀ w, derives example_grammar w → word_ok example_grammar 4 w →
         w ∈ ws ∨ (50 ≤ Z.of_nat (length ws))%Z.
Proof.
  assert (no_empty_rhs example_grammar = true) as Hne by (by vm_compute).
  assert (terminals example_grammar ## non_terminals example_grammar) as Hdisj.
  { apply (bool_decide_unpack _). by vm_compute. }
  split; [done|]. split; [done|].
  by apply (generate_words_complete example_grammar 4 50).
Defined.



(** X17. A larger [max_words] loses no word: what [generate_words] returns
    with [max_words] is contained in what it returns with any larger bound. *)
Theorem generate_words_monotone g max_length max_words max_words' :
  (max_words ≤ max_words')%Z →
  ∀ fuel fuel' ws ws' self1 self2,
    generate_words fuel g max_length max_words = Returned (ws, self1) →
    generate_words fuel' g max_length max_words' = Returned (ws', self2) →
    ws ⊆ ws'.
Proof.
  intros Hle fuel fuel' ws ws' self1 self2. unfold generate_words.
  destruct (start_symbol g) as [start|]; [|by intros [= <- _] _ w ?%elem_of_nil].
  destruct (truthy (Some start)); [|by intros [= <- _] _ w ?%elem_of_nil].
  intros Hrun Hrun' w. by eapply generate_run_monotone.
Qed.

Lemma generate_words_monotone_witness :
  (3 ≤ 50)%Z ∧
  ∀ fuel fuel' ws ws' self1 self2,
    generate_words fuel example_grammar 4 3 = Returned (ws, self1) →
    generate_words fuel' example_grammar 4 50 = Returned (ws', self2) →
    ws ⊆ ws'.
Proof.
  assert (3 ≤ 50)%Z as Hle by lia.
  split; [done|]. by apply (generate_words_monotone example_grammar 4 3 50).
Defined.

(** ** [belongs_to_grammar] *)

(** X18. [belongs_to_grammar("")] answers exactly whether the search reaches
    the empty form, expanding nonempty forms that are not terminal strings and
    keeping expansions of fewer than 20 characters; when it returns [True] the
    empty string is derivable. *)
Theorem belongs_empty_word_exact g fuel b self' :
  belongs_to_grammar fuel g [] = Returned (b, self') →
  (b = true ↔ empty_reach g []) ∧ (b = true → derives g []).
Proof.
  unfold belongs_to_grammar, belongs_to_grammar_body.
  rewrite bool_decide_eq_true_2 by done. intros Hret.
  pose proof (can_produce_empty_exact g fuel b self' Hret) as Hexact.
  split; [done|]. intros Hb%Hexact. by eapply reach_derives.
Qed.

Lemma belongs_empty_word_exact_witness :
  (true = true ↔ empty_reach (parse_grammar __init__ (py "S ->")) []) ∧
  (true = true → derives (parse_grammar __init__ (py "S ->")) []).
Proof.
  apply (belongs_empty_word_exact (parse_grammar __init__ (py "S ->")) 5 true
           (parse_grammar __init__ (py "S ->"))).
  by vm_compute.
Defined.

(** X19. For a grammar with no empty right-hand side and no symbol that is
    both a terminal and a non-terminal, the membership test is exact up to its
    iteration cap: a nonempty word is accepted under some cap if and only if
    it is a derivable terminal string; such a word is accepted under every cap
    that is at least the number of bounded forms; and with the cap of 10,000
    it is accepted unless the loop makes all its 10,000 passes. *)
Theorem belongs_to_grammar_complete g word :
  no_empty_rhs g = true → terminals g ## non_terminals g → word ≠ [] →
  ((∃ cap fuel self',
       belongs_to_grammar_capped cap fuel g word = Returned (true, self'))
   ↔ derives g word ∧ Forall (fun c => [c] ∈ terminals g) word) ∧
  (derives g word → Forall (fun c => [c] ∈ terminals g) word →
   (∀ cap fuel, size (bfs_universe g word) ≤ cap →
      ∃ self', belongs_to_grammar_capped cap fuel g word = Returned (true, self')) ∧
   (∀ fuel,
      (∃ self', belongs_to_grammar fuel g word = Returned (true, self')) ∨
      (∃ start st,
          start_symbol g = Some start ∧
          passes max_iterations (bfs_step max_iterations word)
                 (mkBfs (mkSearch g [start] {[start]}) 0) = Some st))).
Proof.
  intros Hne Hdisj Hword.
  assert (derives g word → Forall (fun c => [c] ∈ terminals g) word →
          mem_reach g word word) as Hreach.
  { intros Hd Ht. apply derives_mem_reach; try done. by apply is_terminal_string_spec. }
  assert (∀ cap fuel self',
            belongs_to_grammar_capped cap fuel g word = Returned (true, self') →
            derives g word ∧ Forall (fun c => [c] ∈ terminals g) word) as Hsound.
  { intros cap fuel self' Hret. split.
    - apply (belongs_to_grammar_true_inv cap) in Hret; [|done].
      destruct (bfs_parse_total g cap word g (derives g) (same_view_refl g))
        as (b & self0 & Hret0 & _ & Hb).
      + intros s e Hs _ _ _ He. by eapply derives_step.
      + apply derives_start.
      + rewrite Hret in Hret0. injection Hret0 as <- <-. by apply Hb.
    - unfold belongs_to_grammar_capped, belongs_to_grammar_body in Hret.
      rewrite bool_decide_eq_false_2 in Hret by done.
      destruct (forallb _ word) eqn:E; [by apply terminal_check_spec | done]. }
  split.
  - split.
    + intros (cap & fuel & self' & Hret). by eapply Hsound.
    + intros [Hd Ht]. exists (size (bfs_universe g word)), 0.
      rewrite belongs_to_grammar_nonempty by done.
      destruct (bfs_parse_complete g (size (bfs_universe g word)) word g
                  (same_view_refl g) Hword (Hreach Hd Ht) ltac:(done))
        as (self' & Hres & _).
      by exists self'.
  - intros Hd Ht. split.
    + intros cap fuel Hcap. rewrite belongs_to_grammar_nonempty by done.
      destruct (bfs_parse_complete g cap word g (same_view_refl g) Hword
                  (Hreach Hd Ht) Hcap) as (self' & Hres & _).
      by exists self'.
    + intros fuel.
      change (belongs_to_grammar fuel g word)
        with (belongs_to_grammar_capped max_iterations fuel g word).
      rewrite belongs_to_grammar_nonempty by done.
      destruct (bfs_parse_found_or_capped g max_iterations word g (same_view_refl g)
                  Hword (Hreach Hd Ht)) as [Hfound|H]; [by left | by right].
Qed.

Lemma belongs_to_grammar_complete_witness :
  ((∃ cap fuel self',
       belongs_to_grammar_capped cap fuel example_grammar (py "ab")
       = Returned (true, self'))
   ↔ derives example_grammar (py "ab")
     ∧ Forall (fun c => [c] ∈ terminals example_grammar) (py "ab")) ∧
  (derives example_grammar (py "ab") →
   Forall (fun c => [c] ∈ terminals example_grammar) (py "ab") →
   (∀ cap fuel, size (bfs_universe example_grammar (py "ab")) ≤ cap →
      ∃ self', belongs_to_grammar_capped cap fuel example_grammar (py "ab")
               = Returned (true, self')) ∧
   (∀ fuel,
      (∃ self', belongs_to_grammar fuel example_grammar (py "ab")
                = Returned (true, self')) ∨
      (∃ start st,
          start_symbol example_grammar = Some start ∧
          passes max_iterations (bfs_step max_iterations (py "ab"))
                 (mkBfs (mkSearch example_grammar [start] {[start]}) 0) = Some st))).
Proof.
  apply (belongs_to_grammar_complete example_grammar (py "ab")).
  - by vm_compute.
  - apply (bool_decide_unpack _). by vm_compute.
  - done.
Defined.

(** X20. A grammar read by [parse_grammar] into a fresh processor has only
    single lowercase characters as terminals, so [belongs_to_grammar] rejects
    at once, without a search and with the processor untouched, every nonempty
    word that holds a character that is not lowercase. *)
Theorem parsed_grammar_rejects_non_lowercase grammar_text word c :
  word ≠ [] → c ∈ word → islower c = false →
  ∀ fuel,
    belongs_to_grammar fuel (parse_grammar __init__ grammar_text) word
    = Returned (false, parse_grammar __init__ grammar_text).
Proof.
  intros Hne Hc Hlow fuel.
  pose proof (parse_grammar_well_formed_aux __init__ grammar_text well_formed_init)
    as (_ & _ & _ & _ & Hts & _).
  unfold belongs_to_grammar, belongs_to_grammar_body.
  rewrite bool_decide_eq_false_2 by done.
  destruct (forallb _ word) eqn:E; [|done]. exfalso.
  apply terminal_check_spec in E. rewrite Forall_forall in E.
  destruct (Hts [c] (E c Hc)) as (c' & [= ->] & Hc'). congruence.
Qed.

Lemma parsed_grammar_rejects_non_lowercase_witness :
  islower "B" = false ∧
  ∀ fuel,
    belongs_to_grammar fuel (parse_grammar __init__ (py example_text)) (py "aB")
    = Returned (false, parse_grammar __init__ (py example_text)).
Proof.
  split; [by vm_compute|].
  apply (parsed_grammar_rejects_non_lowercase (py example_text) (py "aB") "B"%char).
  - done.
  - right. left.
  - by vm_compute.
Defined.

(** ** [display_grammar] *)


